(** * bethel-flood-visualizer: raster colour ramp, legend, catalogue ordering
      and raster-load state, embedded from the JavaScript sources.

    JavaScript numbers are IEEE-754 binary64 values.  They are modelled by
    the Standard Library's executable specification of binary floating
    point ([SpecFloat], precision 53, [emax] 1024), so that every
    arithmetic step of the source rounds exactly as it does in a JavaScript
    engine.

    The first part embeds the sources: the colour ramp of the raster layer
    ([MapComponent.jsx]) and of the canvas overlay (the [geotiff] variant
    of the component), the legend hook and its number formatter, the
    catalogue helpers, the geographic detection of [useTiffData], the
    state of the map component around a raster load and at start-up, the
    raster hook and the authentication code.  The second part
    proves what binary64 rounding does to the ramp's arithmetic and then
    the properties of the embedded functions. *)

From Stdlib Require Import ZArith Lia List Bool String Ascii DecimalString.
From Stdlib Require Import Sorting.Permutation Sorting.Sorted.
From Stdlib Require Import Floats.SpecFloat.
Import ListNotations.
Local Open Scope Z_scope.

(** ** JavaScript numbers *)

Module Num.

Definition prec : Z := 53.
Definition emax : Z := 1024.

Definition number := spec_float.

Definition NaN : number := S754_nan.

(** An integer literal (exact below 2^53, rounded to nearest even above). *)
Definition of_Z (z : Z) : number := binary_normalize prec emax z 0 false.

Definition add : number -> number -> number := SFadd prec emax.
Definition sub : number -> number -> number := SFsub prec emax.
Definition mul : number -> number -> number := SFmul prec emax.
Definition div : number -> number -> number := SFdiv prec emax.

(** A decimal literal [n / 10^k], e.g. [0.2] is [decimal 2 1]: the double
    nearest to the decimal value (one correctly rounded division of two
    exactly representable integers). *)
Definition decimal (n : Z) (k : nat) : number :=
  div (of_Z n) (of_Z (10 ^ Z.of_nat k)).

(** [x < y], [x <= y], [x >= y], [x === y] on numbers: false on NaN. *)
Definition lt (x y : number) : bool := SFltb x y.
Definition le (x y : number) : bool := SFleb x y.
Definition ge (x y : number) : bool := SFleb y x.
Definition strict_eq (x y : number) : bool := SFeqb x y.

Definition isNaN (x : number) : bool :=
  match x with S754_nan => true | _ => false end.

(** [Math.max] and [Math.min] of two numbers: NaN is contagious, and
    [-0] is below [+0]. *)
Definition Math_max (x y : number) : number :=
  match SFcompare x y with
  | None => NaN
  | Some Lt => y
  | Some Gt => x
  | Some Eq => match x with S754_zero true => y | _ => x end
  end.

Definition Math_min (x y : number) : number :=
  match SFcompare x y with
  | None => NaN
  | Some Lt => x
  | Some Gt => y
  | Some Eq => match x with S754_zero false => y | _ => x end
  end.

(** The integer part of a finite number, rounded towards minus infinity. *)
Definition floorZ (x : number) : Z :=
  match x with
  | S754_finite s m e =>
      let z := cond_Zopp s (Zpos m) in
      if 0 <=? e then z * 2 ^ e else z / 2 ^ (- e)
  | _ => 0
  end.

(** [Math.floor]: infinities, NaN, zeros and integers are fixed points;
    a fraction in (0,1) gives [+0]. *)
Definition Math_floor (x : number) : number :=
  match x with
  | S754_finite s m e =>
      if 0 <=? e then x
      else match floorZ x with
           | Z0 => S754_zero s
           | z => of_Z z
           end
  | _ => x
  end.

(** The mathematical integer a number denotes, when it denotes one. *)
Definition integer_value (x : number) : option Z :=
  match x with
  | S754_zero _ => Some 0
  | S754_finite s m e =>
      if 0 <=? e then Some (cond_Zopp s (Zpos m * 2 ^ e))
      else if Zpos m mod 2 ^ (- e) =? 0
           then Some (cond_Zopp s (Zpos m / 2 ^ (- e)))
           else None
  | _ => None
  end.

(** [arr[x]] for an array [arr] and a number [x]: the element when [x] is
    an integer within the bounds, [undefined] ([None]) otherwise. *)
Definition array_get {A : Type} (arr : list A) (x : number) : option A :=
  match integer_value x with
  | Some i =>
      if (0 <=? i) && (i <? Z.of_nat (List.length arr))
      then nth_error arr (Z.to_nat i)
      else None
  | None => None
  end.

(** [ToUint8Clamp]: the conversion applied when a number is stored into a
    [Uint8ClampedArray] (canvas image data): clamp to 0..255, round to
    nearest, ties to even. *)
Definition ToUint8Clamp (x : number) : Z :=
  match x with
  | S754_nan => 0
  | S754_zero _ => 0
  | S754_infinity s => if s then 0 else 255
  | S754_finite true _ _ => 0
  | S754_finite false m e =>
      if 0 <=? e then Z.min 255 (Zpos m * 2 ^ e)
      else
        let d := 2 ^ (- e) in
        let f := Zpos m / d in
        let r := Zpos m mod d in
        if 255 <=? f then 255
        else match 2 * r ?= d with
             | Lt => f
             | Gt => f + 1
             | Eq => if Z.even f then f else f + 1
             end
  end.

End Num.

Import Num.

(** ** Constants of [utils/mapConstants] *)

Local Open Scope string_scope.

(** The ten purple gradient colours of the decile distribution. *)
Definition purpleGradientColors : list string :=
  [ "#F8F4FF"; "#E8D5F2"; "#D4B3E8"; "#C191DE"; "#BD6FCB";
    "#A855C7"; "#9333EA"; "#7C3AED"; "#6B21A8"; "#581C87" ].

Record visualization := { opt_value : string; opt_label : string }.

Definition visualizationOptions : list visualization :=
  [ {| opt_value := "displacement"; opt_label := "Ground Displacement" |};
    {| opt_value := "velocity"; opt_label := "Velocity" |};
    {| opt_value := "coherence"; opt_label := "Coherence" |};
    {| opt_value := "elevation"; opt_label := "Elevation" |} ].

Local Close Scope string_scope.

(** ** The colour ramp, library-assisted raster layer ([MapComponent.jsx]) *)

(** What a raster library hands over for one band of one pixel. *)
Inductive pixel :=
| PUndefined
| PNull
| PNum (x : number).

(** What [pixelValuesToColorFn] returns: [null], a colour string, or
    [undefined] (an array read outside the palette). *)
Inductive color_result :=
| RNull
| RUndefined
| RColor (c : string).

Definition of_lookup (o : option string) : color_result :=
  match o with Some c => RColor c | None => RUndefined end.

Module Ramp.
(** [const min = -2; const max = 0.2; const range = max - min;] *)
Definition min : number := of_Z (-2).
Definition max : number := decimal 2 1.
Definition range : number := sub max min.
Definition numColors : number := of_Z (Z.of_nat (List.length purpleGradientColors)).
End Ramp.

(** The [opacity: 0.7] the component passes to [GeoRasterLayer]; it applies
    to every pixel the layer draws. *)
Definition layer_opacity : number := decimal 7 1.

(** [values[0]]: reading past the end of an array gives [undefined]. *)
Definition first_band (values : list pixel) : pixel :=
  match values with
  | [] => PUndefined
  | v :: _ => v
  end.

Definition pixelValuesToColorFn (values : list pixel) : color_result :=
  let pixelValue := first_band values in
  match pixelValue with
  | PUndefined => RNull                     (* pixelValue === undefined *)
  | PNull => RNull                          (* pixelValue === null *)
  | PNum x =>
      if isNaN x || lt x Ramp.min then RNull
      else
        let clampedValue := Math_max Ramp.min (Math_min Ramp.max x) in
        let normalized := div (sub clampedValue Ramp.min) Ramp.range in
        if strict_eq normalized (of_Z 1)
        then of_lookup (array_get purpleGradientColors (sub Ramp.numColors (of_Z 1)))
        else
          let colorIndex := Math_floor (mul normalized Ramp.numColors) in
          of_lookup (array_get purpleGradientColors colorIndex)
  end.


(** ** The colour ramp, canvas image overlay (the [geotiff] variant) *)

Definition hex_digit (c : ascii) : option Z :=
  let n := Z.of_nat (nat_of_ascii c) in
  if (48 <=? n) && (n <=? 57) then Some (n - 48)          (* 0-9 *)
  else if (97 <=? n) && (n <=? 102) then Some (n - 87)    (* a-f *)
  else if (65 <=? n) && (n <=? 70) then Some (n - 55)     (* A-F *)
  else None.

(** [parseInt(xy, 16)] of two hexadecimal digits. *)
Definition hex_pair (a b : ascii) : option Z :=
  match hex_digit a, hex_digit b with
  | Some x, Some y => Some (16 * x + y)
  | _, _ => None
  end.

(** [hexToRgb]: the pattern is an optional [#] and exactly six hexadecimal
    digits, case-insensitive; [null] when it does not match. *)
Definition hexToRgb (hex : string) : option (Z * Z * Z) :=
  let body :=
    match hex with
    | String "#"%char rest => rest
    | _ => hex
    end in
  match body with
  | String r1 (String r2 (String g1 (String g2 (String b1 (String b2 EmptyString))))) =>
      match hex_pair r1 r2, hex_pair g1 g2, hex_pair b1 b2 with
      | Some r, Some g, Some b => Some (r, g, b)
      | _, _, _ => None
      end
  | _ => None
  end.

(** [purpleGradientColors.map(hexToRgb)] *)
Definition colorRamp : list (option (Z * Z * Z)) := map hexToRgb purpleGradientColors.

(** A store into the image data ([Uint8ClampedArray]): a write outside the
    array is ignored. *)
Fixpoint typed_set (data : list Z) (j : nat) (v : Z) : list Z :=
  match data, j with
  | [], _ => []
  | _ :: rest, O => v :: rest
  | d :: rest, S j' => d :: typed_set rest j' v
  end.

(** The value stored by [data[j + 3] = 255 * 0.7]. *)
Definition alpha70 : Z := ToUint8Clamp (mul (of_Z 255) (decimal 7 1)).

(** A number operand obtained from a sample ([ToNumber]): [undefined] is
    NaN and [null] is 0. *)
Definition ToNumber (v : pixel) : number :=
  match v with
  | PUndefined => NaN
  | PNull => of_Z 0
  | PNum x => x
  end.

(** The palette entry the canvas loop selects for a sample, or [None] when
    it declares the sample transparent. *)
Definition canvas_color (pixelValue : pixel) : option (Z * Z * Z) :=
  let numColors := of_Z (Z.of_nat (List.length colorRamp)) in
  let is_undefined := match pixelValue with PUndefined => true | _ => false end in
  if is_undefined || isNaN (ToNumber pixelValue) || lt (ToNumber pixelValue) Ramp.min
  then None
  else
    let clampedValue := Math_max Ramp.min (Math_min Ramp.max (ToNumber pixelValue)) in
    let normalized := div (sub clampedValue Ramp.min) Ramp.range in
    let colorIndex :=
      Math_min (sub numColors (of_Z 1)) (Math_floor (mul normalized numColors)) in
    match array_get colorRamp colorIndex with
    | Some (Some color) => Some color
    | _ => None                             (* falsy entry: transparent *)
    end.

(** One iteration of the pixel loop, at sample index [i]. *)
Definition canvas_step (pixelValue : pixel) (i : nat) (data : list Z) : list Z :=
  let j := (i * 4)%nat in
  match canvas_color pixelValue with
  | None => typed_set data (j + 3) 0
  | Some (r, g, b) =>
      typed_set (typed_set (typed_set (typed_set data j r) (j + 1) g) (j + 2) b)
                (j + 3) alpha70
  end.

(** [for (let i = 0; i < rasters.length; i++)] over the interleaved samples
    (a typed array: every element is a number). *)
Fixpoint canvas_loop (rasters : list number) (i : nat) (data : list Z) : list Z :=
  match rasters with
  | [] => data
  | pixelValue :: rest => canvas_loop rest (S i) (canvas_step (PNum pixelValue) i data)
  end.

(** The image data [renderTiffOverlay] paints: [createImageData] gives
    [width * height * 4] zero bytes, then the loop runs over all samples
    returned by [readRasters({ interleave: true })]. *)
Definition renderTiffOverlay (rasters : list number) (width height : nat) : list Z :=
  canvas_loop rasters 0 (repeat 0 (width * height * 4)).

(** The four bytes of pixel [p] of an image. *)
Definition rgba_at (data : list Z) (p : nat) : list Z :=
  firstn 4 (skipn (p * 4) data).

(** ** Strings and number formatting *)

Local Open Scope string_scope.
Local Open Scope Z_scope.

(** The decimal digits of a non-negative integer. *)
Definition digits_of (n : Z) : string := NilZero.string_of_uint (N.to_uint (Z.to_N n)).

(** [toLowerCase], on the letters A to Z; the other characters are left as
    they are, which changes nothing to whether the result equals or
    contains the ASCII texts it is compared with. *)
Definition lower_char (c : ascii) : ascii :=
  let n := nat_of_ascii c in
  if (65 <=? n)%nat && (n <=? 90)%nat then ascii_of_nat (n + 32) else c.

Fixpoint toLowerCase (s : string) : string :=
  match s with
  | EmptyString => EmptyString
  | String c r => String (lower_char c) (toLowerCase r)
  end.

(** [s.includes(sub)] *)
Fixpoint includes (sub s : string) : bool :=
  prefix sub s ||
  match s with
  | EmptyString => false
  | String _ r => includes sub r
  end.

Fixpoint zeros (n : nat) : string :=
  match n with
  | O => EmptyString
  | S n' => String "0" (zeros n')
  end.

Section Formatting.

(** [Number::toString] of the host.  [toFixed] falls back to it for
    magnitudes of 10^21 and above, where no fixed notation is produced. *)
Variable Number_toString : number -> string.

(** [x.toFixed(3)]: the integer [n] nearest to [|x| * 1000] (the larger
    one on a tie), written with at least four digits and a point before
    the last three, after the sign of [x]. *)
Definition toFixed3 (x : number) : string :=
  match x with
  | S754_nan => "NaN"
  | S754_infinity false => "Infinity"
  | S754_infinity true => "-Infinity"
  | S754_zero _ => "0.000"
  | S754_finite s m e =>
      let big := if 0 <=? e then 10 ^ 21 <=? Zpos m * 2 ^ e
                 else 10 ^ 21 * 2 ^ (- e) <=? Zpos m in
      if big then Number_toString x
      else
        let n := if 0 <=? e then Zpos m * 2 ^ e * 1000
                 else (2000 * Zpos m + 2 ^ (- e)) / 2 ^ (1 - e) in
        let ds := digits_of n in
        let ds := zeros (4 - String.length ds) ++ ds in
        let k := (String.length ds - 3)%nat in
        (if s then "-" else EmptyString) ++ substring 0 k ds ++ "." ++ substring k 3 ds
  end.

End Formatting.

(** *** [parseFloat] *)

(** A string is held as the bytes of its UTF-8 encoding.  The characters
    [parseFloat] skips at the start of its argument ([StrWhiteSpaceChar]:
    the white space and the line terminators of the language) take one,
    two or three bytes. *)

(** TAB, LF, VT, FF, CR and the space. *)
Definition is_space (c : ascii) : bool :=
  match nat_of_ascii c with
  | 9%nat | 10%nat | 11%nat | 12%nat | 13%nat | 32%nat => true
  | _ => false
  end.

(** U+00A0, the no-break space. *)
Definition is_space2 (c d : ascii) : bool :=
  (N_of_ascii c =? 194)%N && (N_of_ascii d =? 160)%N.

(** U+1680; U+2000 to U+200A; the line and paragraph separators U+2028 and
    U+2029; U+202F; U+205F; U+3000; and U+FEFF. *)
Definition is_space3 (c d e : ascii) : bool :=
  let c := N_of_ascii c in
  let d := N_of_ascii d in
  let e := N_of_ascii e in
  ((c =? 225) && (d =? 154) && (e =? 128)
   || (c =? 226) && (d =? 128) && ((128 <=? e) && (e <=? 138))
   || (c =? 226) && (d =? 128) && ((e =? 168) || (e =? 169) || (e =? 175))
   || (c =? 226) && (d =? 129) && (e =? 159)
   || (c =? 227) && (d =? 128) && (e =? 128)
   || (c =? 239) && (d =? 187) && (e =? 191))%N.

Fixpoint trim_start (s : string) : string :=
  match s with
  | EmptyString => s
  | String c r =>
      if is_space c then trim_start r
      else
        match r with
        | String d r2 =>
            if is_space2 c d then trim_start r2
            else
              match r2 with
              | String e r3 => if is_space3 c d e then trim_start r3 else s
              | EmptyString => s
              end
        | EmptyString => s
        end
  end.

Definition digit_val (c : ascii) : option Z :=
  let n := Z.of_nat (nat_of_ascii c) in
  if (48 <=? n) && (n <=? 57) then Some (n - 48) else None.

(** Reads a run of decimal digits: the accumulated value, how many digits
    were read, and the rest of the string. *)
Fixpoint read_digits (s : string) (acc : Z) (cnt : nat) : Z * nat * string :=
  match s with
  | String c r =>
      match digit_val c with
      | Some d => read_digits r (10 * acc + d) (S cnt)
      | None => (acc, cnt, s)
      end
  | EmptyString => (acc, cnt, s)
  end.

(** The double nearest to [mant * 10^e10]. *)
Definition of_scientific (sign : bool) (mant e10 : Z) : number :=
  match mant with
  | Z0 => S754_zero sign
  | Zneg _ => NaN
  | Zpos _ =>
      if 0 <=? e10
      then binary_normalize prec emax (cond_Zopp sign (mant * 10 ^ e10)) 0 sign
      else
        let '(q, e, l) := SFdiv_core_binary prec emax mant 0 (10 ^ (- e10)) 0 in
        binary_round_aux prec emax sign q e l
  end.

(** The exponent part [e[+-]ddd] at the head of a string, if there is one. *)
Definition read_exponent (s : string) : Z :=
  match s with
  | String c r =>
      if (Ascii.eqb c "e" || Ascii.eqb c "E")%bool then
        let '(neg, r') :=
          match r with
          | String "-"%char r' => (true, r')
          | String "+"%char r' => (false, r')
          | _ => (false, r)
          end in
        let '(v, cnt, _) := read_digits r' 0 0 in
        match cnt with
        | O => 0
        | _ => if neg then - v else v
        end
      else 0
  | EmptyString => 0
  end.

(** [parseFloat] of a string: leading white space is skipped and the
    longest prefix that is a decimal literal is converted; NaN when there
    is none. *)
Definition parseFloat_string (input : string) : number :=
  let s := trim_start input in
  let '(sign, s) :=
    match s with
    | String "-"%char r => (true, r)
    | String "+"%char r => (false, r)
    | _ => (false, s)
    end in
  if prefix "Infinity" s then S754_infinity sign
  else
    let '(ip, ni, r1) := read_digits s 0 0 in
    let '(mant, nf, r2) :=
      match r1 with
      | String "."%char r => read_digits r ip 0
      | _ => (ip, O, r1)
      end in
    match (ni + nf)%nat with
    | O => NaN
    | _ => of_scientific sign mant (read_exponent r2 - Z.of_nat nf)
    end.

(** Whether a string starts with a number as [parseFloat] reads one (a
    prefix that is a [StrDecimalLiteral]): after the white space and an
    optional sign comes [Infinity], or a digit, or a point and a digit. *)
Definition is_digit (c : ascii) : bool :=
  match digit_val c with
  | Some _ => true
  | None => false
  end.

Definition starts_number (s : string) : bool :=
  let t := trim_start s in
  let u := match t with
           | String c r => if Ascii.eqb c "-" || Ascii.eqb c "+" then r else t
           | EmptyString => t
           end in
  prefix "Infinity" u
  || match u with
     | String c r =>
         is_digit c
         || Ascii.eqb c "."
            && match r with
               | String d _ => is_digit d
               | EmptyString => false
               end
     | EmptyString => false
     end.

(** A value handed to the legend formatter. *)
Inductive jsval :=
| JUndefined
| JNull
| JBool (b : bool)
| JNum (x : number)
| JStr (s : string).

(** [parseFloat(value)] converts its argument to a string first.  A number
    prints and parses back to itself, except that [-0] prints as ["0"]; the
    strings of [undefined], [null] and the booleans are not numeric. *)
Definition parseFloat (v : jsval) : number :=
  match v with
  | JNum (S754_zero _) => S754_zero false
  | JNum x => x
  | JStr s => parseFloat_string s
  | JUndefined | JNull | JBool _ => NaN
  end.

(** A reference that may be [undefined], [null] or an object. *)
Inductive maybe (A : Type) :=
| Undefined
| Null
| Defined (a : A).
Arguments Undefined {A}.
Arguments Null {A}.
Arguments Defined {A} a.

(** ** Catalogue resources ([getAllTiffResources], [getLatestTiffUrl]) *)

(** The time value of [new Date(s)] for a date string [s]: milliseconds
    since the epoch, or NaN (an invalid date) when [s] is no date. *)
Inductive time_value :=
| TimeValue (ms : Z)
| InvalidDate.

(** A resource descriptor of the catalogue.  An absent (or empty, hence
    falsy) field is [None].  The timestamps [created] and [last_modified]
    are held as the time value that [new Date(...)] gives for the field's
    date string. *)
Record resource := {
  format : option string;
  name : option string;
  url : option string;
  created : option time_value;
  last_modified : option time_value;
  res_description : option string;
  id : option string;
  displayName : option string
}.

Record dataset := {
  ds_name : option string;
  ds_resources : option (list resource)
}.

Definition opt_is (f : string -> bool) (o : option string) : bool :=
  match o with
  | Some s => f s
  | None => false
  end.

(** The filter predicate of both catalogue helpers. *)
Definition is_tiff (r : resource) : bool :=
  opt_is (fun f => String.eqb (toLowerCase f) "tiff") (format r)
  || opt_is (fun f => String.eqb (toLowerCase f) "geotiff") (format r)
  || opt_is (fun n => includes ".tif" (toLowerCase n)) (name r)
  || opt_is (fun u => includes ".tif" (toLowerCase u)) (url r).

(** [new Date(a.created || a.last_modified || 0)], as a time value. *)
Definition date_of (a : resource) : time_value :=
  match created a with
  | Some t => t
  | None =>
      match last_modified a with
      | Some t => t
      | None => TimeValue 0
      end
  end.

(** The comparator [(a, b) => dateB - dateA]: a number, whose sign is all
    that the sort reads, or NaN ([None]) when one of the dates is
    invalid. *)
Definition by_date_desc (a b : resource) : option Z :=
  match date_of b, date_of a with
  | TimeValue tb, TimeValue ta => Some (tb - ta)
  | _, _ => None
  end.

(** What [sort] makes of a comparator's result: NaN counts as [+0]. *)
Definition SortCompare {A : Type} (comparefn : A -> A -> option Z) (x y : A) : Z :=
  match comparefn x y with
  | Some v => v
  | None => 0
  end.

(** [Array.prototype.sort] with a comparator: a stable sort, [a] stays
    before [b] unless the comparator is positive.  With a comparator that
    is not consistent (here: when a date is invalid, which compares as
    equal to every date) the language leaves the order to the
    implementation; the insertion below is then one such order, and what
    is proved about the order of dates is proved for valid dates. *)
Fixpoint insert_by {A : Type} (cmp : A -> A -> Z) (x : A) (l : list A) : list A :=
  match l with
  | [] => [x]
  | y :: rest => if 0 <? cmp x y then y :: insert_by cmp x rest else x :: l
  end.

Definition sort {A : Type} (cmp : A -> A -> Z) (l : list A) : list A :=
  fold_right (insert_by cmp) [] l.

(** [arr.map((x, index) => f(x, index))] *)
Fixpoint map_index {A B : Type} (f : A -> Z -> B) (arr : list A) (index : Z) : list B :=
  match arr with
  | [] => []
  | x :: rest => f x index :: map_index f rest (index + 1)
  end.

(** A function that returns or throws an [Error] with a message. *)
Inductive result (A : Type) :=
| Return (a : A)
| Throw (message : string).
Arguments Return {A} a.
Arguments Throw {A} message.

Definition tiff_resources_of (d : maybe dataset) : result (list resource) :=
  match d with
  | Defined ds =>
      match ds_resources ds with
      | Some resources =>
          match filter is_tiff resources with
          | [] => Throw "No TIFF files found in dataset"
          | tiffResources => Return tiffResources
          end
      | None => Throw "No resources found in dataset"
      end
  | _ => Throw "No resources found in dataset"
  end.

(** [getAllTiffResources] of the map component. *)
Definition getAllTiffResources (d : maybe dataset) : result (list resource) :=
  match tiff_resources_of d with
  | Throw m => Throw m
  | Return tiffResources =>
      Return
        (map_index
           (fun r index =>
              {| format := format r; name := name r; url := url r;
                 created := created r; last_modified := last_modified r;
                 res_description := res_description r;
                 displayName :=
                   match name r with
                   | Some n => Some n
                   | None => Some ("Raster " ++ digits_of (index + 1))
                   end;
                 id :=
                   match id r with
                   | Some i => Some i
                   | None => Some ("raster-" ++ digits_of index)
                   end |})
           (sort (SortCompare by_date_desc) tiffResources) 0)
  end.

Record tiff_info := {
  ti_url : option string;
  ti_name : option string;
  ti_description : option string;
  ti_created : option time_value;
  ti_format : option string
}.

(** [getLatestTiffUrl] of [hooks/useTiffData]. *)
Definition getLatestTiffUrl (d : maybe dataset) : result tiff_info :=
  match tiff_resources_of d with
  | Throw m => Throw m
  | Return tiffResources =>
      match sort (SortCompare by_date_desc) tiffResources with
      | first :: _ =>
          Return {| ti_url := url first; ti_name := name first;
                    ti_description := res_description first;
                    ti_created := created first; ti_format := format first |}
      | [] => Throw "Cannot read properties of undefined"
      end
  end.

(** Equality of resources, decided field by field. *)
Definition option_eqb {A : Type} (eqb : A -> A -> bool) (a b : option A) : bool :=
  match a, b with
  | Some x, Some y => eqb x y
  | None, None => true
  | _, _ => false
  end.

Definition time_value_eqb (a b : time_value) : bool :=
  match a, b with
  | TimeValue x, TimeValue y => x =? y
  | InvalidDate, InvalidDate => true
  | _, _ => false
  end.

Definition resource_eqb (a b : resource) : bool :=
  option_eqb String.eqb (format a) (format b)
  && option_eqb String.eqb (name a) (name b)
  && option_eqb String.eqb (url a) (url b)
  && option_eqb time_value_eqb (created a) (created b)
  && option_eqb time_value_eqb (last_modified a) (last_modified b)
  && option_eqb String.eqb (res_description a) (res_description b)
  && option_eqb String.eqb (id a) (id b)
  && option_eqb String.eqb (displayName a) (displayName b).

(** ** The legend ([hooks/useLegend]) *)

Record legend_range := { color : string; label : string }.

Record legend_config := {
  title : string;
  description : string;
  visualizationType : string;
  ranges : list legend_range
}.

(** [{legendConfig && <Legend config={legendConfig} />}] *)
Inductive element := Legend (config : legend_config).

Definition render_legend (legendConfig : option legend_config) : option element :=
  match legendConfig with
  | Some c => Some (Legend c)
  | None => None
  end.

(** [datasetInfo?.name ? `(${datasetInfo.name})` : ''] *)
Definition dataset_suffix (datasetInfo : maybe dataset) : string :=
  match datasetInfo with
  | Defined d =>
      match ds_name d with
      | Some n => if String.eqb n EmptyString then EmptyString else "(" ++ n ++ ")"
      | None => EmptyString
      end
  | _ => EmptyString
  end.

Section Legend.

Variable Number_toString : number -> string.

(** [formatLegendNumber] of [utils/mapConstants] *)
Definition formatLegendNumber (value : jsval) : string :=
  match value with
  | JNull | JUndefined => "N/A"
  | _ =>
      let num := parseFloat value in
      if isNaN num then "N/A" else toFixed3 Number_toString num
  end.

(** [useLegend] (the memoised function). *)
Definition useLegend (currentVisualization : maybe visualization)
           (datasetInfo : maybe dataset) (vizType : string)
  : option legend_config :=
  match currentVisualization with
  | Undefined | Null => None                      (* !currentVisualization *)
  | Defined cv =>
      let min := of_Z (-2) in
      let max := decimal 2 1 in
      let numSteps := of_Z (Z.of_nat (List.length purpleGradientColors)) in
      let step := div (sub max min) numSteps in
      Some {|
        title := opt_label cv ++ " Legend";
        description := "Gulf Coast InSAR Data " ++ dataset_suffix datasetInfo;
        visualizationType := vizType;
        ranges :=
          map_index (fun color index =>
                       let rangeStart := add min (mul (of_Z index) step) in
                       let rangeEnd := add rangeStart step in
                       {| color := color;
                          label := formatLegendNumber (JNum rangeStart) ++ " - "
                                   ++ formatLegendNumber (JNum rangeEnd) |})
                    purpleGradientColors 0
      |}
  end.

End Legend.

(** ** Geographic detection ([hooks/useTiffData], [loadTiffData]) *)

Record bounds := { xmin : number; xmax : number; ymin : number; ymax : number }.

(** The [bounds] object stored with the decoded raster: the four display
    coordinates, the flag, and the native bounds when projected. *)
Record display_bounds := {
  extent : bounds;
  isProjected : bool;
  originalBounds : option bounds
}.

Definition isGeographic (georaster : bounds) : bool :=
  ge (xmin georaster) (of_Z (-180)) && le (xmax georaster) (of_Z 180)
  && ge (ymin georaster) (of_Z (-90)) && le (ymax georaster) (of_Z 90).

Definition fallback_bounds : bounds :=
  {| xmin := decimal (-975) 1; xmax := decimal (-800) 1;
     ymin := decimal 250 1; ymax := decimal 305 1 |}.

Definition displayBounds (georaster : bounds) : display_bounds :=
  if isGeographic georaster
  then {| extent := {| xmin := xmin georaster; xmax := xmax georaster;
                       ymin := ymin georaster; ymax := ymax georaster |};
          isProjected := false;
          originalBounds := None |}
  else {| extent := fallback_bounds;
          isProjected := true;
          originalBounds := Some {| xmin := xmin georaster; xmax := xmax georaster;
                                    ymin := ymin georaster; ymax := ymax georaster |} |}.



(** ** Raster loading and overlay replacement in the map component *)

(** How the awaited part of [loadTiffData] ends: the response is not ok,
    the fetch (or reading its body) rejects, the parser throws, or the
    parser returns a decoded raster. *)
Inductive outcome (raster : Type) :=
| NotOk (status : Z) (statusText : string)
| FetchRejected (message : string)
| DecodeThrows (message : string)
| Decoded (g : raster).
Arguments NotOk {raster} status statusText.
Arguments FetchRejected {raster} message.
Arguments DecodeThrows {raster} message.
Arguments Decoded {raster} g.

Section MapComponent.

(** A decoded raster, a map layer, and the construction and attachment of
    the raster layer ([None] when that throws). *)
Variable raster : Type.
Variable layer : Type.
Variable GeoRasterLayer : raster -> option layer.

(** The object kept in the [tiffData] state. *)
Record tiff_data := {
  georaster : option raster;
  info : resource;
  placeholder : bool;
  isActualData : bool;
  td_error : option string
}.

(** The component's state: the React state variables, the layer held in
    [currentLayerRef] (the overlay attached to the map), and the number
    of loads whose fetch has not settled yet. *)
Record state := {
  loading : bool;
  error : option string;
  tiffData : option tiff_data;
  availableRasters : list resource;
  selectedRaster : option resource;
  map_mounted : bool;
  currentLayer : option layer;
  pending : nat
}.

Definition setLoading (b : bool) (st : state) : state :=
  {| loading := b; error := error st; tiffData := tiffData st;
     availableRasters := availableRasters st; selectedRaster := selectedRaster st;
     map_mounted := map_mounted st; currentLayer := currentLayer st;
     pending := pending st |}.

Definition setError (e : option string) (st : state) : state :=
  {| loading := loading st; error := e; tiffData := tiffData st;
     availableRasters := availableRasters st; selectedRaster := selectedRaster st;
     map_mounted := map_mounted st; currentLayer := currentLayer st;
     pending := pending st |}.

Definition setTiffData (d : tiff_data) (st : state) : state :=
  {| loading := loading st; error := error st; tiffData := Some d;
     availableRasters := availableRasters st; selectedRaster := selectedRaster st;
     map_mounted := map_mounted st; currentLayer := currentLayer st;
     pending := pending st |}.

Definition setSelectedRaster (r : option resource) (st : state) : state :=
  {| loading := loading st; error := error st; tiffData := tiffData st;
     availableRasters := availableRasters st; selectedRaster := r;
     map_mounted := map_mounted st; currentLayer := currentLayer st;
     pending := pending st |}.

Definition set_layer (l : option layer) (st : state) : state :=
  {| loading := loading st; error := error st; tiffData := tiffData st;
     availableRasters := availableRasters st; selectedRaster := selectedRaster st;
     map_mounted := map_mounted st; currentLayer := l;
     pending := pending st |}.

Definition set_pending (n : nat) (st : state) : state :=
  {| loading := loading st; error := error st; tiffData := tiffData st;
     availableRasters := availableRasters st; selectedRaster := selectedRaster st;
     map_mounted := map_mounted st; currentLayer := currentLayer st;
     pending := n |}.

(** [loadTiffData] up to its first [await]. *)
Definition loadTiffData_begin (rasterResource : option resource) (st : state) : state :=
  match rasterResource with
  | None => st                                      (* if (!rasterResource) return *)
  | Some _ => set_pending (S (pending st)) (setError None (setLoading true st))
  end.

(** The body of the inner [try]: it throws or yields the decoded raster. *)
Definition fetch_and_decode (o : outcome raster) : result raster :=
  match o with
  | NotOk status statusText =>
      Throw ("Failed to fetch TIFF file: " ++ digits_of status ++ " " ++ statusText)
  | FetchRejected m => Throw m
  | DecodeThrows m => Throw m
  | Decoded g => Return g
  end.

(** [loadTiffData] from the point where the awaited fetch and decode
    settle: the inner [try]/[catch], the outer [catch], and [finally]. *)
Definition loadTiffData_resume (rasterResource : resource) (o : outcome raster)
           (st : state) : result state :=
  let st := set_pending (Nat.pred (pending st)) st in
  let inner : result state :=
    match fetch_and_decode o with
    | Return g =>
        Return (setTiffData {| georaster := Some g; info := rasterResource;
                               placeholder := false; isActualData := true;
                               td_error := None |} st)
    | Throw message =>                              (* catch (georasterError) *)
        Return (setTiffData {| georaster := None; info := rasterResource;
                               placeholder := true; isActualData := false;
                               td_error := Some message |} st)
    end in
  let outer : result state :=
    match inner with
    | Return s => Return s
    | Throw message => Return (setError (Some message) st)    (* catch (err) *)
    end in
  match outer with
  | Return s => Return (setLoading false s)                    (* finally *)
  | Throw message => Throw message
  end.

(** The effect on [tiffData]: without a map or a decoded raster it
    returns at once; otherwise it removes the current layer and attaches a
    layer for the new raster. *)
Definition tiff_effect (st : state) : state :=
  if negb (map_mounted st) then st
  else
    match tiffData st with
    | None => st
    | Some td =>
        match georaster td with
        | None => st
        | Some g =>
            let st := set_layer None st in
            match GeoRasterLayer g with
            | Some l => set_layer (Some l) st
            | None => st                             (* caught and logged *)
            end
        end
    end.

(** A load settles: the rest of [loadTiffData] runs, then the render it
    causes runs the effect on [tiffData]. *)
Definition settle (rasterResource : resource) (o : outcome raster) (st : state) : result state :=
  match loadTiffData_resume rasterResource o st with
  | Return s => Return (tiff_effect s)
  | Throw m => Throw m
  end.

(** [setSelectedRaster] and the effect on [selectedRaster]: when the
    raster set is the object already selected, the state is left as it is
    and the effect does not run; otherwise the effect starts the load.
    (The raster set is the first object of the offered list with its id,
    and so is the selected one; two such objects of a list are the same
    object exactly when they are equal records.) *)
Definition select_raster (r : option resource) (st : state) : state :=
  if option_eqb resource_eqb r (selectedRaster st) then st
  else loadTiffData_begin r (setSelectedRaster r st).

(** The raster drop-down is [disabled={loading || availableRasters.length === 0}]. *)
Definition select_disabled (st : state) : bool :=
  loading st || match availableRasters st with [] => true | _ => false end.

(** The error box, with its Retry button, is rendered under [{error && ...}]. *)
Definition retry_shown (st : state) : bool :=
  match error st with
  | Some m => negb (String.eqb m EmptyString)
  | None => false
  end.

(** [handleRasterChange]: the handler of the drop-down's change event. *)
Definition handleRasterChange (rasterId : string) (st : state) : state :=
  select_raster
    (find (fun r => match id r with
                    | Some i => String.eqb i rasterId
                    | None => false
                    end) (availableRasters st)) st.

(** The user picks an entry of the drop-down: a disabled control delivers
    no change event. *)
Definition user_change (rasterId : string) (st : state) : state :=
  if select_disabled st then st else handleRasterChange rasterId st.

(** The events of the component that concern raster loading. *)
Inductive event :=
| Select (r : resource)
| Settle (r : resource) (o : outcome raster).

Definition step (st : state) (ev : event) : state :=
  match ev with
  | Select r => select_raster (Some r) st
  | Settle r o =>
      match settle r o st with
      | Return s => s
      | Throw _ => st
      end
  end.

Definition run (st : state) (evs : list event) : state := fold_left step evs st.

End MapComponent.

Arguments georaster {raster} _.
Arguments info {raster} _.
Arguments placeholder {raster} _.
Arguments isActualData {raster} _.
Arguments td_error {raster} _.
Arguments loading {raster layer} _.
Arguments error {raster layer} _.
Arguments tiffData {raster layer} _.
Arguments availableRasters {raster layer} _.
Arguments selectedRaster {raster layer} _.
Arguments map_mounted {raster layer} _.
Arguments currentLayer {raster layer} _.
Arguments pending {raster layer} _.
Arguments Select {raster} r.
Arguments Settle {raster} r o.
Arguments setLoading {raster layer} b st.
Arguments setError {raster layer} e st.
Arguments setTiffData {raster layer} d st.
Arguments setSelectedRaster {raster layer} r st.
Arguments set_layer {raster layer} l st.
Arguments set_pending {raster layer} n st.
Arguments loadTiffData_begin {raster layer} rasterResource st.
Arguments fetch_and_decode {raster} o.
Arguments loadTiffData_resume {raster layer} rasterResource o st.
Arguments tiff_effect {raster layer} GeoRasterLayer st.
Arguments settle {raster layer} GeoRasterLayer rasterResource o st.
Arguments select_raster {raster layer} r st.
Arguments select_disabled {raster layer} st.
Arguments retry_shown {raster layer} st.
Arguments handleRasterChange {raster layer} rasterId st.
Arguments user_change {raster layer} rasterId st.
Arguments step {raster layer} GeoRasterLayer st ev.
Arguments run {raster layer} GeoRasterLayer st evs.

(** ** The same load in the geotiff variant, which paints an image overlay *)

(** How [renderTiffOverlay] ends: the image overlay is attached; or
    something in its [try] throws, before the overlay is attached
    ([Threw None]) or after it ([Threw (Some l)]). *)
Inductive render_outcome (layer : Type) :=
| Attached (l : layer)
| Threw (attached : option layer).
Arguments Attached {layer} l.
Arguments Threw {layer} attached.

Section CanvasVariant.

(** The parsed file (the variant keeps it in [tiffData.geotiff], held here
    in the field [georaster]), the image overlay, and the painting. *)
Variable raster : Type.
Variable layer : Type.
Variable renderTiffOverlay_ends : raster -> render_outcome layer.

(** The effect on [tiffData] of the variant, with the [renderTiffOverlay]
    it starts run to its end: without a map or a parsed file the effect
    returns at once; otherwise it removes the current overlay and calls
    [renderTiffOverlay], whose [catch] sets the error slot. *)
Definition canvas_effect (st : state raster layer) : state raster layer :=
  if negb (map_mounted st) then st
  else
    match tiffData st with
    | None => st
    | Some td =>
        match georaster td with
        | None => st
        | Some g =>
            let st := set_layer None st in
            match renderTiffOverlay_ends g with
            | Attached l => set_layer (Some l) st
            | Threw attached =>
                setError
                  (Some "Could not render the selected raster. It may be in an unsupported format.")
                  (set_layer attached st)
            end
        end
    end.

(** A load of the variant settles; its [loadTiffData] is that of the map
    component, with [fromArrayBuffer] as the parser. *)
Definition settle_canvas (rasterResource : resource) (o : outcome raster)
           (st : state raster layer) : result (state raster layer) :=
  match loadTiffData_resume rasterResource o st with
  | Return s => Return (canvas_effect s)
  | Throw m => Throw m
  end.

End CanvasVariant.

Arguments canvas_effect {raster layer} renderTiffOverlay_ends st.
Arguments settle_canvas {raster layer} renderTiffOverlay_ends rasterResource o st.

Local Close Scope string_scope.

(** ** The decile of a value *)

(** [(value - min) / range] and the decile index
    [min(9, floor(normalized * 10))] the ramp is specified by. *)
Definition normalized (c : number) : number := div (sub c Ramp.min) Ramp.range.

Definition decile (c : number) : Z :=
  Z.min 9 (floorZ (mul (normalized c) Ramp.numColors)).

(** The interior boundary [-2.0 + k * 0.22] of the deciles, evaluated as
    the JavaScript expression. *)
Definition boundary (k : Z) : number :=
  add (of_Z (-2)) (mul (of_Z k) (decimal 22 2)).

(** A value the transparency rule names: [undefined], [null], NaN, or a
    number strictly below the domain minimum. *)
Definition no_data (v : pixel) : Prop :=
  v = PUndefined \/ v = PNull \/
  exists x, v = PNum x /\ (isNaN x = true \/ lt x Ramp.min = true).

(** A sample that holds a number holds a binary64 value. *)
Definition well_formed (v : pixel) : Prop :=
  match v with
  | PNum x => valid_binary prec emax x = true
  | _ => True
  end.

(** The four bytes the canvas loop leaves in a fresh (zeroed) pixel. *)
Definition canvas_rgba (v : pixel) : list Z := canvas_step v 0 [0; 0; 0; 0].

(** ** The legend as the specification words it *)

Local Open Scope string_scope.
Local Open Scope Z_scope.

(** A number of thousandths written with exactly three decimals. *)
Definition spec_fixed3 (thousandths : Z) : string :=
  let a := Z.abs thousandths in
  let frac := digits_of (a mod 1000) in
  (if thousandths <? 0 then "-" else EmptyString)
  ++ digits_of (a / 1000) ++ "." ++ zeros (3 - String.length frac) ++ frac.

(** Entry [i] runs from [-2.0 + i * 0.22] to that plus [0.22]. *)
Definition spec_label (i : Z) : string :=
  spec_fixed3 (-2000 + 220 * i) ++ " - " ++ spec_fixed3 (-2000 + 220 * i + 220).

Definition spec_ranges : list legend_range :=
  map_index (fun c i => {| color := c; label := spec_label i |}) purpleGradientColors 0.

(** ** Newest first *)

(** A resource whose date is valid, and its time in milliseconds. *)
Definition valid_date (r : resource) : bool :=
  match date_of r with
  | TimeValue _ => true
  | InvalidDate => false
  end.

Definition date_ms (r : resource) : Z :=
  match date_of r with
  | TimeValue t => t
  | InvalidDate => 0
  end.

(** The comparator on resources of valid dates. *)
Definition by_ms (a b : resource) : Z := date_ms b - date_ms a.

(** [a] may stand before [b] in a newest-first list. *)
Definition newest_first (a b : resource) : Prop := date_ms b <= date_ms a.

Definition strictly_newer (a b : resource) : Prop := date_ms b < date_ms a.

(** ** Sample inputs *)

Definition sample_resource (n : string) (t : option Z) : resource :=
  {| format := Some "GeoTIFF"; name := Some n; url := Some ("https://example.org/" ++ n);
     created := option_map TimeValue t; last_modified := None; res_description := None;
     id := Some n; displayName := Some n |}.

(** Two rasters of the catalogue. *)
Definition raster_a : resource := sample_resource "a.tif" (Some 1700000000000).
Definition raster_b : resource := sample_resource "b.tif" (Some 1710000000000).

(** The component once the catalogue is loaded and nothing is selected;
    decoded rasters and layers are named by integers. *)
Definition idle : state Z Z :=
  {| loading := false; error := None; tiffData := None;
     availableRasters := [raster_b; raster_a]; selectedRaster := None;
     map_mounted := true; currentLayer := None; pending := 0 |}.

(** The same component while it shows the overlay of raster [b]. *)
Definition showing_b : state Z Z :=
  {| loading := false; error := None;
     tiffData := Some {| georaster := Some 2; info := raster_b; placeholder := false;
                         isActualData := true; td_error := None |};
     availableRasters := [raster_b; raster_a]; selectedRaster := Some raster_b;
     map_mounted := true; currentLayer := Some 2; pending := 0 |}.

(** Three dated resources, the oldest dated before the epoch, and one
    without any timestamp. *)
Definition res_1969 : resource := sample_resource "t1.tif" (Some (-1000)).
Definition res_2023 : resource := sample_resource "t2.tif" (Some 1690000000000).
Definition res_2024 : resource := sample_resource "t3.tif" (Some 1720000000000).
Definition res_undated : resource := sample_resource "t0.tif" None.

(** A grid of two pixels and two interleaved bands: pixel 0 holds
    (0.0, -3.0) and pixel 1 holds (0.1, -3.0). *)
Definition two_band_grid : list number :=
  [of_Z 0; of_Z (-3); decimal 1 1; of_Z (-3)].

(** The same first band over a different second band. *)
Definition two_band_grid' : list number :=
  [of_Z 0; of_Z 0; decimal 1 1; of_Z 0].

(** A projected (UTM-like) and a geographic bounding box. *)
Definition utm_box : bounds :=
  {| xmin := of_Z 500000; xmax := of_Z 600000; ymin := of_Z 3000000; ymax := of_Z 3100000 |}.

Definition gulf_box : bounds :=
  {| xmin := of_Z (-100); xmax := of_Z (-90); ymin := of_Z 20; ymax := of_Z 30 |}.

Local Close Scope string_scope.

(** ** Constants and ranges of the ramp's arithmetic *)

Local Abbreviation fexp64 := (fexp prec emax) (only parsing).

(** The doubles the ramp computes with: -2, 0.2, 2.2 (the range), 1 and 10. *)
Definition cmin : spec_float := S754_finite true 4503599627370496 (-51).     (* -2 *)
Definition cmax : spec_float := S754_finite false 7205759403792794 (-55).    (* 0.2 *)
Definition crange : spec_float := S754_finite false 4953959590107546 (-51).  (* 2.2 *)
Definition cone : spec_float := S754_finite false 4503599627370496 (-52).    (* 1 *)
Definition cten : spec_float := S754_finite false 5629499534213120 (-49).    (* 10 *)

(** A number of the domain [-2, 0.2] is a zero, a negative number of
    magnitude at most 2, or a positive number not above the double 0.2. *)
Inductive in_domain : spec_float -> Prop :=
| dom_zero (s : bool) : in_domain (S754_zero s)
| dom_neg (m : positive) (e : Z) :
    bounded prec emax m e = true ->
    e < -51 \/ (e = -51 /\ Zpos m <= 4503599627370496) ->
    in_domain (S754_finite true m e)
| dom_pos (m : positive) (e : Z) :
    bounded prec emax m e = true ->
    e < -55 \/ (e = -55 /\ Zpos m <= 7205759403792794) ->
    in_domain (S754_finite false m e).

(** Where a computed number lies: it is [+0], or a canonical positive
    number not above [Mb * 2^Eb]. *)
Definition at_most (Mb : positive) (Eb : Z) (x : spec_float) : Prop :=
  x = S754_zero false \/
  exists m e,
    x = S754_finite false m e /\
    bounded prec emax m e = true /\ e <= Eb /\ Zpos m <= Zpos Mb * 2 ^ (Eb - e).

(** ** Values of responses and of the authentication state *)

Local Open Scope string_scope.
Local Open Scope Z_scope.

(** A JavaScript value as the authentication code probes it: a parsed
    JSON response, or an object built by the code.  An object is the list of
    its own properties, each key once; a built-in method is known by its
    name. *)
#[warnings="-register-all"] Inductive json :=
| JsUndefined
| JsNull
| JsBool (b : bool)
| JsNumber (x : number)
| JsString (s : string)
| JsObject (fields : list (string * json))
| JsFunction (name : string).

(** Truthiness, as [!v], [v && ...] and [v || ...] test it. *)
Definition truthy (v : json) : bool :=
  match v with
  | JsUndefined | JsNull => false
  | JsBool b => b
  | JsNumber (S754_zero _) | JsNumber S754_nan => false
  | JsNumber _ => true
  | JsString s => negb (String.eqb s EmptyString)
  | JsObject _ | JsFunction _ => true
  end.

Fixpoint lookup (key : string) (fields : list (string * json)) : json :=
  match fields with
  | [] => JsUndefined
  | (k, v) :: rest => if String.eqb k key then v else lookup key rest
  end.

(** [v.key], and [v?.key], for the keys the code reads ([result],
    [access_token], [token], [data], [isAuthenticated], [user], [sub],
    [expires_at], [expires_in]): the property of an object; on a string,
    [sub] is the method [String.prototype.sub] and the others are
    [undefined]; [undefined] on any other value.  The code reads with a
    plain [.] only from a value it has tested, except where noted. *)
Definition get (key : string) (v : json) : json :=
  match v with
  | JsObject fields => lookup key fields
  | JsString _ => if String.eqb key "sub" then JsFunction "sub" else JsUndefined
  | _ => JsUndefined
  end.

(** [a || b] *)
Definition js_or (a b : json) : json := if truthy a then a else b.

Definition is_string (v : json) : bool :=
  match v with JsString _ => true | _ => false end.

(** [typeof v] *)
Definition typeof (v : json) : string :=
  match v with
  | JsUndefined => "undefined"
  | JsNull | JsObject _ => "object"
  | JsFunction _ => "function"
  | JsBool _ => "boolean"
  | JsNumber _ => "number"
  | JsString _ => "string"
  end.

(** ** The authentication hook ([hooks/useAuth]) *)

Definition getAccessToken (authData : json) : json :=
  if negb (truthy authData) then JsNull
  else
    let nested := get "access_token" (get "access_token" (get "result" authData)) in
    if truthy (get "result" authData)
       && truthy (get "access_token" (get "result" authData))
       && truthy nested
    then nested                                            (* Tapis v3 structure *)
    else if truthy (get "access_token" authData) && is_string (get "access_token" authData)
    then get "access_token" authData
    else if truthy (get "access_token" authData)
            && truthy (get "access_token" (get "access_token" authData))
    then get "access_token" (get "access_token" authData)
    else js_or (get "token" authData) JsNull.

Record auth_info := {
  isAuthenticated : json;
  token : json;
  auth_user : json;
  expires_at : json;
  expires_in : json
}.

(** The initial state of [useAuth]. *)
Definition initial_auth : auth_info :=
  {| isAuthenticated := JsBool false; token := JsNull; auth_user := JsNull;
     expires_at := JsNull; expires_in := JsNull |}.

(** [handleAuthChange] of [useAuth]: the state it sets.  Reading a property
    of [null] or [undefined] throws. *)
Definition handleAuthChange (newAuthInfo : json) : option auth_info :=
  match newAuthInfo with
  | JsUndefined | JsNull => None
  | _ =>
      let payload := get "access_token" (get "result" newAuthInfo) in
      Some {| isAuthenticated := js_or (get "isAuthenticated" newAuthInfo) (JsBool false);
              token := getAccessToken newAuthInfo;
              auth_user := js_or (get "user" newAuthInfo) (js_or (get "sub" payload) JsNull);
              expires_at := js_or (get "expires_at" payload) JsNull;
              expires_in := js_or (get "expires_in" payload) JsNull |}
  end.

(** ** The login form (the [Header] component) *)

Record credentials := { username : string; password : string; baseUrl : string }.

Record header_state := {
  hd_isAuthenticated : bool;
  isLoading : bool;
  hd_user : json;
  showLoginForm : bool;
  hd_credentials : credentials;
  hd_error : option string
}.

(** How the token request ends: the fetch, or the reading of the
    response's text, rejects; or a response arrives with its status, its
    text, and what [JSON.parse] makes of the text ([None] when it
    throws). *)
Inductive login_outcome :=
| LoginRejected (message : string)
| LoginResponse (ok : bool) (status : Z) (responseText : string) (parsed : option json).

(** The probing of the response for the access token. *)
Definition extract_token (authResult : json) : json :=
  if truthy (get "access_token" authResult) then get "access_token" authResult
  else if truthy (get "result" authResult)
          && truthy (get "access_token" (get "result" authResult))
  then get "access_token" (get "result" authResult)
  else if truthy (get "data" authResult)
          && truthy (get "access_token" (get "data" authResult))
  then get "access_token" (get "data" authResult)
  else JsNull.

Definition clear_password (c : credentials) : credentials :=
  {| username := username c; password := EmptyString; baseUrl := baseUrl c |}.

(** [err.message || 'Authentication failed. Please check your credentials.'] *)
Definition login_error_text (message : string) : string :=
  if String.eqb message EmptyString
  then "Authentication failed. Please check your credentials."
  else message.

Section Header.

(** The message of the [TypeError] the host throws when
    [authResult.access_token] is read from [null]. *)
Variable TypeError_message : string.

(** [handleLogin] up to the awaited request. *)
Definition handleLogin_begin (st : header_state) : header_state :=
  {| hd_isAuthenticated := hd_isAuthenticated st; isLoading := true;
     hd_user := hd_user st; showLoginForm := showLoginForm st;
     hd_credentials := hd_credentials st; hd_error := None |}.

(** The body of the [try] of [handleLogin] once the request has ended:
    it throws, or yields the response and the token found in it. *)
Definition login_attempt (o : login_outcome) : result (json * json) :=
  match o with
  | LoginRejected m => Throw m
  | LoginResponse false status responseText _ =>
      Throw ("Authentication failed: " ++ digits_of status ++ " - " ++ responseText)
  | LoginResponse true _ _ None =>
      Throw "Invalid response format from authentication server"
  | LoginResponse true _ _ (Some JsNull)
  | LoginResponse true _ _ (Some JsUndefined) => Throw TypeError_message
  | LoginResponse true _ _ (Some authResult) =>
      let accessToken := extract_token authResult in
      if truthy accessToken then Return (authResult, accessToken)
      else Throw "Authentication failed - no access token received"
  end.

(** [handleLogin] from the end of the request on, with the credentials the
    handler closed over: the new state and what is passed to
    [onAuthChange], if anything.  (The writes to [localStorage], which
    nothing reads back, are left out.) *)
Definition handleLogin_resume (closed : credentials) (o : login_outcome)
           (st : header_state) : header_state * option json :=
  match login_attempt o with
  | Return (authResult, accessToken) =>
      let userData := JsObject [("username", JsString (username closed));
                                ("baseUrl", JsString (baseUrl closed));
                                ("tokenInfo", authResult)] in
      ({| hd_isAuthenticated := true; isLoading := false; hd_user := userData;
          showLoginForm := false; hd_credentials := clear_password closed;
          hd_error := hd_error st |},
       Some (JsObject [("isAuthenticated", JsBool true); ("token", accessToken);
                       ("user", userData)]))
  | Throw message =>
      ({| hd_isAuthenticated := hd_isAuthenticated st; isLoading := false;
          hd_user := hd_user st; showLoginForm := showLoginForm st;
          hd_credentials := hd_credentials st;
          hd_error := Some (login_error_text message) |},
       None)
  end.

End Header.

(** [handleLogout]: the new state and what is passed to [onAuthChange]. *)
Definition handleLogout (st : header_state) : header_state * json :=
  ({| hd_isAuthenticated := false; isLoading := isLoading st; hd_user := JsNull;
      showLoginForm := false; hd_credentials := clear_password (hd_credentials st);
      hd_error := None |},
   JsObject [("isAuthenticated", JsBool false); ("token", JsNull); ("user", JsNull)]).

(** ** The catalogue query ([fetchDatasetInfo]) *)

(** How the catalogue request ends: the fetch, the parsing of the body or
    the reading of a body that is no object throws; the response is not
    ok; or a body arrives with the truth of its [success], its
    [error?.message] (absent or a string) and its [result]. *)
Inductive catalog_outcome :=
| CatRejected (message : string)
| CatNotOk (status : Z) (statusText : string)
| CatBody (success : bool) (error_message : option string) (data_result : maybe dataset).

(** The part of [fetchDatasetInfo] after the request, common to the
    component and the hook, which differ in the fallback message. *)
Definition dataset_of_response (fallback : string) (o : catalog_outcome)
  : result (maybe dataset) :=
  match o with
  | CatRejected m => Throw m
  | CatNotOk status statusText =>
      Throw ("Failed to fetch dataset info: " ++ digits_of status ++ " " ++ statusText)
  | CatBody false error_message _ =>
      Throw (match error_message with
             | Some m => if String.eqb m EmptyString then fallback else m
             | None => fallback
             end)
  | CatBody true _ data_result => Return data_result
  end.

(** [fetchDatasetInfo] of the map component. *)
Definition fetchDatasetInfo (o : catalog_outcome) : result (maybe dataset) :=
  dataset_of_response "API request was not successful" o.

(** [fetchDatasetInfo(token)] of the hook. *)
Definition fetchDatasetInfo_with_token (tok : json) (o : catalog_outcome)
  : result (maybe dataset) :=
  if negb (truthy tok) || negb (is_string tok)
  then Throw ("Invalid token: expected string, got " ++ typeof tok)
  else dataset_of_response "CKAN API request was not successful" o.

(** ** Start-up of the map component ([loadDatasetInfo]) *)

Section Startup.

Variable raster : Type.
Variable layer : Type.
Variable GeoRasterLayer : raster -> option layer.

(** The component's state with the [datasetInfo] state variable. *)
Record component := {
  comp : state raster layer;
  datasetInfo : maybe dataset
}.

Definition setAvailableRasters (l : list resource) (st : state raster layer)
  : state raster layer :=
  {| loading := loading st; error := error st; tiffData := tiffData st;
     availableRasters := l; selectedRaster := selectedRaster st;
     map_mounted := map_mounted st; currentLayer := currentLayer st;
     pending := pending st |}.

(** [loadDatasetInfo] up to the awaited catalogue request. *)
Definition loadDatasetInfo_begin (a : component) : component :=
  {| comp := setError None (setLoading true (comp a)); datasetInfo := datasetInfo a |}.

(** [loadDatasetInfo] from the end of the request on: the updates of the
    [try], the [catch] and the [finally].  (The effect on [selectedRaster]
    that a later render runs is [loadTiffData_begin].) *)
Definition loadDatasetInfo_resume (o : catalog_outcome) (a : component) : component :=
  match fetchDatasetInfo o with
  | Throw message =>
      {| comp := setLoading false (setError (Some message) (comp a));
         datasetInfo := datasetInfo a |}
  | Return ds =>
      match getAllTiffResources ds with
      | Throw message =>
          {| comp := setLoading false (setError (Some message) (comp a));
             datasetInfo := ds |}
      | Return tiffResources =>
          let st := setAvailableRasters tiffResources (comp a) in
          {| comp :=
               match tiffResources with
               | first :: _ => setLoading false (setSelectedRaster (Some first) st)
               | [] => setLoading false st
               end;
             datasetInfo := ds |}
      end
  end.

End Startup.

Arguments comp {raster layer} _.
Arguments datasetInfo {raster layer} _.
Arguments setAvailableRasters {raster layer} l st.
Arguments loadDatasetInfo_begin {raster layer} a.
Arguments loadDatasetInfo_resume {raster layer} o a.

(** ** Interaction through the drop-down *)

(** What the user and the network can do once the catalogue is loaded: a
    change of the drop-down, and the settling of a load; the latter only
    while a load is outstanding. *)
Inductive ui_event (raster : Type) :=
| Change (rasterId : string)
| Settled (r : resource) (o : outcome raster).
Arguments Change {raster} rasterId.
Arguments Settled {raster} r o.

Definition ui_step {raster layer : Type} (GeoRasterLayer : raster -> option layer)
           (st : state raster layer) (ev : ui_event raster) : state raster layer :=
  match ev with
  | Change rasterId => user_change rasterId st
  | Settled r o =>
      match pending st with
      | O => st
      | S _ => step GeoRasterLayer st (Settle r o)
      end
  end.

(** At most one load is outstanding, and the loading flag tells whether
    one is. *)
Definition one_load {raster layer : Type} (st : state raster layer) : Prop :=
  (pending st = 0%nat /\ loading st = false) \/ (pending st = 1%nat /\ loading st = true).

(** The component with the loads it has started and that have not
    settled, oldest first: for each, the raster it was started for. *)
Record session (raster layer : Type) := {
  view : state raster layer;
  in_flight : list resource
}.
Arguments view {raster layer} _.
Arguments in_flight {raster layer} _.

(** The user chooses an entry of the drop-down; the load at position [k]
    of those in flight settles.  Loads settle in any order. *)
Inductive session_event (raster : Type) :=
| Choose (rasterId : string)
| Finish (k : nat) (o : outcome raster).
Arguments Choose {raster} rasterId.
Arguments Finish {raster} k o.

Definition session_step {raster layer : Type} (GeoRasterLayer : raster -> option layer)
           (s : session raster layer) (ev : session_event raster) : session raster layer :=
  match ev with
  | Choose rasterId =>
      let st' := user_change rasterId (view s) in
      {| view := st';
         in_flight :=
           if (pending (view s) <? pending st')%nat
           then in_flight s ++ match selectedRaster st' with
                               | Some r => [r]
                               | None => []
                               end
           else in_flight s |}
  | Finish k o =>
      match nth_error (in_flight s) k with
      | Some r =>
          {| view := step GeoRasterLayer (view s) (Settle r o);
             in_flight := firstn k (in_flight s) ++ skipn (S k) (in_flight s) |}
      | None => s
      end
  end.

(** ** The raster hook ([hooks/useTiffData]) *)

Section Hook.

Variable raster : Type.

(** The bounding box a decoded raster carries ([georaster.xmin], ...). *)
Variable raster_bounds : raster -> bounds.

Record hook_tiff := {
  hk_georaster : raster;
  hk_info : tiff_info;
  hk_bounds : display_bounds
}.

Record hook_state := {
  hk_loading : bool;
  hk_error : option string;
  hk_tiffData : option hook_tiff;
  hk_datasetInfo : maybe dataset
}.

(** The token test of [loadTiffData]:
    [!actualToken || typeof actualToken !== 'string']. *)
Definition valid_token (tok : json) : bool := truthy tok && is_string tok.

(** [loadTiffData] of the hook up to its first [await]: the new state, and
    whether a load was started. *)
Definition hook_load_begin (authInfo : auth_info) (st : hook_state) : hook_state * bool :=
  if negb (truthy (isAuthenticated authInfo)) then
    ({| hk_loading := hk_loading st;
        hk_error := Some "Please log in to access the Gulf Coast InSAR TIFF data";
        hk_tiffData := hk_tiffData st; hk_datasetInfo := hk_datasetInfo st |}, false)
  else if negb (valid_token (token authInfo)) then
    ({| hk_loading := hk_loading st; hk_error := Some "Invalid authentication token";
        hk_tiffData := hk_tiffData st; hk_datasetInfo := hk_datasetInfo st |}, false)
  else
    ({| hk_loading := true; hk_error := None;
        hk_tiffData := hk_tiffData st; hk_datasetInfo := hk_datasetInfo st |}, true).

(** [loadTiffData] of the hook once started, given how the catalogue
    request and the raster request end: the [try], the [catch] and the
    [finally]. *)
Definition hook_load_resume (authInfo : auth_info) (co : catalog_outcome)
           (ro : outcome raster) (st : hook_state) : hook_state :=
  match fetchDatasetInfo_with_token (token authInfo) co with
  | Throw message =>
      {| hk_loading := false; hk_error := Some message;
         hk_tiffData := hk_tiffData st; hk_datasetInfo := hk_datasetInfo st |}
  | Return ds =>
      match getLatestTiffUrl ds with
      | Throw message =>
          {| hk_loading := false; hk_error := Some message;
             hk_tiffData := hk_tiffData st; hk_datasetInfo := ds |}
      | Return tiffInfo =>
          match fetch_and_decode ro with
          | Throw message =>
              {| hk_loading := false; hk_error := Some message;
                 hk_tiffData := hk_tiffData st; hk_datasetInfo := ds |}
          | Return g =>
              {| hk_loading := false; hk_error := hk_error st;
                 hk_tiffData := Some {| hk_georaster := g; hk_info := tiffInfo;
                                        hk_bounds := displayBounds (raster_bounds g) |};
                 hk_datasetInfo := ds |}
          end
      end
  end.

(** The condition of the effect that loads the data:
    [isAuthenticated && token && !tiffData && !loading]. *)
Definition auto_load (authInfo : auth_info) (st : hook_state) : bool :=
  truthy (isAuthenticated authInfo) && truthy (token authInfo)
  && match hk_tiffData st with None => true | Some _ => false end
  && negb (hk_loading st).

End Hook.

Arguments hk_georaster {raster} _.
Arguments hk_info {raster} _.
Arguments hk_bounds {raster} _.
Arguments hk_loading {raster} _.
Arguments hk_error {raster} _.
Arguments hk_tiffData {raster} _.
Arguments hk_datasetInfo {raster} _.
Arguments hook_load_begin {raster} authInfo st.
Arguments hook_load_resume {raster} raster_bounds authInfo co ro st.
Arguments auto_load {raster} authInfo st.

(** ** Further notions used by the properties *)

Definition byte (z : Z) : Prop := 0 <= z <= 255.

(** The bytes the canvas loop paints for a run of samples, four per
    sample. *)
Definition painted (rasters : list number) : list Z :=
  List.concat (map (fun v => canvas_rgba (PNum v)) rasters).

(** A finite number in the range where [toFixed] uses fixed notation
    (below 10^21 in magnitude). *)
Definition fixed_notation (x : number) : bool :=
  match x with
  | S754_zero _ => true
  | S754_finite _ m e =>
      negb (if 0 <=? e then 10 ^ 21 <=? Zpos m * 2 ^ e
            else 10 ^ 21 * 2 ^ (- e) <=? Zpos m)
  | _ => false
  end.

(** A string of decimal digits. *)
Fixpoint all_digits (s : string) : bool :=
  match s with
  | EmptyString => true
  | String c r =>
      match digit_val c with
      | Some _ => all_digits r
      | None => false
      end
  end.

Local Close Scope string_scope.

(** * Properties *)

(** ** Binary64 arithmetic *)

(** *** Binary digits *)

Lemma digits2_size (m : positive) : digits2_pos m = Pos.size m.
Proof. induction m; simpl; congruence. Qed.

Lemma digits_bounds (m : positive) :
  2 ^ (Zpos (digits2_pos m) - 1) <= Zpos m < 2 ^ Zpos (digits2_pos m).
Proof.
  rewrite digits2_size. split.
  - pose proof (Pos.size_le m) as H.
    assert (H' : 2 ^ Zpos (Pos.size m) <= 2 * Zpos m).
    { change (2 * Zpos m) with (Zpos m~0). rewrite <- Pos2Z.inj_pow. now apply Pos2Z.pos_le_pos. }
    replace (Zpos (Pos.size m)) with (Z.succ (Zpos (Pos.size m) - 1)) in H' by lia.
    rewrite Z.pow_succ_r in H' by lia. lia.
  - pose proof (Pos.size_gt m) as H.
    rewrite <- Pos2Z.inj_pow. now apply Pos2Z.pos_lt_pos.
Qed.

Lemma pow2_pos (k : Z) : 0 <= k -> 0 < 2 ^ k.
Proof. intros. apply Z.pow_pos_nonneg; lia. Qed.

Lemma pow2_le (a b : Z) : 0 <= a <= b -> 2 ^ a <= 2 ^ b.
Proof. intros. apply Z.pow_le_mono_r; lia. Qed.

Lemma pow2_lt (a b : Z) : 0 <= a < b -> 2 ^ a < 2 ^ b.
Proof. intros. apply Z.pow_lt_mono_r; lia. Qed.

(** A positive number between two consecutive powers of two has as many
    digits as the upper exponent. *)
Lemma digits_unique (m : positive) (k : Z) :
  2 ^ (k - 1) <= Zpos m < 2 ^ k -> Zpos (digits2_pos m) = k.
Proof.
  intros [Hl Hu]. pose proof (digits_bounds m) as [Dl Du].
  set (d := Zpos (digits2_pos m)) in *.
  assert (0 < d) by (unfold d; lia).
  assert (Hk : 0 < k).
  { destruct (Z_lt_le_dec 0 k); [assumption |].
    destruct (Z.eq_dec k 0) as [-> | ]; [simpl in Hu; lia |].
    rewrite Z.pow_neg_r in Hu by lia. lia. }
  destruct (Z_lt_le_dec d k) as [Hlt | Hge].
  - assert (2 ^ d <= 2 ^ (k - 1)) by (apply pow2_le; lia). lia.
  - destruct (Z_lt_le_dec k d) as [Hlt | Hge'].
    + assert (2 ^ k <= 2 ^ (d - 1)) by (apply pow2_le; lia). lia.
    + lia.
Qed.

(** *** Right shifts with round and sticky bits *)

Lemma iter_pos_nat {A : Type} (f : A -> A) (p : positive) (x : A) :
  iter_pos f p x = Nat.iter (Pos.to_nat p) f x.
Proof.
  revert x. induction p as [p IH | p IH |]; intros x; cbn [iter_pos].
  - rewrite !IH, Pos2Nat.inj_xI.
    replace (S (2 * Pos.to_nat p)) with (S (Pos.to_nat p + Pos.to_nat p)) by lia.
    now rewrite Nat.iter_succ_r, Nat.iter_add.
  - rewrite !IH, Pos2Nat.inj_xO.
    replace (2 * Pos.to_nat p)%nat with (Pos.to_nat p + Pos.to_nat p)%nat by lia.
    now rewrite Nat.iter_add.
  - reflexivity.
Qed.

Lemma shr_1_spec (mrs : shr_record) :
  0 <= shr_m mrs ->
  shr_1 mrs = {| shr_m := shr_m mrs / 2;
                 shr_r := Z.odd (shr_m mrs);
                 shr_s := shr_r mrs || shr_s mrs |}.
Proof.
  destruct mrs as [m r s]; simpl. intros Hm.
  rewrite <- Z.div2_div.
  destruct m as [| [p | p |] |]; try reflexivity. lia.
Qed.

Lemma shr_iter_m (n : nat) (mrs : shr_record) :
  0 <= shr_m mrs ->
  shr_m (Nat.iter n shr_1 mrs) = shr_m mrs / 2 ^ Z.of_nat n.
Proof.
  revert mrs. induction n as [| n IH]; intros mrs Hm.
  - simpl. now rewrite Z.div_1_r.
  - rewrite Nat.iter_succ_r, IH.
    + rewrite shr_1_spec by assumption. simpl shr_m.
      rewrite Nat2Z.inj_succ, Z.pow_succ_r by lia.
      rewrite Z.div_div by (try apply Z.pow_pos_nonneg; lia). reflexivity.
    + rewrite shr_1_spec by assumption. simpl. apply Z.div_pos; lia.
Qed.

(** Shifting out only zero bits of an exact value leaves it exact. *)
Lemma shr_iter_exact (n : nat) (mrs : shr_record) :
  0 <= shr_m mrs -> shr_r mrs = false -> shr_s mrs = false ->
  shr_m mrs mod 2 ^ Z.of_nat n = 0 ->
  shr_r (Nat.iter n shr_1 mrs) = false /\ shr_s (Nat.iter n shr_1 mrs) = false.
Proof.
  revert mrs. induction n as [| n IH]; intros mrs Hm Hr Hs Hmod.
  - simpl. now split.
  - rewrite Nat.iter_succ_r. rewrite shr_1_spec by assumption.
    rewrite Nat2Z.inj_succ, Z.pow_succ_r in Hmod by lia.
    assert (Hp : 0 < 2 ^ Z.of_nat n) by (apply Z.pow_pos_nonneg; lia).
    rewrite Z.rem_mul_r in Hmod by lia.
    assert (H2 : 0 <= shr_m mrs mod 2 < 2) by (apply Z.mod_pos_bound; lia).
    assert (Hn : 0 <= (shr_m mrs / 2) mod 2 ^ Z.of_nat n) by (apply Z.mod_pos_bound; lia).
    assert (H0 : shr_m mrs mod 2 = 0) by nia.
    assert (H1 : (shr_m mrs / 2) mod 2 ^ Z.of_nat n = 0) by nia.
    apply IH; simpl.
    + apply Z.div_pos; lia.
    + rewrite Zodd_mod, H0. reflexivity.
    + now rewrite Hr, Hs.
    + exact H1.
Qed.

(** What [shr] does to a non-negative mantissa: the shift count is
    [Z.max n 0]. *)
Lemma shr_spec (mrs : shr_record) (e n : Z) :
  0 <= shr_m mrs ->
  let k := Z.max n 0 in
  snd (shr mrs e n) = e + k /\
  shr_m (fst (shr mrs e n)) = shr_m mrs / 2 ^ k /\
  (shr_r mrs = false -> shr_s mrs = false -> shr_m mrs mod 2 ^ k = 0 ->
   loc_of_shr_record (fst (shr mrs e n)) = loc_Exact).
Proof.
  intros Hm k. unfold shr. destruct n as [| p | p]; simpl fst; simpl snd.
  - subst k. simpl Z.max. rewrite Z.add_0_r, Z.div_1_r. repeat split.
    intros Hr Hs _. destruct mrs as [m r s]; simpl in *. now subst.
  - assert (Hk : k = Z.of_nat (Pos.to_nat p)) by (subst k; lia).
    rewrite iter_pos_nat, Hk. split; [lia | split].
    + now apply shr_iter_m.
    + intros Hr Hs Hmod.
      destruct (shr_iter_exact _ _ Hm Hr Hs Hmod) as [Hr' Hs'].
      destruct (Nat.iter (Pos.to_nat p) shr_1 mrs) as [m' r' s']; simpl in *.
      now subst.
  - assert (Hk : k = 0) by (subst k; lia). rewrite Hk, Z.add_0_r, Z.div_1_r. repeat split.
    intros Hr Hs _. destruct mrs as [m r s]; simpl in *. now subst.
Qed.

Lemma round_nearest_even_bounds (m : Z) (l : location) :
  (round_nearest_even m l = m \/ round_nearest_even m l = m + 1) /\
  (l = loc_Exact -> round_nearest_even m l = m).
Proof.
  split.
  - destruct l as [| []]; simpl; auto. destruct (Z.even m); auto.
  - intros ->. reflexivity.
Qed.

(** *** Rounding *)


Lemma fexp64_eq (e : Z) : fexp64 e = Z.max (e - 53) (-1074).
Proof. reflexivity. Qed.

Lemma Zdigits2_bounds (m : Z) :
  0 < m -> 2 ^ (Zdigits2 m - 1) <= m < 2 ^ Zdigits2 m.
Proof. destruct m; try lia. intros _. apply digits_bounds. Qed.

Lemma Zdigits2_pos (m : Z) : 0 < m -> 0 < Zdigits2 m.
Proof. destruct m; simpl; lia. Qed.

Lemma shr_fexp_spec (m e : Z) (l : location) :
  0 <= m ->
  let n := Z.max (fexp64 (Zdigits2 m + e) - e) 0 in
  snd (shr_fexp prec emax m e l) = e + n /\
  shr_m (fst (shr_fexp prec emax m e l)) = m / 2 ^ n /\
  (l = loc_Exact -> m mod 2 ^ n = 0 ->
   loc_of_shr_record (fst (shr_fexp prec emax m e l)) = loc_Exact).
Proof.
  intros Hm n. unfold shr_fexp.
  assert (Hrec : shr_m (shr_record_of_loc m l) = m) by (destruct l as [| []]; reflexivity).
  pose proof (shr_spec (shr_record_of_loc m l) e (fexp64 (Zdigits2 m + e) - e)) as H.
  rewrite Hrec in H. specialize (H Hm). cbv zeta in H. fold n in H.
  destruct H as (H1 & H2 & H3). repeat split; try assumption.
  intros -> Hmod. apply H3; auto.
Qed.

(** A canonical mantissa has at most 53 bits. *)
Lemma bounded_lt (m : positive) (e : Z) :
  bounded prec emax m e = true ->
  Zpos m < 2 ^ 53 /\ -1074 <= e <= 971 /\
  (e = -1074 \/ 2 ^ 52 <= Zpos m).
Proof.
  unfold bounded, canonical_mantissa. rewrite andb_true_iff, Z.eqb_eq, Z.leb_le.
  rewrite fexp64_eq. unfold emax, prec. intros [Hc He].
  pose proof (digits_bounds m) as [Dl Du].
  set (d := Zpos (digits2_pos m)) in *.
  assert (Hd : d <= 53) by lia.
  split; [| split; [lia |]].
  - assert (2 ^ d <= 2 ^ 53) by (apply pow2_le; unfold d; lia). lia.
  - destruct (Z.eq_dec e (-1074)) as [| Hne]; [now left | right].
    assert (d = 53) by lia.
    replace 52 with (d - 1) by lia. exact Dl.
Qed.

Lemma bounded_intro (m : positive) (e : Z) :
  -1074 <= e <= 971 -> Zpos m < 2 ^ 53 -> (e = -1074 \/ 2 ^ 52 <= Zpos m) ->
  bounded prec emax m e = true.
Proof.
  intros He Hm Hn.
  unfold bounded, canonical_mantissa. rewrite andb_true_iff, Z.eqb_eq, Z.leb_le.
  rewrite fexp64_eq. unfold emax, prec. split; [| lia].
  pose proof (digits_bounds m) as [Dl Du].
  set (d := Zpos (digits2_pos m)) in *.
  assert (Hd : d <= 53).
  { destruct (Z_lt_le_dec 53 d); [| assumption].
    assert (2 ^ 53 <= 2 ^ (d - 1)) by (apply pow2_le; lia). lia. }
  destruct Hn as [-> | Hn]; [lia |].
  assert (53 <= d).
  { destruct (Z_lt_le_dec d 53); [| assumption].
    assert (2 ^ d <= 2 ^ 52) by (apply pow2_le; unfold d; lia). lia. }
  lia.
Qed.

(** Rounding (to nearest, ties to even) of a non-negative quantity that
    does not exceed a representable bound [Mb * 2^Eb] gives zero or a
    canonical number that does not exceed the bound.  The quantity is
    given by its integer part [mx] at exponent [ex] and the location [lx]
    of the remainder. *)
Lemma round_aux_le (sx : bool) (mx ex : Z) (lx : location) (Mb : positive) (Eb : Z) :
  0 <= mx ->
  ex <= fexp64 (Zdigits2 mx + ex) ->
  bounded prec emax Mb Eb = true ->
  ex <= Eb ->
  (mx < Zpos Mb * 2 ^ (Eb - ex) \/ (mx = Zpos Mb * 2 ^ (Eb - ex) /\ lx = loc_Exact)) ->
  binary_round_aux prec emax sx mx ex lx = S754_zero sx \/
  exists m e,
    binary_round_aux prec emax sx mx ex lx = S754_finite sx m e /\
    bounded prec emax m e = true /\ e <= Eb /\ Zpos m <= Zpos Mb * 2 ^ (Eb - e).
Proof.
  intros Hmx Hprec HB HE Hle.
  destruct (bounded_lt _ _ HB) as (HMb & HEb & _).
  pose proof (shr_fexp_spec mx ex lx Hmx) as S. cbv zeta in S.
  set (d := Zdigits2 mx) in *.
  set (e1 := fexp64 (d + ex)) in *.
  assert (He1 : e1 = Z.max (d + ex - 53) (-1074)) by (unfold e1; apply fexp64_eq).
  replace (Z.max (e1 - ex) 0) with (e1 - ex) in S by lia.
  set (n := e1 - ex) in *.
  assert (Hn0 : 0 <= n) by (unfold n; lia).
  assert (P2n : 0 < 2 ^ n) by (apply pow2_pos; lia).
  unfold binary_round_aux.
  destruct (shr_fexp prec emax mx ex lx) as [mrs1 e1'] eqn:E1.
  simpl fst in S; simpl snd in S. destruct S as (S1 & S2 & S3).
  replace (ex + n) with e1 in S1 by (unfold n; lia). subst e1'.
  set (m1 := shr_m mrs1) in *.
  set (l1 := loc_of_shr_record mrs1) in *.
  assert (Hm1 : 0 <= m1) by (rewrite S2; apply Z.div_pos; lia).
  assert (Hdiv1 : m1 * 2 ^ n <= mx) by (rewrite S2, Z.mul_comm; apply Z.mul_div_le; lia).
  assert (Hdiv2 : mx < (m1 + 1) * 2 ^ n).
  { rewrite S2. rewrite (Z.mul_comm _ (2 ^ n)).
    replace (mx / 2 ^ n + 1) with (Z.succ (mx / 2 ^ n)) by lia.
    apply Z.mul_succ_div_gt; lia. }
  (* the rounded exponent does not pass the bound's *)
  assert (HA : e1 <= Eb).
  { destruct (Z_le_gt_dec e1 Eb) as [| Hgt]; [assumption | exfalso].
    assert (Hd : e1 = d + ex - 53) by lia.
    assert (Hmx0 : 0 < mx).
    { destruct (Z.eq_dec mx 0) as [H0 | ]; [| lia].
      unfold d in Hd. rewrite H0 in Hd. simpl in Hd. lia. }
    pose proof (Zdigits2_bounds mx Hmx0) as [Dl _]. fold d in Dl.
    assert (2 ^ (Eb - ex + 53) <= 2 ^ (d - 1)) by (apply pow2_le; lia).
    rewrite Z.pow_add_r in H by lia.
    assert (0 < 2 ^ (Eb - ex)) by (apply pow2_pos; lia).
    nia. }
  set (T' := Zpos Mb * 2 ^ (Eb - e1)).
  assert (HT : Zpos Mb * 2 ^ (Eb - ex) = T' * 2 ^ n).
  { unfold T'. replace (Eb - ex) with (Eb - e1 + n) by (unfold n; lia).
    rewrite Z.pow_add_r by lia. ring. }
  rewrite HT in Hle.
  set (m2 := round_nearest_even m1 l1).
  assert (HB2 : m2 <= T').
  { destruct (round_nearest_even_bounds m1 l1) as [[R | R] Rex]; fold m2 in R, Rex.
    - rewrite R. destruct Hle as [Hlt | [Heq _]]; nia.
    - rewrite R. destruct Hle as [Hlt | [Heq Hex]]; [nia |].
      assert (Hmod : mx mod 2 ^ n = 0).
      { rewrite Heq. apply Z.mod_mul. lia. }
      specialize (S3 Hex Hmod). fold l1 in S3. specialize (Rex S3). lia. }
  assert (HD : m1 < 2 ^ 53 /\ (e1 = -1074 \/ 2 ^ 52 <= m1)).
  { destruct (Z.eq_dec mx 0) as [H0 | Hne].
    - assert (m1 = 0) by (rewrite S2, H0; apply Z.div_0_l; lia).
      unfold d in He1. rewrite H0 in He1. simpl in He1.
      split; [lia | left; lia].
    - assert (Hmx0 : 0 < mx) by lia.
      pose proof (Zdigits2_bounds mx Hmx0) as [Dl Du]. fold d in Dl, Du.
      pose proof (Zdigits2_pos mx Hmx0) as Dp. fold d in Dp.
      split.
      + rewrite S2. apply Z.div_lt_upper_bound; [lia |].
        assert (2 ^ d <= 2 ^ (n + 53)) by (apply pow2_le; unfold n; lia).
        rewrite Z.pow_add_r in H by lia. lia.
      + destruct (Z.eq_dec e1 (-1074)) as [| Hne1]; [now left | right].
        assert (Hd : d = n + 53) by (unfold n; lia).
        rewrite S2. apply Z.div_le_lower_bound; [lia |].
        replace (d - 1) with (n + 52) in Dl by lia.
        rewrite Z.pow_add_r in Dl by lia. lia. }
  destruct HD as [HD1 HD2].
  assert (Hm2 : m2 = m1 \/ m2 = m1 + 1) by apply round_nearest_even_bounds.
  pose proof (shr_fexp_spec m2 e1 loc_Exact) as S'. cbv zeta in S'.
  destruct (shr_fexp prec emax m2 e1 loc_Exact) as [mrs3 e3] eqn:E3.
  simpl fst in S'; simpl snd in S'.
  destruct S' as (S1' & S2' & _); [lia |].
  rewrite fexp64_eq in S1', S2'.
  destruct (Z.eq_dec m2 0) as [Hz | Hnz].
  - left. rewrite S2', Hz, Z.div_0_l by (apply Z.pow_nonzero; lia). reflexivity.
  - right. assert (Hm2p : 0 < m2) by lia.
    pose proof (Zdigits2_bounds m2 Hm2p) as [Dl Du].
    pose proof (Zdigits2_pos m2 Hm2p) as Dp.
    set (d2 := Zdigits2 m2) in *.
    destruct (Z_lt_le_dec m2 (2 ^ 53)) as [Hlt | Hge].
    + assert (Hd2 : d2 <= 53).
      { destruct (Z_lt_le_dec 53 d2); [| assumption].
        assert (2 ^ 53 <= 2 ^ (d2 - 1)) by (apply pow2_le; lia). lia. }
      replace (Z.max (Z.max (d2 + e1 - 53) (-1074) - e1) 0) with 0 in S1', S2' by lia.
      rewrite Z.div_1_r in S2'. rewrite Z.add_0_r in S1'. subst e3.
      rewrite S2'. destruct m2 as [| p | p]; try lia.
      exists p, e1. unfold emax, prec.
      replace (e1 <=? 1024 - 53) with true by (symmetry; apply Z.leb_le; lia).
      split; [reflexivity | split; [| split; [assumption | exact HB2]]].
      apply bounded_intro; [lia | assumption | lia].
    + assert (Hm21 : m2 = 2 ^ 53) by lia.
      assert (Hd2 : d2 = 54).
      { destruct m2 as [| p | p]; try lia. unfold d2. simpl Zdigits2.
        apply digits_unique. rewrite Hm21. simpl. lia. }
      replace (Z.max (Z.max (d2 + e1 - 53) (-1074) - e1) 0) with 1 in S1', S2' by lia.
      subst e3. rewrite S2', Hm21.
      change (2 ^ 53 / 2 ^ 1) with (Zpos 4503599627370496).
      assert (HEb1 : e1 + 1 <= Eb).
      { destruct (Z_le_gt_dec (e1 + 1) Eb); [assumption | exfalso].
        assert (Eb = e1) by lia. unfold T' in HB2.
        replace (Eb - e1) with 0 in HB2 by lia. simpl in HB2. lia. }
      exists 4503599627370496%positive, (e1 + 1). unfold emax, prec.
      replace (e1 + 1 <=? 1024 - 53) with true by (symmetry; apply Z.leb_le; lia).
      split; [reflexivity | split; [| split; [assumption |]]].
      * apply bounded_intro; [lia | simpl; lia | right; simpl; lia].
      * unfold T' in HB2. replace (Eb - e1) with (Eb - (e1 + 1) + 1) in HB2 by lia.
        rewrite Z.pow_add_r in HB2 by lia. change (2 ^ 1) with 2 in HB2.
        rewrite Hm21 in HB2. change (2 ^ 53) with (2 * 2 ^ 52) in HB2.
        change (Zpos 4503599627370496) with (2 ^ 52). lia.
Qed.

(** *** Alignment and normalisation *)

Lemma iter_xO (d m : positive) : Zpos (Pos.iter xO m d) = Zpos m * 2 ^ Zpos d.
Proof.
  induction d as [| d IH] using Pos.peano_ind.
  - cbn [Pos.iter]. rewrite Pos2Z.inj_xO. change (2 ^ 1) with 2. ring.
  - rewrite Pos.iter_succ, Pos2Z.inj_xO, IH, Pos2Z.inj_succ, Z.pow_succ_r by lia. ring.
Qed.

Lemma shl_align_spec (mx : positive) (ex ex' : Z) :
  let k := Z.max (ex - ex') 0 in
  Zpos (fst (shl_align mx ex ex')) = Zpos mx * 2 ^ k /\
  snd (shl_align mx ex ex') = ex - k.
Proof.
  intros k. unfold shl_align.
  destruct (ex' - ex) as [| p | p] eqn:E; simpl fst; simpl snd.
  - replace k with 0 by lia. rewrite Z.mul_1_r. lia.
  - replace k with 0 by lia. rewrite Z.mul_1_r. lia.
  - replace k with (Zpos p) by lia. rewrite iter_xO. lia.
Qed.

Lemma digits_shift (m : positive) (k : Z) (p : positive) :
  0 <= k -> Zpos p = Zpos m * 2 ^ k ->
  Zpos (digits2_pos p) = Zpos (digits2_pos m) + k.
Proof.
  intros Hk Hp. apply digits_unique. rewrite Hp.
  pose proof (digits_bounds m) as [Dl Du].
  assert (0 < 2 ^ k) by (apply pow2_pos; lia).
  replace (Zpos (digits2_pos m) + k - 1) with (Zpos (digits2_pos m) - 1 + k) by lia.
  rewrite !Z.pow_add_r by lia. nia.
Qed.

Lemma binary_round_le (sx : bool) (mx : positive) (ex : Z) (Mb : positive) (Eb : Z) :
  bounded prec emax Mb Eb = true ->
  ex <= Eb ->
  Zpos mx <= Zpos Mb * 2 ^ (Eb - ex) ->
  binary_round prec emax sx mx ex = S754_zero sx \/
  exists m e,
    binary_round prec emax sx mx ex = S754_finite sx m e /\
    bounded prec emax m e = true /\ e <= Eb /\ Zpos m <= Zpos Mb * 2 ^ (Eb - e).
Proof.
  intros HB HE Hle. unfold binary_round.
  set (f := fexp64 (Zpos (digits2_pos mx) + ex)).
  destruct (shl_align_spec mx ex f) as [A1 A2].
  destruct (shl_align mx ex f) as [mz ez]. simpl fst in A1; simpl snd in A2.
  set (k := Z.max (ex - f) 0) in *.
  assert (Hk : 0 <= k) by lia.
  assert (P2k : 0 < 2 ^ k) by (apply pow2_pos; lia).
  apply round_aux_le; try assumption; try lia.
  - simpl Zdigits2. rewrite (digits_shift mx k mz Hk A1).
    replace (Zpos (digits2_pos mx) + k + ez) with (Zpos (digits2_pos mx) + ex) by lia.
    fold f. lia.
  - assert (Zpos mz <= Zpos Mb * 2 ^ (Eb - ez)).
    { rewrite A1. replace (Eb - ez) with (Eb - ex + k) by lia.
      rewrite Z.pow_add_r by lia. nia. }
    destruct (Z.eq_dec (Zpos mz) (Zpos Mb * 2 ^ (Eb - ez))); [right | left]; auto. lia.
Qed.

Lemma normalize_le (S ex : Z) (Mb : positive) (Eb : Z) :
  bounded prec emax Mb Eb = true ->
  ex <= Eb ->
  0 <= S <= Zpos Mb * 2 ^ (Eb - ex) ->
  binary_normalize prec emax S ex false = S754_zero false \/
  exists m e,
    binary_normalize prec emax S ex false = S754_finite false m e /\
    bounded prec emax m e = true /\ e <= Eb /\ Zpos m <= Zpos Mb * 2 ^ (Eb - e).
Proof.
  intros HB HE [H0 Hle]. destruct S as [| p | p]; try lia.
  - now left.
  - unfold binary_normalize. now apply binary_round_le.
Qed.

(** *** Division *)

Lemma new_location_exact (nb_steps : Z) : new_location nb_steps 0 = loc_Exact.
Proof.
  unfold new_location, new_location_even, new_location_odd.
  destruct (Z.even nb_steps); reflexivity.
Qed.

Lemma div_core_spec (m1 : positive) (e1 : Z) (m2 : positive) (e2 : Z) :
  let e' := Z.min (fexp64 (Zpos (digits2_pos m1) + e1 - (Zpos (digits2_pos m2) + e2))) (e1 - e2) in
  let s := e1 - e2 - e' in
  let m' := Zpos m1 * 2 ^ s in
  SFdiv_core_binary prec emax (Zpos m1) e1 (Zpos m2) e2
  = (m' / Zpos m2, e', new_location (Zpos m2) (m' mod Zpos m2)).
Proof.
  intros e' s m'. unfold SFdiv_core_binary. simpl Zdigits2. fold e'. fold s.
  assert (Hs : 0 <= s) by (unfold s, e'; lia).
  assert (Hm : match s with
               | 0 => Zpos m1
               | Zpos _ => Z.shiftl (Zpos m1) s
               | Zneg _ => 0
               end = m').
  { unfold m'. destruct s as [| p | p] eqn:E.
    - rewrite Z.pow_0_r. lia.
    - rewrite Z.shiftl_mul_pow2 by lia. reflexivity.
    - lia. }
  rewrite Hm. unfold Z.div, Z.modulo.
  destruct (Z.div_eucl m' (Zpos m2)) as [q r]. reflexivity.
Qed.

(** The division of two positive numbers whose quotient does not exceed a
    representable bound gives zero or a canonical number that does not
    exceed the bound. *)
Lemma div_le (m1 : positive) (e1 : Z) (m2 : positive) (e2 : Z) (Mb : positive) (Eb : Z) :
  bounded prec emax Mb Eb = true ->
  fexp64 (Zpos (digits2_pos m1) + e1 - (Zpos (digits2_pos m2) + e2)) <= Eb ->
  (forall e', e' <= Eb -> e' <= e1 - e2 ->
              Zpos m1 * 2 ^ (e1 - e2 - e') <= Zpos m2 * (Zpos Mb * 2 ^ (Eb - e'))) ->
  SFdiv prec emax (S754_finite false m1 e1) (S754_finite false m2 e2) = S754_zero false \/
  exists m e,
    SFdiv prec emax (S754_finite false m1 e1) (S754_finite false m2 e2) = S754_finite false m e /\
    bounded prec emax m e = true /\ e <= Eb /\ Zpos m <= Zpos Mb * 2 ^ (Eb - e).
Proof.
  intros HB HE Hle. unfold SFdiv. rewrite div_core_spec. cbv zeta. simpl xorb.
  set (d1 := Zpos (digits2_pos m1)) in *. set (d2 := Zpos (digits2_pos m2)) in *.
  set (e' := Z.min (fexp64 (d1 + e1 - (d2 + e2))) (e1 - e2)).
  set (s := e1 - e2 - e').
  assert (Hs : 0 <= s) by (unfold s, e'; lia).
  assert (P2s : 0 < 2 ^ s) by (apply pow2_pos; lia).
  set (m' := Zpos m1 * 2 ^ s).
  set (q := m' / Zpos m2). set (r := m' mod Zpos m2).
  assert (Hm' : 0 < m') by (unfold m'; nia).
  assert (Hq : 0 <= q) by (unfold q; apply Z.div_pos; lia).
  assert (Hqr : m' = Zpos m2 * q + r) by (unfold q, r; apply Z.div_mod; lia).
  assert (Hr : 0 <= r < Zpos m2) by (unfold r; apply Z.mod_pos_bound; lia).
  assert (He' : e' <= Eb) by (unfold e'; lia).
  assert (Hle' : m' <= Zpos m2 * (Zpos Mb * 2 ^ (Eb - e'))).
  { unfold m', s. apply Hle; [assumption | unfold e'; lia]. }
  pose proof (digits_bounds m1) as [D1l D1u]. pose proof (digits_bounds m2) as [D2l D2u].
  fold d1 in D1l, D1u. fold d2 in D2l, D2u.
  assert (Hd1 : 0 < d1) by (unfold d1; lia). assert (Hd2 : 0 < d2) by (unfold d2; lia).
  apply round_aux_le; try assumption.
  - (* the quotient has enough digits *)
    rewrite fexp64_eq. unfold e' at 1. rewrite fexp64_eq.
    destruct (Z.eq_dec q 0) as [Hq0 | Hq0].
    + rewrite Hq0. simpl Zdigits2.
      assert (d1 + s <= d2).
      { destruct (Z_le_gt_dec (d1 + s) d2); [assumption | exfalso].
        assert (2 ^ d2 <= 2 ^ (d1 - 1 + s)) by (apply pow2_le; lia).
        rewrite Z.pow_add_r in H by lia. unfold m' in Hqr. nia. }
      unfold s in H. unfold e' in *. rewrite fexp64_eq in *. lia.
    + assert (Hqp : 0 < q) by lia.
      pose proof (Zdigits2_bounds q Hqp) as [Ql Qu]. pose proof (Zdigits2_pos q Hqp) as Qp.
      set (dq := Zdigits2 q) in *.
      assert (d1 + s - d2 <= dq).
      { destruct (Z_le_gt_dec (d1 + s - d2) dq); [assumption | exfalso].
        assert (2 ^ dq <= 2 ^ (d1 + s - d2 - 1)) by (apply pow2_le; lia).
        assert (2 ^ (d1 + s - d2 - 1) * 2 ^ d2 = 2 ^ (d1 - 1) * 2 ^ s).
        { rewrite <- !Z.pow_add_r by lia. f_equal. lia. }
        assert (0 < 2 ^ (d1 + s - d2 - 1)) by (apply pow2_pos; lia).
        unfold m' in Hqr. nia. }
      unfold s in H. unfold e' in *. rewrite fexp64_eq in *. lia.
  - assert (q <= Zpos Mb * 2 ^ (Eb - e')).
    { unfold q. apply Z.div_le_upper_bound; lia. }
    destruct (Z.eq_dec q (Zpos Mb * 2 ^ (Eb - e'))) as [Heq | Hne]; [right | left; lia].
    split; [assumption |].
    assert (r = 0) by nia. rewrite H0. apply new_location_exact.
Qed.

(** *** Multiplication and subtraction *)

Lemma digits_gt (m : positive) (k : Z) : 0 <= k -> 2 ^ k <= Zpos m -> k < Zpos (digits2_pos m).
Proof.
  intros Hk H. pose proof (digits_bounds m) as [_ Du].
  destruct (Z_lt_le_dec k (Zpos (digits2_pos m))) as [| Hge]; [assumption | exfalso].
  assert (2 ^ Zpos (digits2_pos m) <= 2 ^ k) by (apply pow2_le; lia). lia.
Qed.

Lemma mul_le (m1 : positive) (e1 : Z) (m2 : positive) (e2 : Z) (Mb : positive) (Eb : Z) :
  bounded prec emax Mb Eb = true ->
  2 ^ 52 <= Zpos m1 * Zpos m2 ->
  e1 + e2 <= Eb ->
  Zpos m1 * Zpos m2 <= Zpos Mb * 2 ^ (Eb - (e1 + e2)) ->
  SFmul prec emax (S754_finite false m1 e1) (S754_finite false m2 e2) = S754_zero false \/
  exists m e,
    SFmul prec emax (S754_finite false m1 e1) (S754_finite false m2 e2) = S754_finite false m e /\
    bounded prec emax m e = true /\ e <= Eb /\ Zpos m <= Zpos Mb * 2 ^ (Eb - e).
Proof.
  intros HB Hbig HE Hle. unfold SFmul. simpl xorb.
  apply round_aux_le; try assumption; try lia.
  - simpl Zdigits2. rewrite fexp64_eq.
    pose proof (digits_gt (m1 * m2) 52) as H. rewrite Pos2Z.inj_mul in H.
    specialize (H ltac:(lia) Hbig). lia.
  - rewrite Pos2Z.inj_mul.
    destruct (Z.eq_dec (Zpos m1 * Zpos m2) (Zpos Mb * 2 ^ (Eb - (e1 + e2)))); [right | left]; auto. lia.
Qed.

Lemma SFsub_finite (sx : bool) (mx : positive) (ex : Z) (sy : bool) (my : positive) (ey : Z) :
  SFsub prec emax (S754_finite sx mx ex) (S754_finite sy my ey)
  = binary_normalize prec emax
      (cond_Zopp sx (Zpos mx * 2 ^ (ex - Z.min ex ey))
       - cond_Zopp sy (Zpos my * 2 ^ (ey - Z.min ex ey)))
      (Z.min ex ey) false.
Proof.
  unfold SFsub.
  destruct (shl_align_spec mx ex (Z.min ex ey)) as [A1 _].
  destruct (shl_align_spec my ey (Z.min ex ey)) as [B1 _].
  rewrite A1, B1.
  replace (Z.max (ex - Z.min ex ey) 0) with (ex - Z.min ex ey) by lia.
  replace (Z.max (ey - Z.min ex ey) 0) with (ey - Z.min ex ey) by lia.
  reflexivity.
Qed.

(** *** The ramp's arithmetic *)


Lemma compare_cont_Z (a b : positive) :
  PosDef.Pos.compare_cont Eq a b = (Zpos a ?= Zpos b).
Proof. reflexivity. Qed.

Lemma in_domain_intro (c : spec_float) :
  valid_binary prec emax c = true ->
  SFleb cmin c = true -> SFleb c cmax = true -> in_domain c.
Proof.
  intros Hv Hlo Hhi. destruct c as [s | s | | s m e].
  - constructor.
  - destruct s; discriminate.
  - discriminate.
  - simpl in Hv. destruct s.
    + constructor; [assumption |].
      unfold SFleb, cmin, SFcompare in Hlo.
      destruct (Z.compare_spec (-51) e) as [E | E | E]; try discriminate; [| lia].
      right. split; [lia |].
      rewrite compare_cont_Z in Hlo.
      destruct (Z.compare_spec (Zpos 4503599627370496) (Zpos m)) as [P | P | P];
        simpl in Hlo; try discriminate; lia.
    + constructor; [assumption |].
      unfold SFleb, cmax, SFcompare in Hhi.
      destruct (Z.compare_spec e (-55)) as [E | E | E]; try discriminate; [| lia].
      right. split; [lia |].
      rewrite compare_cont_Z in Hhi.
      destruct (Z.compare_spec (Zpos m) (Zpos 7205759403792794)) as [P | P | P];
        try discriminate; lia.
Qed.

Lemma bounded_digits (m : positive) (e : Z) :
  bounded prec emax m e = true -> Zpos (digits2_pos m) <= 53.
Proof.
  unfold bounded, canonical_mantissa. rewrite andb_true_iff, Z.eqb_eq, fexp64_eq. lia.
Qed.


(** [clamped - min] is between 0 and 2.2. *)
Lemma sub_in_domain (c : spec_float) :
  in_domain c -> at_most 4953959590107546 (-51) (SFsub prec emax c cmin).
Proof.
  intros [s | m e Hb He | m e Hb He].
  - right. exists 4503599627370496%positive, (-51). repeat split.
    + destruct s; reflexivity.
    + change (2 ^ (-51 - -51)) with 1. lia.
  - unfold cmin. rewrite SFsub_finite.
    replace (Z.min e (-51)) with e by lia.
    replace (e - e) with 0 by lia. rewrite Z.pow_0_r, Z.mul_1_r.
    apply normalize_le; [reflexivity | lia |].
    destruct (bounded_lt _ _ Hb) as (Hm & _ & _). change (2 ^ 53) with 9007199254740992 in Hm.
    unfold cond_Zopp. set (P := 2 ^ (-51 - e)).
    assert (HP : (e = -51 /\ P = 1) \/ (e < -51 /\ 2 <= P)).
    { destruct He as [He | [He _]].
      - right. split; [assumption |]. change 2 with (2 ^ 1). apply pow2_le. lia.
      - left. split; [assumption |]. unfold P. rewrite He. reflexivity. }
    lia.
  - unfold cmin. rewrite SFsub_finite.
    replace (Z.min e (-51)) with e by lia.
    replace (e - e) with 0 by lia. rewrite Z.pow_0_r, Z.mul_1_r.
    apply normalize_le; [reflexivity | lia |].
    destruct (bounded_lt _ _ Hb) as (Hm & _ & _). change (2 ^ 53) with 9007199254740992 in Hm.
    unfold cond_Zopp. set (P := 2 ^ (-51 - e)).
    assert (HP : (e = -55 /\ P = 16) \/ (e < -55 /\ 32 <= P)).
    { destruct He as [He | [He _]].
      - right. split; [assumption |]. change 32 with (2 ^ 5). apply pow2_le. lia.
      - left. split; [assumption |]. unfold P. rewrite He. reflexivity. }
    lia.
Qed.

(** [(clamped - min) / range] is between 0 and 1. *)
Lemma div_in_domain (s : spec_float) :
  at_most 4953959590107546 (-51) s ->
  at_most 4503599627370496 (-52) (SFdiv prec emax s crange).
Proof.
  intros [-> | (m & e & -> & Hb & He & Hle)].
  - left. reflexivity.
  - unfold crange. apply div_le.
    + reflexivity.
    + change (Zpos (digits2_pos 4953959590107546)) with 53.
      pose proof (bounded_digits _ _ Hb). rewrite fexp64_eq. lia.
    + intros e' H1 H2.
      assert (P1 : 0 < 2 ^ (e - -51 - e')) by (apply pow2_pos; lia).
      assert (E1 : 2 ^ (-51 - e) * 2 ^ (e - -51 - e') = 2 ^ (- e')).
      { rewrite <- Z.pow_add_r by lia. f_equal. lia. }
      assert (E2 : 4503599627370496 * 2 ^ (-52 - e') = 2 ^ (- e')).
      { change 4503599627370496 with (2 ^ 52). rewrite <- Z.pow_add_r by lia. f_equal. lia. }
      rewrite E2. 
      apply Z.le_trans with (4953959590107546 * 2 ^ (-51 - e) * 2 ^ (e - -51 - e')); [nia |].
      rewrite <- Z.mul_assoc, E1. lia.
Qed.

(** The normalised value is exactly 1, or it is below 1 and ten times it
    rounds to a number below 10. *)
Lemma mul_in_domain (n : spec_float) :
  at_most 4503599627370496 (-52) n ->
  n = cone \/
  (SFeqb n cone = false /\ at_most 5629499534213119 (-49) (SFmul prec emax n cten)).
Proof.
  intros [-> | (m & e & -> & Hb & He & Hle)].
  - right. split; [reflexivity | left; reflexivity].
  - destruct (bounded_lt _ _ Hb) as (Hm & Hr & Hn).
    change (2 ^ 53) with 9007199254740992 in Hm. change (2 ^ 52) with 4503599627370496 in Hn.
    destruct (Z.eq_dec e (-52)) as [E | E].
    + left. subst e. change (2 ^ (-52 - -52)) with 1 in Hle.
      assert (Zpos m = 4503599627370496) by lia.
      unfold cone. f_equal. lia.
    + right. split.
      * unfold SFeqb, cone, SFcompare.
        destruct (Z.compare_spec e (-52)); try reflexivity. lia.
      * destruct (Z.eq_dec e (-53)) as [E3 | E3].
        -- subst e. destruct (Z.eq_dec (Zpos m) 9007199254740991) as [Em | Em].
           ++ assert (m = 9007199254740991%positive) by lia. subst m.
              right. exists 5629499534213119%positive, (-49).
              split; [vm_compute; reflexivity |].
              split; [reflexivity |]. split; [lia |].
              change (2 ^ (-49 - -49)) with 1. lia.
           ++ unfold cten. apply mul_le; [reflexivity | | lia |].
              ** change (2 ^ 52) with 4503599627370496. lia.
              ** change (2 ^ (-49 - (-53 + -49))) with 9007199254740992. lia.
        -- unfold cten. apply mul_le; [reflexivity | | lia |].
           ** change (2 ^ 52) with 4503599627370496. lia.
           ** assert (2 ^ 54 <= 2 ^ (-49 - (e + -49))) by (apply pow2_le; lia).
              change (2 ^ 54) with 18014398509481984 in H.
              nia.
Qed.

(** The integer part of a number that is at most the double below 10. *)
Lemma floor_below_ten (m : positive) (e : Z) :
  e <= -49 -> Zpos m <= 5629499534213119 * 2 ^ (-49 - e) ->
  0 <= Zpos m / 2 ^ (- e) <= 9.
Proof.
  intros He Hle.
  assert (P : 0 < 2 ^ (- e)) by (apply pow2_pos; lia).
  assert (Q : 0 < 2 ^ (-49 - e)) by (apply pow2_pos; lia).
  assert (E : 2 ^ (- e) = 562949953421312 * 2 ^ (-49 - e)).
  { change 562949953421312 with (2 ^ 49). rewrite <- Z.pow_add_r by lia. f_equal. lia. }
  split; [apply Z.div_pos; lia |].
  assert (Zpos m / 2 ^ (- e) < 10); [| lia].
  apply Z.div_lt_upper_bound; [lia |]. rewrite E. nia.
Qed.


(** *** Comparisons *)

Lemma SFcompare_antisym (x y : spec_float) :
  SFcompare y x = option_map CompOpp (SFcompare x y).
Proof.
  destruct x as [sx | sx | | sx mx ex], y as [sy | sy | | sy my ey];
    try reflexivity;
    try (destruct sx; reflexivity); try (destruct sy; reflexivity);
    try (destruct sx, sy; reflexivity).
  unfold SFcompare. rewrite (Z.compare_antisym ex ey), !compare_cont_Z.
  rewrite (Z.compare_antisym (Zpos mx) (Zpos my)).
  destruct sx, sy; try reflexivity;
    destruct (ex ?= ey); simpl; try reflexivity;
    destruct (Zpos mx ?= Zpos my); reflexivity.
Qed.

(** Only a number itself compares equal to a non-zero finite number. *)
Lemma SFcompare_Eq_finite (s : bool) (m : positive) (e : Z) (x : spec_float) :
  SFcompare (S754_finite s m e) x = Some Eq -> x = S754_finite s m e.
Proof.
  destruct x as [sx | sx | | sx mx ex]; unfold SFcompare.
  - destruct s; discriminate.
  - destruct sx; discriminate.
  - discriminate.
  - rewrite compare_cont_Z.
    destruct s, sx; try discriminate;
      destruct (Z.compare_spec e ex); try discriminate;
      destruct (Z.compare_spec (Zpos m) (Zpos mx)); try discriminate;
      intros _; f_equal; lia.
Qed.

Lemma SFcompare_nan (s : bool) (m : positive) (e : Z) (x : spec_float) :
  SFcompare (S754_finite s m e) x = None -> x = S754_nan.
Proof.
  destruct x as [sx | sx | | sx mx ex]; try reflexivity; discriminate.
Qed.

(** *** The constants of the ramp *)

Lemma Ramp_min_eq : Ramp.min = cmin.
Proof. vm_compute. reflexivity. Qed.

Lemma Ramp_max_eq : Ramp.max = cmax.
Proof. vm_compute. reflexivity. Qed.

Lemma Ramp_range_eq : Ramp.range = crange.
Proof. vm_compute. reflexivity. Qed.

Lemma Ramp_numColors_eq : Ramp.numColors = cten.
Proof. vm_compute. reflexivity. Qed.

Lemma canvas_numColors_eq : of_Z (Z.of_nat (List.length colorRamp)) = cten.
Proof. vm_compute. reflexivity. Qed.

Lemma one_eq : of_Z 1 = cone.
Proof. vm_compute. reflexivity. Qed.

(** *** Clamping *)

(** [Math.max(min, Math.min(max, x))] *)
Lemma clamp_in_domain (x : number) :
  valid_binary prec emax x = true -> isNaN x = false -> lt x Ramp.min = false ->
  in_domain (Math_max Ramp.min (Math_min Ramp.max x)).
Proof.
  intros Hv Hnan Hlt. rewrite Ramp_min_eq, Ramp_max_eq in *.
  assert (Dmax : in_domain cmax) by (apply dom_pos; [reflexivity | right; split; reflexivity || lia]).
  assert (Dmin : in_domain cmin) by (apply dom_neg; [reflexivity | right; split; reflexivity || lia]).
  unfold Math_min at 1.
  destruct (SFcompare cmax x) as [[ | | ] |] eqn:C1.
  - exact Dmax.
  - exact Dmax.
  - assert (Hhi : SFleb x cmax = true).
    { unfold SFleb. rewrite (SFcompare_antisym cmax x), C1. reflexivity. }
    unfold Math_max. destruct (SFcompare cmin x) as [[ | | ] |] eqn:C2.
    + exact Dmin.
    + apply in_domain_intro; [assumption | | assumption].
      unfold SFleb. now rewrite C2.
    + exfalso. unfold lt, SFltb in Hlt.
      rewrite (SFcompare_antisym cmin x), C2 in Hlt. discriminate.
    + apply SFcompare_nan in C2. subst x. discriminate.
  - apply SFcompare_nan in C1. subst x. discriminate.
Qed.

(** Inside the domain, clamping changes nothing. *)
Lemma clamp_id (x : number) :
  le Ramp.min x = true -> le x Ramp.max = true ->
  Math_max Ramp.min (Math_min Ramp.max x) = x.
Proof.
  rewrite Ramp_min_eq, Ramp_max_eq. unfold le, SFleb. intros Hlo Hhi.
  assert (E1 : Math_min cmax x = x).
  { unfold Math_min. rewrite (SFcompare_antisym x cmax).
    destruct (SFcompare x cmax) as [[ | | ] |] eqn:C; try discriminate; simpl.
    - rewrite (SFcompare_antisym cmax x) in C.
      destruct (SFcompare cmax x) as [[ | | ] |] eqn:C'; try discriminate.
      symmetry. now apply SFcompare_Eq_finite in C'.
    - reflexivity. }
  rewrite E1. unfold Math_max.
  destruct (SFcompare cmin x) as [[ | | ] |] eqn:C; try discriminate.
  - symmetry. now apply SFcompare_Eq_finite in C.
  - reflexivity.
Qed.

Lemma in_domain_not_below (x : number) :
  le Ramp.min x = true -> isNaN x = false /\ lt x Ramp.min = false.
Proof.
  rewrite Ramp_min_eq. unfold le, lt, SFleb, SFltb. intros H. split.
  - destruct x; try reflexivity. discriminate.
  - rewrite (SFcompare_antisym cmin x).
    destruct (SFcompare cmin x) as [[ | | ] |]; try discriminate; reflexivity.
Qed.

(** *** Selection of the palette entry *)

Lemma floor_finite (m : positive) (e : Z) :
  e < 0 ->
  Math_floor (S754_finite false m e)
  = match Zpos m / 2 ^ (- e) with
    | 0 => S754_zero false
    | z => of_Z z
    end /\
  floorZ (S754_finite false m e) = Zpos m / 2 ^ (- e).
Proof.
  intros He. unfold Math_floor, floorZ, cond_Zopp.
  replace (0 <=? e) with false by (symmetry; apply Z.leb_gt; lia).
  split; reflexivity.
Qed.

(** Reading the palettes at an integer from 0 to 9 given as a number. *)
Lemma small_index (z : Z) :
  0 <= z <= 9 ->
  let f := match z return number with
           | 0 => S754_zero false
           | Zpos p => of_Z (Zpos p)
           | Zneg p => of_Z (Zneg p)
           end in
  array_get purpleGradientColors f = nth_error purpleGradientColors (Z.to_nat z) /\
  array_get colorRamp (Math_min (sub cten cone) f) = nth_error colorRamp (Z.to_nat z).
Proof.
  intros Hz.
  assert (H : z = 0 \/ z = 1 \/ z = 2 \/ z = 3 \/ z = 4 \/ z = 5 \/ z = 6 \/
              z = 7 \/ z = 8 \/ z = 9) by lia.
  repeat (destruct H as [-> | H]); try subst z; split; vm_compute; reflexivity.
Qed.

(** For a clamped value both renderers read their palette at [decile]. *)
Lemma ramp_select (c : number) :
  in_domain c ->
  let n := div (sub c Ramp.min) Ramp.range in
  let numColors := of_Z (Z.of_nat (List.length colorRamp)) in
  0 <= decile c <= 9 /\
  (if strict_eq n (of_Z 1)
   then of_lookup (array_get purpleGradientColors (sub Ramp.numColors (of_Z 1)))
   else of_lookup (array_get purpleGradientColors (Math_floor (mul n Ramp.numColors))))
  = of_lookup (nth_error purpleGradientColors (Z.to_nat (decile c))) /\
  array_get colorRamp (Math_min (sub numColors (of_Z 1)) (Math_floor (mul n numColors)))
  = nth_error colorRamp (Z.to_nat (decile c)).
Proof.
  intros Hc n numColors. unfold decile, normalized. fold n. subst numColors.
  rewrite canvas_numColors_eq, Ramp_numColors_eq, one_eq.
  assert (Hn : at_most 4503599627370496 (-52) n).
  { unfold n. rewrite Ramp_min_eq, Ramp_range_eq.
    apply div_in_domain, sub_in_domain, Hc. }
  clearbody n.
  destruct (mul_in_domain n Hn) as [-> | [Hne Hx]].
  - repeat split; vm_compute; congruence.
  - unfold strict_eq. rewrite Hne. unfold mul.
    destruct Hx as [-> | (m & e & -> & Hb & He & Hle)].
    + repeat split; vm_compute; congruence.
    + destruct (floor_finite m e ltac:(lia)) as [F1 F2]. rewrite F1, F2.
      pose proof (floor_below_ten m e He Hle) as Hz.
      set (z := Zpos m / 2 ^ (- e)) in *.
      destruct (small_index z Hz) as [S1 S2]. cbv zeta in S1, S2.
      rewrite S1, S2. replace (Z.min 9 z) with z by lia.
      repeat split; lia.
Qed.

Lemma palette_entry (k : Z) :
  0 <= k <= 9 ->
  exists c rgb,
    nth_error purpleGradientColors (Z.to_nat k) = Some c /\
    hexToRgb c = Some rgb /\
    nth_error colorRamp (Z.to_nat k) = Some (Some rgb).
Proof.
  intros Hk.
  assert (H : k = 0 \/ k = 1 \/ k = 2 \/ k = 3 \/ k = 4 \/ k = 5 \/ k = 6 \/
              k = 7 \/ k = 8 \/ k = 9) by lia.
  exists (nth (Z.to_nat k) purpleGradientColors EmptyString).
  exists (match hexToRgb (nth (Z.to_nat k) purpleGradientColors EmptyString) with
          | Some rgb => rgb
          | None => (0, 0, 0)
          end).
  repeat (destruct H as [-> | H]); try subst k;
    (split; [| split]); vm_compute; reflexivity.
Qed.

(** A number that is not NaN and not below the minimum is painted by both
    renderers with the palette entry of the decile of its clamped value. *)
Lemma both_select (x : number) :
  valid_binary prec emax x = true -> isNaN x = false -> lt x Ramp.min = false ->
  let k := decile (Math_max Ramp.min (Math_min Ramp.max x)) in
  0 <= k <= 9 /\
  exists c rgb,
    nth_error purpleGradientColors (Z.to_nat k) = Some c /\
    hexToRgb c = Some rgb /\
    (forall rest, pixelValuesToColorFn (PNum x :: rest) = RColor c) /\
    canvas_color (PNum x) = Some rgb.
Proof.
  intros Hv Hnan Hlt k.
  pose proof (clamp_in_domain x Hv Hnan Hlt) as Hd.
  destruct (ramp_select _ Hd) as (Hk & HA & HB). fold k in Hk, HA, HB.
  split; [exact Hk |].
  destruct (palette_entry k Hk) as (c & rgb & P1 & P2 & P3).
  exists c, rgb. split; [exact P1 | split; [exact P2 | split]].
  - intros rest. unfold pixelValuesToColorFn, first_band.
    rewrite Hnan, Hlt. cbv zeta in HA. cbn [orb]. rewrite HA, P1. reflexivity.
  - unfold canvas_color, ToNumber. rewrite Hnan, Hlt. cbv zeta in HB.
    cbn [orb]. rewrite HB, P3. reflexivity.
Qed.

(** ** Transparency rule *)

Lemma layer_no_data (v : pixel) (rest : list pixel) :
  no_data v -> pixelValuesToColorFn (v :: rest) = RNull.
Proof.
  intros [-> | [-> | (x & -> & H)]]; [reflexivity | reflexivity |].
  unfold pixelValuesToColorFn, first_band.
  destruct H as [H | H]; rewrite H; [reflexivity | now rewrite orb_true_r].
Qed.

Lemma canvas_no_data (v : pixel) :
  no_data v -> v <> PNull -> canvas_color v = None.
Proof.
  intros [-> | [-> | (x & -> & H)]] Hn; [reflexivity | congruence |].
  unfold canvas_color, ToNumber.
  destruct H as [H | H]; rewrite H; [reflexivity | now rewrite orb_true_r].
Qed.


(** ** Decile binning *)

Lemma canvas_rgba_painted (v : pixel) (r g b : Z) :
  canvas_color v = Some (r, g, b) -> canvas_rgba v = [r; g; b; alpha70].
Proof.
  intros H. unfold canvas_rgba, canvas_step. rewrite H. reflexivity.
Qed.

(** The interior boundaries written as decimal literals (-1.78, -1.56,
    ...), that is, the doubles nearest to them, and the double just below
    0.2. *)
Example decile_of_decimal_boundaries :
  map (fun k => decile (decimal (-200 + 22 * k) 2)) [1; 2; 3; 4; 5; 6; 7; 8; 9]
  = [0; 1; 2; 3; 5; 5; 7; 7; 9].
Proof. vm_compute. reflexivity. Qed.

Example decile_just_below_max :
  decile (S754_finite false 7205759403792793 (-55)) = 9.
Proof. vm_compute. reflexivity. Qed.

(** C1, as stated, fails at the first interior boundary: the value
    [-2.0 + 1 * 0.22] is the double -1.78; [-1.78 - (-2)] is
    0.21999999999999997, divided by 2.2 it is 0.09999999999999998, times
    10 it is 0.9999999999999998, whose floor is 0.  Both renderers paint it
    with palette entry 0, not entry 1. *)
Lemma C1_boundary_1_in_bin_0 :
  boundary 1 = decimal (-178) 2 /\
  le Ramp.min (boundary 1) = true /\ le (boundary 1) Ramp.max = true /\
  mul (normalized (boundary 1)) Ramp.numColors
  = S754_finite false 9007199254740990 (-53) /\
  decile (boundary 1) = 0 /\
  pixelValuesToColorFn [PNum (boundary 1)] = RColor "#F8F4FF" /\
  canvas_color (PNum (boundary 1)) = hexToRgb "#F8F4FF" /\
  nth_error purpleGradientColors 1 = Some "#E8D5F2"%string.
Proof. repeat split; vm_compute; reflexivity. Qed.

(** C1 (amended): for every double [v] with -2.0 <= v <= 0.2 both
    renderers paint exactly one of the ten palette colours, the one at
    index min(9, floor((v - (-2.0)) / 2.2 * 10)) with every operation
    rounded to double precision; the raster layer draws at opacity 0.7 and
    the canvas stores the alpha byte 178 (255 * 0.7 = 178.5, stored as an
    8-bit clamped value).  -2.0 maps to index 0 and 0.2 to index 9.  Of the
    interior boundaries [-2.0 + k * 0.22], those for k = 3, 5, 6, 7, 9 map
    to index k, and those for k = 1, 2, 4, 8 map to index k - 1. *)
Theorem C1_decile_colour (v : number)
        (Hv : valid_binary prec emax v = true)
        (Hlo : le Ramp.min v = true) (Hhi : le v Ramp.max = true) :
  (0 <= decile v <= 9 /\
   decile v = Z.min 9 (floorZ (mul (div (sub v (of_Z (-2))) Ramp.range) (of_Z 10))) /\
   exists c r g b,
     nth_error purpleGradientColors (Z.to_nat (decile v)) = Some c /\
     hexToRgb c = Some (r, g, b) /\
     (forall rest, pixelValuesToColorFn (PNum v :: rest) = RColor c) /\
     canvas_rgba (PNum v) = [r; g; b; 178]) /\
  layer_opacity = decimal 7 1 /\
  Ramp.range = decimal 22 1 /\
  decile (of_Z (-2)) = 0 /\
  decile (decimal 2 1) = 9 /\
  map decile (map boundary [1; 2; 3; 4; 5; 6; 7; 8; 9]) = [0; 1; 3; 3; 5; 6; 7; 7; 9].
Proof.
  split; [| repeat split; vm_compute; reflexivity].
  destruct (in_domain_not_below v Hlo) as [Hnan Hlt].
  destruct (both_select v Hv Hnan Hlt) as (Hk & c & [[r g] b] & P1 & P2 & P3 & P4).
  cbv zeta in Hk, P1. rewrite (clamp_id v Hlo Hhi) in Hk, P1.
  split; [exact Hk | split; [reflexivity |]].
  exists c, r, g, b. repeat split; try assumption.
  rewrite (canvas_rgba_painted _ _ _ _ P4). reflexivity.
Qed.

Lemma C1_witness :
  exists c r g b,
    nth_error purpleGradientColors (Z.to_nat (decile (decimal (-1) 0))) = Some c /\
    hexToRgb c = Some (r, g, b) /\
    (forall rest, pixelValuesToColorFn (PNum (decimal (-1) 0) :: rest) = RColor c) /\
    canvas_rgba (PNum (decimal (-1) 0)) = [r; g; b; 178].
Proof.
  exact (proj2 (proj2 (proj1
    (C1_decile_colour (decimal (-1) 0) (eq_refl true) (eq_refl true) (eq_refl true))))).
Defined.

(** ** Agreement of the two renderers *)

(** C3: the two rendering paths compute the same classification for
    every pixel value: for every sample that both can be given, that is
    [undefined] and every double, NaN and the infinities included (the
    canvas loop reads a typed array, which holds no [null]), either both
    declare it transparent, or both select the same palette entry. *)
Theorem C3_renderers_agree (v : pixel) (Hwf : well_formed v) (Hnn : v <> PNull) :
  ((forall rest, pixelValuesToColorFn (v :: rest) = RNull) /\ canvas_color v = None) \/
  exists k c rgb,
    0 <= k <= 9 /\
    nth_error purpleGradientColors (Z.to_nat k) = Some c /\
    hexToRgb c = Some rgb /\
    (forall rest, pixelValuesToColorFn (v :: rest) = RColor c) /\
    canvas_color v = Some rgb.
Proof.
  destruct v as [| | x].
  - left. split; reflexivity.
  - congruence.
  - simpl in Hwf.
    destruct (isNaN x) eqn:Hnan.
    { left. assert (N : no_data (PNum x)) by (right; right; exists x; auto).
      split; [intros rest; now apply layer_no_data | now apply canvas_no_data]. }
    destruct (lt x Ramp.min) eqn:Hlt.
    { left. assert (N : no_data (PNum x)) by (right; right; exists x; auto).
      split; [intros rest; now apply layer_no_data | now apply canvas_no_data]. }
    right. destruct (both_select x Hwf Hnan Hlt) as (Hk & c & rgb & P).
    eexists; exists c, rgb. split; [exact Hk | exact P].
Qed.

Lemma C3_witness :
  ((forall rest, pixelValuesToColorFn (PNum (decimal 5 0) :: rest) = RNull) /\
   canvas_color (PNum (decimal 5 0)) = None) \/
  exists k c rgb,
    0 <= k <= 9 /\
    nth_error purpleGradientColors (Z.to_nat k) = Some c /\
    hexToRgb c = Some rgb /\
    (forall rest, pixelValuesToColorFn (PNum (decimal 5 0) :: rest) = RColor c) /\
    canvas_color (PNum (decimal 5 0)) = Some rgb.
Proof.
  apply C3_renderers_agree; [vm_compute; reflexivity | discriminate].
Defined.

(** ** Geographic detection *)

Lemma bounds_eta (g : bounds) :
  {| xmin := xmin g; xmax := xmax g; ymin := ymin g; ymax := ymax g |} = g.
Proof. destruct g; reflexivity. Qed.

(** C4: a decoded bounding box is classified as geographic exactly when
    xmin >= -180, xmax <= 180, ymin >= -90 and ymax <= 90; a projected box
    is displayed at the fixed box (-97.5, -80.0, 25.0, 30.5) and its native
    bounds are kept unchanged in [originalBounds]. *)
Theorem C4_geographic_detection (g : bounds) :
  (isProjected (displayBounds g) = false <->
   ge (xmin g) (of_Z (-180)) = true /\ le (xmax g) (of_Z 180) = true /\
   ge (ymin g) (of_Z (-90)) = true /\ le (ymax g) (of_Z 90) = true) /\
  (isProjected (displayBounds g) = true ->
   extent (displayBounds g)
   = {| xmin := decimal (-975) 1; xmax := decimal (-800) 1;
        ymin := decimal 250 1; ymax := decimal 305 1 |} /\
   originalBounds (displayBounds g) = Some g) /\
  (isProjected (displayBounds g) = false ->
   extent (displayBounds g) = g /\ originalBounds (displayBounds g) = None).
Proof.
  unfold displayBounds.
  destruct (isGeographic g) eqn:E; cbn [isProjected extent originalBounds];
    unfold isGeographic in E.
  - rewrite !andb_true_iff in E. destruct E as [[[E1 E2] E3] E4].
    split; [split; auto | split; [discriminate |]].
    intros _. now rewrite bounds_eta.
  - split; [split; [discriminate |] | split; [| discriminate]].
    + intros (E1 & E2 & E3 & E4). rewrite E1, E2, E3, E4 in E. discriminate.
    + intros _. rewrite bounds_eta. split; reflexivity.
Qed.

Lemma C4_witness :
  isProjected (displayBounds gulf_box) = false /\
  extent (displayBounds utm_box)
  = {| xmin := decimal (-975) 1; xmax := decimal (-800) 1;
       ymin := decimal 250 1; ymax := decimal 305 1 |} /\
  originalBounds (displayBounds utm_box) = Some utm_box.
Proof.
  split.
  - apply (proj1 (C4_geographic_detection gulf_box)).
    repeat split; vm_compute; reflexivity.
  - apply (proj1 (proj2 (C4_geographic_detection utm_box))).
    vm_compute. reflexivity.
Defined.

(** ** The legend *)

Local Open Scope string_scope.

Lemma spec_ranges_table :
  spec_ranges =
  [ {| color := "#F8F4FF"; label := "-2.000 - -1.780" |};
    {| color := "#E8D5F2"; label := "-1.780 - -1.560" |};
    {| color := "#D4B3E8"; label := "-1.560 - -1.340" |};
    {| color := "#C191DE"; label := "-1.340 - -1.120" |};
    {| color := "#BD6FCB"; label := "-1.120 - -0.900" |};
    {| color := "#A855C7"; label := "-0.900 - -0.680" |};
    {| color := "#9333EA"; label := "-0.680 - -0.460" |};
    {| color := "#7C3AED"; label := "-0.460 - -0.240" |};
    {| color := "#6B21A8"; label := "-0.240 - -0.020" |};
    {| color := "#581C87"; label := "-0.020 - 0.200" |} ].
Proof. vm_compute. reflexivity. Qed.

(** The ranges the hook computes, in double arithmetic and through
    [toFixed(3)], are the ranges of the specification. *)
Lemma useLegend_ranges (Number_toString : number -> string)
      (cv : visualization) (datasetInfo : maybe dataset) (vt : string) :
  useLegend Number_toString (Defined cv) datasetInfo vt
  = Some {| title := opt_label cv ++ " Legend";
            description := "Gulf Coast InSAR Data " ++ dataset_suffix datasetInfo;
            visualizationType := vt;
            ranges := spec_ranges |}.
Proof.
  unfold useLegend. cbv zeta.
  match goal with
  | |- Some {| title := _; description := _; visualizationType := _; ranges := ?r |} = _ =>
      replace r with spec_ranges by (vm_compute; reflexivity)
  end.
  reflexivity.
Qed.

Ltac blast_char c := destruct c as [[] [] [] [] [] [] [] []].

Ltac no_number H :=
  cbn in H |- *; rewrite ?orb_false_r in H;
  first [ discriminate H | reflexivity | rewrite H; reflexivity ].

(** After an optional sign that has been read: no [Infinity], no digit,
    and no digit after a point. *)
Lemma no_number_unsigned (sign : bool) (u : string) :
  prefix "Infinity" u
  || match u with
     | String c r =>
         is_digit c
         || Ascii.eqb c "."
            && match r with
               | String d _ => is_digit d
               | EmptyString => false
               end
     | EmptyString => false
     end = false ->
  (if prefix "Infinity" u then S754_infinity sign
   else
     let '(ip, ni, r1) := read_digits u 0 0 in
     let '(mant, nf, r2) :=
       match r1 with
       | String "."%char r => read_digits r ip 0
       | _ => (ip, O, r1)
       end in
     match (ni + nf)%nat with
     | O => NaN
     | _ => of_scientific sign mant (read_exponent r2 - Z.of_nat nf)
     end) = NaN.
Proof.
  intros H. destruct u as [| c r]; [reflexivity |].
  blast_char c; try (no_number H).
  destruct r as [| d r2]; [reflexivity |].
  blast_char d; no_number H.
Qed.

Lemma not_number_parse (s : string) :
  starts_number s = false -> parseFloat_string s = NaN.
Proof.
  unfold starts_number, parseFloat_string. cbv zeta.
  destruct (trim_start s) as [| c r]; [reflexivity |].
  blast_char c; cbn [Ascii.eqb Bool.eqb orb andb]; intros H;
    first [ exact (no_number_unsigned true r H)
          | exact (no_number_unsigned false r H)
          | exact (no_number_unsigned false _ H) ].
Qed.

Lemma formatLegendNumber_non_numeric (Number_toString : number -> string) (s : string) :
  starts_number s = false -> formatLegendNumber Number_toString (JStr s) = "N/A".
Proof.
  intros H. unfold formatLegendNumber, parseFloat. now rewrite (not_number_parse s H).
Qed.


(** C10: without a visualization ([null] or [undefined]) the hook returns
    [null] and no legend is rendered; with one it returns a configuration
    whose ranges have as many entries as the palette, whatever the dataset
    descriptor is. *)
Theorem C10_legend_iff_visualization (Number_toString : number -> string)
        (datasetInfo : maybe dataset) (vt : string) :
  useLegend Number_toString Undefined datasetInfo vt = None /\
  useLegend Number_toString Null datasetInfo vt = None /\
  render_legend (useLegend Number_toString Undefined datasetInfo vt) = None /\
  render_legend (useLegend Number_toString Null datasetInfo vt) = None /\
  forall cv, exists cfg,
    useLegend Number_toString (Defined cv) datasetInfo vt = Some cfg /\
    List.length (ranges cfg) = List.length purpleGradientColors /\
    render_legend (useLegend Number_toString (Defined cv) datasetInfo vt)
    = Some (Legend cfg).
Proof.
  split; [reflexivity | split; [reflexivity | split; [reflexivity | split; [reflexivity |]]]].
  intros cv. eexists.
  rewrite useLegend_ranges. split; [reflexivity | split; [| reflexivity]].
  cbn [ranges]. rewrite spec_ranges_table. reflexivity.
Qed.

Local Close Scope string_scope.

(** ** Bands *)

(** The raster layer's function reads the first band only. *)
Lemma layer_first_band_only (v : pixel) (rest rest' : list pixel) :
  pixelValuesToColorFn (v :: rest) = pixelValuesToColorFn (v :: rest').
Proof. reflexivity. Qed.

(** C9 fails on the canvas loop: it runs over every interleaved sample and
    paints sample [i] into pixel [i].  For the grid of two pixels with the
    bands (0.0, -3.0) and (0.1, -3.0), pixel 1 gets the class of sample 1,
    the second band of pixel 0, and is left transparent although its first
    band, 0.1, lies in the last decile; with another second band the same
    first band is painted differently. *)
Theorem C9_canvas_reads_every_band :
  renderTiffOverlay two_band_grid 2 1 = [88; 28; 135; 178; 0; 0; 0; 0] /\
  rgba_at (renderTiffOverlay two_band_grid 2 1) 1 = [0; 0; 0; 0] /\
  canvas_rgba (PNum (decimal 1 1)) = [88; 28; 135; 178] /\
  map (fun p => nth (2 * p) two_band_grid NaN) [0; 1]%nat
  = map (fun p => nth (2 * p) two_band_grid' NaN) [0; 1]%nat /\
  renderTiffOverlay two_band_grid' 2 1 = [88; 28; 135; 178; 88; 28; 135; 178].
Proof. repeat split; vm_compute; reflexivity. Qed.

(** ** Newest-first ordering of the catalogue's rasters *)

Section Sorting.

Context {A : Type} (cmp : A -> A -> Z).

Lemma insert_by_perm (x : A) (l : list A) : Permutation (insert_by cmp x l) (x :: l).
Proof.
  induction l as [| y rest IH]; cbn [insert_by].
  - apply Permutation_refl.
  - destruct (0 <? cmp x y).
    + apply perm_trans with (y :: x :: rest); [now apply perm_skip | apply perm_swap].
    + apply Permutation_refl.
Qed.

Lemma sort_perm (l : list A) : Permutation (sort cmp l) l.
Proof.
  induction l as [| x rest IH]; cbn [sort fold_right].
  - apply perm_nil.
  - apply perm_trans with (x :: sort cmp rest); [apply insert_by_perm | now apply perm_skip].
Qed.

Lemma insert_by_ext (cmp' : A -> A -> Z) (x : A) (l : list A) :
  (forall y, In y l -> cmp x y = cmp' x y) -> insert_by cmp x l = insert_by cmp' x l.
Proof.
  induction l as [| y rest IH]; intros H; [reflexivity |].
  cbn [insert_by]. rewrite <- (H y) by now left.
  destruct (0 <? cmp x y); [| reflexivity].
  f_equal. apply IH. intros z Hz. apply H. now right.
Qed.

Lemma sort_ext (cmp' : A -> A -> Z) (l : list A) :
  (forall x y, In x l -> In y l -> cmp x y = cmp' x y) -> sort cmp l = sort cmp' l.
Proof.
  induction l as [| x rest IH]; intros H; [reflexivity |].
  cbn [sort fold_right]. fold (sort cmp rest). fold (sort cmp' rest).
  rewrite <- IH by (intros a b Ha Hb; apply H; now right).
  apply insert_by_ext. intros y Hy. apply H; [now left |].
  right. exact (Permutation_in y (sort_perm rest) Hy).
Qed.

Lemma sort_nonempty (l : list A) : l <> [] -> sort cmp l <> [].
Proof.
  intros Hl E. apply Hl. apply Permutation_nil.
  rewrite <- E. apply sort_perm.
Qed.

End Sorting.

(** On valid dates the comparator, as [sort] reads it, is the difference
    of the times. *)
Lemma SortCompare_valid (a b : resource) :
  valid_date a = true -> valid_date b = true ->
  SortCompare by_date_desc a b = by_ms a b.
Proof.
  unfold valid_date, SortCompare, by_date_desc, by_ms, date_ms.
  destruct (date_of a), (date_of b); try discriminate. reflexivity.
Qed.

Lemma sort_valid (l : list resource) :
  Forall (fun r => valid_date r = true) l ->
  sort (SortCompare by_date_desc) l = sort by_ms l.
Proof.
  intros H. rewrite Forall_forall in H.
  apply sort_ext. intros x y Hx Hy. apply SortCompare_valid; auto.
Qed.

Lemma date_ms_of (r : resource) (t : Z) : date_of r = TimeValue t -> date_ms r = t.
Proof. unfold date_ms. now intros ->. Qed.

Lemma insert_newest_first (x : resource) (l : list resource) :
  StronglySorted newest_first l ->
  StronglySorted newest_first (insert_by by_ms x l).
Proof.
  induction l as [| y rest IH]; intros Hs; cbn [insert_by].
  - constructor; constructor.
  - apply StronglySorted_inv in Hs. destruct Hs as [Hs Hy].
    unfold by_ms at 1. destruct (Z.ltb_spec 0 (date_ms y - date_ms x)) as [Hlt | Hge].
    + constructor; [now apply IH |].
      apply (Permutation_Forall (Permutation_sym (insert_by_perm by_ms x rest))).
      constructor; [unfold newest_first; lia | exact Hy].
    + constructor; [now constructor |].
      constructor; [unfold newest_first; lia |].
      apply Forall_forall. intros z Hz. rewrite Forall_forall in Hy.
      specialize (Hy z Hz). unfold newest_first in *. lia.
Qed.

Lemma sort_newest_first (l : list resource) :
  StronglySorted newest_first (sort by_ms l).
Proof.
  induction l as [| x rest IH]; cbn [sort fold_right].
  - constructor.
  - now apply insert_newest_first.
Qed.

(** A newest-first list and a strictly newest-first list with the same
    elements are the same list. *)
Lemma newest_first_unique (l1 l2 : list resource) :
  StronglySorted newest_first l1 -> StronglySorted strictly_newer l2 ->
  Permutation l1 l2 -> l1 = l2.
Proof.
  revert l2. induction l1 as [| a l1 IH]; intros l2 H1 H2 HP.
  - apply Permutation_nil in HP. now subst.
  - destruct l2 as [| b l2]; [apply Permutation_sym, Permutation_nil in HP; discriminate |].
    apply StronglySorted_inv in H1. destruct H1 as [H1 Ha].
    apply StronglySorted_inv in H2. destruct H2 as [H2 Hb].
    rewrite Forall_forall in Ha, Hb.
    assert (Eab : a = b).
    { assert (Ia : In a (b :: l2)) by (apply (Permutation_in a HP); now left).
      assert (Ib : In b (a :: l1)) by (apply (Permutation_in b (Permutation_sym HP)); now left).
      destruct Ia as [E | Ia]; [now symmetry |].
      destruct Ib as [E | Ib]; [assumption |].
      specialize (Ha b Ib). specialize (Hb a Ia).
      unfold newest_first, strictly_newer in *. lia. }
    subst b. f_equal. apply IH; try assumption.
    now apply Permutation_cons_inv in HP.
Qed.

Lemma map_index_dates (f : resource -> Z -> resource) (l : list resource) (i : Z) :
  (forall r k, date_of (f r k) = date_of r) ->
  map date_of (map_index f l i) = map date_of l.
Proof.
  intros Hf. revert i. induction l as [| x rest IH]; intros i; cbn [map_index map].
  - reflexivity.
  - now rewrite Hf, IH.
Qed.

(** C7, as stated, fails for a resource dated before the epoch: the
    resource without a timestamp is dated to the epoch and is placed before
    it, not last. *)
Lemma C7_undated_not_last :
  sort (SortCompare by_date_desc) [res_1969; res_2023; res_2024; res_undated]
  = [res_2024; res_2023; res_undated; res_1969] /\
  date_of res_undated = TimeValue 0 /\ date_of res_1969 = TimeValue (-1000).
Proof. repeat split; vm_compute; reflexivity. Qed.

(** C7 (amended): a resource is dated by [created], else by
    [last_modified], else to the epoch (time value 0).  When the dates of
    the resources are valid, the sorted list has the same elements and is
    in descending order of time, and the list [getAllTiffResources]
    returns has the dates of the sorted list in its order.  Given resources
    created at T1 < T2 < T3, all after the epoch, and one without a
    timestamp, in any order, the result is T3, T2, T1 and then the undated
    resource; a resource that has only [last_modified], at a time between
    T2 and T3, is placed between them.  A resource whose date is invalid
    compares as equal to every resource, whatever their dates, so the
    comparator is then not consistent (and the order is the
    implementation's). *)
Theorem C7_newest_first (r1 r2 r3 r0 : resource) (T1 T2 T3 : Z)
        (H1 : created r1 = Some (TimeValue T1)) (H2 : created r2 = Some (TimeValue T2))
        (H3 : created r3 = Some (TimeValue T3))
        (H0 : created r0 = None /\ last_modified r0 = None)
        (HT : 0 < T1 < T2 /\ T2 < T3) :
  (forall l, Forall (fun r => valid_date r = true) l ->
             Permutation (sort (SortCompare by_date_desc) l) l /\
             StronglySorted newest_first (sort (SortCompare by_date_desc) l)) /\
  (forall d out, getAllTiffResources d = Return out ->
                 exists tiffs,
                   tiff_resources_of d = Return tiffs /\
                   map date_of out = map date_of (sort (SortCompare by_date_desc) tiffs)) /\
  (forall r t, created r = Some t -> date_of r = t) /\
  (forall r t, created r = None -> last_modified r = Some t -> date_of r = t) /\
  date_of r0 = TimeValue 0 /\
  (forall l, Permutation l [r1; r2; r3; r0] ->
             sort (SortCompare by_date_desc) l = [r3; r2; r1; r0]) /\
  (forall rm Tm l,
      created rm = None -> last_modified rm = Some (TimeValue Tm) -> T2 < Tm < T3 ->
      Permutation l [r1; r2; r3; rm] ->
      sort (SortCompare by_date_desc) l = [r3; rm; r2; r1]) /\
  (forall a b, date_of b = InvalidDate ->
               SortCompare by_date_desc a b = 0 /\ SortCompare by_date_desc b a = 0).
Proof.
  assert (C : forall r t, created r = Some t -> date_of r = t)
    by (intros r t E; unfold date_of; now rewrite E).
  assert (M : forall r t, created r = None -> last_modified r = Some t -> date_of r = t)
    by (intros r t E E'; unfold date_of; now rewrite E, E').
  pose proof (C _ _ H1) as D1. pose proof (C _ _ H2) as D2. pose proof (C _ _ H3) as D3.
  assert (D0 : date_of r0 = TimeValue 0)
    by (unfold date_of; destruct H0 as [-> ->]; reflexivity).
  assert (V : forall r t, date_of r = TimeValue t -> valid_date r = true)
    by (intros r t E; unfold valid_date; now rewrite E).
  assert (Four : forall a b c d l,
             Forall (fun r => valid_date r = true) [a; b; c; d] ->
             StronglySorted strictly_newer [a; b; c; d] ->
             Permutation l [a; b; c; d] ->
             sort (SortCompare by_date_desc) l = [a; b; c; d]).
  { intros a b c d l Hv Hs HP.
    rewrite sort_valid by exact (Permutation_Forall (Permutation_sym HP) Hv).
    apply newest_first_unique; [apply sort_newest_first | exact Hs |].
    apply perm_trans with l; [apply sort_perm | exact HP]. }
  split; [| split; [| split; [exact C | split; [exact M | split; [exact D0 | split; [| split]]]]]].
  - intros l Hl. split; [apply sort_perm |].
    rewrite (sort_valid l Hl). apply sort_newest_first.
  - intros d out. unfold getAllTiffResources.
    destruct (tiff_resources_of d) as [tiffs | m]; [| discriminate].
    intros E. injection E as <-. exists tiffs. split; [reflexivity |].
    apply map_index_dates. intros r k. reflexivity.
  - intros l HP. apply Four.
    + repeat constructor; eapply V; eauto.
    + apply date_ms_of in D1, D2, D3, D0.
      repeat constructor; unfold strictly_newer; lia.
    + apply perm_trans with [r1; r2; r3; r0]; [exact HP |].
      apply perm_trans with [r2; r1; r3; r0]; [apply perm_swap |].
      apply perm_trans with [r2; r3; r1; r0]; [apply perm_skip, perm_swap |].
      apply perm_swap.
  - intros rm Tm l Ec Em HTm HP.
    pose proof (M _ _ Ec Em) as Dm. apply Four.
    + repeat constructor; eapply V; eauto.
    + apply date_ms_of in D1, D2, D3, Dm.
      repeat constructor; unfold strictly_newer; lia.
    + apply perm_trans with [r1; r2; r3; rm]; [exact HP |].
      apply perm_trans with [r1; r3; r2; rm]; [apply perm_skip, perm_swap |].
      apply perm_trans with [r3; r1; r2; rm]; [apply perm_swap |].
      apply perm_trans with [r3; r1; rm; r2]; [apply perm_skip, perm_skip, perm_swap |].
      apply perm_trans with [r3; rm; r1; r2]; [apply perm_skip, perm_swap |].
      apply perm_skip, perm_skip, perm_swap.
  - intros a b E. unfold SortCompare, by_date_desc. rewrite E.
    split; [reflexivity | destruct (date_of a); reflexivity].
Qed.

Lemma C7_witness :
  sort (SortCompare by_date_desc) [res_undated; raster_a; res_2024; res_2023]
  = [res_2024; raster_a; res_2023; res_undated].
Proof.
  assert (HP : Permutation [res_undated; raster_a; res_2024; res_2023]
                           [res_2023; raster_a; res_2024; res_undated]).
  { apply perm_trans with [raster_a; res_undated; res_2024; res_2023]; [apply perm_swap |].
    apply perm_trans with [raster_a; res_2024; res_undated; res_2023];
      [apply perm_skip, perm_swap |].
    apply perm_trans with [raster_a; res_2024; res_2023; res_undated];
      [apply perm_skip, perm_skip, perm_swap |].
    apply perm_trans with [raster_a; res_2023; res_2024; res_undated];
      [apply perm_skip, perm_swap |].
    apply perm_swap. }
  exact (proj1 (proj2 (proj2 (proj2 (proj2 (proj2
    (C7_newest_first res_2023 raster_a res_2024 res_undated
       1690000000000 1700000000000 1720000000000
       eq_refl eq_refl eq_refl (conj eq_refl eq_refl)
       (conj (conj eq_refl eq_refl) eq_refl))))))) _ HP).
Defined.

(** ** Raster loads that fail *)

Local Open Scope string_scope.

Lemma option_eqb_eq {A : Type} (eqb : A -> A -> bool) (a b : option A) :
  (forall x y, eqb x y = true <-> x = y) -> option_eqb eqb a b = true <-> a = b.
Proof.
  intros H. destruct a as [x |], b as [y |]; cbn [option_eqb].
  - rewrite H. split; [now intros -> | now intros [= ->]].
  - split; discriminate.
  - split; discriminate.
  - split; reflexivity.
Qed.

Lemma time_value_eqb_eq (a b : time_value) : time_value_eqb a b = true <-> a = b.
Proof.
  destruct a as [x |], b as [y |]; cbn [time_value_eqb].
  - rewrite Z.eqb_eq. split; [now intros -> | now intros [= ->]].
  - split; discriminate.
  - split; discriminate.
  - split; reflexivity.
Qed.

Lemma resource_eqb_eq (a b : resource) : resource_eqb a b = true <-> a = b.
Proof.
  pose proof (fun x y => option_eqb_eq String.eqb x y String.eqb_eq) as S.
  pose proof (fun x y => option_eqb_eq time_value_eqb x y time_value_eqb_eq) as T.
  destruct a, b. unfold resource_eqb.
  cbn [format name url created last_modified res_description id displayName].
  rewrite !andb_true_iff, !S, !T. split.
  - intros [[[[[[[-> ->] ->] ->] ->] ->] ->] ->]. reflexivity.
  - intros [= -> -> -> -> -> -> -> ->]. repeat split.
Qed.

Lemma same_selection_eq (a b : option resource) :
  option_eqb resource_eqb a b = true <-> a = b.
Proof. apply option_eqb_eq, resource_eqb_eq. Qed.

(** The raster already selected is not loaded again; another one is. *)
Lemma select_raster_same {raster layer : Type} (st : state raster layer) :
  select_raster (selectedRaster st) st = st.
Proof.
  unfold select_raster.
  now rewrite (proj2 (same_selection_eq (selectedRaster st) (selectedRaster st)) eq_refl).
Qed.

Lemma select_raster_other {raster layer : Type} (st : state raster layer)
      (r : option resource) :
  selectedRaster st <> r ->
  select_raster r st = loadTiffData_begin r (setSelectedRaster r st).
Proof.
  intros H. unfold select_raster.
  destruct (option_eqb resource_eqb r (selectedRaster st)) eqn:E; [| reflexivity].
  apply same_selection_eq in E. congruence.
Qed.

(** What a change of the drop-down does: nothing; or, the control being
    enabled, it selects another raster and starts its load; or it clears
    the selection. *)
Lemma user_change_cases {raster layer : Type} (st : state raster layer) (rasterId : string) :
  user_change rasterId st = st \/
  (loading st = false /\
   exists r, selectedRaster st <> Some r /\
             user_change rasterId st
             = loadTiffData_begin (Some r) (setSelectedRaster (Some r) st)) \/
  (loading st = false /\ user_change rasterId st = setSelectedRaster None st).
Proof.
  unfold user_change, select_disabled.
  destruct (loading st) eqn:L; cbn [orb]; [now left |].
  destruct (match availableRasters st with [] => true | _ :: _ => false end); [now left |].
  unfold handleRasterChange.
  destruct (find _ (availableRasters st)) as [r |].
  - destruct (option_eqb resource_eqb (Some r) (selectedRaster st)) eqn:E.
    + left. unfold select_raster. now rewrite E.
    + right. left. split; [reflexivity |]. exists r.
      assert (N : selectedRaster st <> Some r).
      { intros H. rewrite H in E.
        now rewrite (proj2 (same_selection_eq (Some r) (Some r)) eq_refl) in E. }
      split; [exact N | now apply select_raster_other].
  - destruct (option_eqb resource_eqb None (selectedRaster st)) eqn:E.
    + left. unfold select_raster. now rewrite E.
    + right. right. split; [reflexivity |]. unfold select_raster. now rewrite E.
Qed.

Lemma settle_total {raster layer : Type} (G : raster -> option layer)
      (r : resource) (o : outcome raster) (st : state raster layer) :
  exists s, settle G r o st = Return s /\
            loading s = false /\ pending s = Nat.pred (pending st) /\
            availableRasters s = availableRasters st /\
            selectedRaster s = selectedRaster st.
Proof.
  unfold settle, loadTiffData_resume.
  destruct (fetch_and_decode o) as [g | m]; eexists; (split; [reflexivity |]);
    unfold tiff_effect;
    cbn [setLoading setTiffData set_pending map_mounted tiffData georaster];
    destruct (map_mounted st); try destruct (G g); repeat split.
Qed.

(** C8, as stated, fails on the error slot: when the decoder throws, the
    inner handler stores the message inside the placeholder record and the
    [error] state, cleared when the load began, stays [null]; the overlay
    attached before stays attached. *)
Lemma C8_error_slot_stays_empty :
  let st := run Some showing_b
                [Select raster_a; Settle raster_a (DecodeThrows "Invalid byte order value.")] in
  error st = None /\ retry_shown st = false /\
  option_map td_error (tiffData st) = Some (Some "Invalid byte order value.") /\
  currentLayer st = Some 2.
Proof. repeat split; vm_compute; reflexivity. Qed.

(** C8 (amended): when the bytes are fetched and the parser throws, the
    load of a newly selected raster ends normally in a placeholder record
    (no raster, the error's message inside the record), in the map
    component and in the geotiff variant alike; the observable error slot
    is not set and stays empty, so neither the error box nor its Retry
    button is shown; the loading indicator is cleared; no layer is created
    and the overlay attached before the load stays as it was; the
    drop-down is enabled again when there are rasters; choosing the failed
    raster again starts nothing, since it is still the selected one, and
    choosing another raster starts a load.  In the geotiff variant a file
    that parses and then cannot be rendered does set the error slot, to a
    fixed message, with the overlay attached before removed. *)
Theorem C8_failed_decode_leaves_placeholder (raster layer : Type)
        (GeoRasterLayer : raster -> option layer)
        (renderTiffOverlay_ends : raster -> render_outcome layer)
        (st : state raster layer) (r : resource) (message : string)
        (Hsel : selectedRaster st <> Some r) :
  (exists st2,
      settle GeoRasterLayer r (DecodeThrows message) (select_raster (Some r) st) = Return st2 /\
      settle_canvas renderTiffOverlay_ends r (DecodeThrows message)
                    (select_raster (Some r) st) = Return st2 /\
      tiffData st2 = Some {| georaster := None; info := r; placeholder := true;
                             isActualData := false; td_error := Some message |} /\
      error st2 = None /\ retry_shown st2 = false /\
      loading st2 = false /\
      currentLayer st2 = currentLayer st /\
      pending st2 = pending st /\
      selectedRaster st2 = Some r /\
      select_disabled st2 = match availableRasters st with [] => true | _ => false end /\
      select_raster (Some r) st2 = st2 /\
      forall r', r' <> r ->
                 loading (select_raster (Some r') st2) = true /\
                 pending (select_raster (Some r') st2) = S (pending st2)) /\
  (forall g attached,
      map_mounted st = true ->
      renderTiffOverlay_ends g = Threw attached ->
      exists st3,
        settle_canvas renderTiffOverlay_ends r (Decoded g) (select_raster (Some r) st)
        = Return st3 /\
        error st3
        = Some "Could not render the selected raster. It may be in an unsupported format." /\
        retry_shown st3 = true /\ loading st3 = false /\
        currentLayer st3 = attached /\
        option_map georaster (tiffData st3) = Some (Some g)).
Proof.
  rewrite (select_raster_other st (Some r) Hsel). split.
  - eexists. split; [reflexivity |]. split.
    { unfold settle_canvas, canvas_effect, tiff_effect. cbn.
      destruct (map_mounted st); reflexivity. }
    unfold tiff_effect. cbn.
    destruct (map_mounted st); cbn;
      (repeat (split; [reflexivity |]));
      (split;
       [ match goal with |- select_raster (Some r) ?s = _ =>
           exact (select_raster_same s) end
       | intros r' Hr';
         match goal with |- context [select_raster (Some r') ?s] =>
           rewrite (select_raster_other s (Some r')) by (cbn; congruence) end;
         split; reflexivity ]).
  - intros g attached Hm Hr. eexists. split; [reflexivity |].
    unfold canvas_effect. cbn. rewrite Hm. cbn. rewrite Hr. cbn. repeat split.
Qed.

Lemma C8_witness :
  exists st2,
    settle Some raster_a (DecodeThrows "Invalid byte order value.")
           (select_raster (Some raster_a) showing_b) = Return st2 /\
    error st2 = None /\ retry_shown st2 = false /\ currentLayer st2 = Some 2 /\
    select_raster (Some raster_a) st2 = st2.
Proof.
  destruct (proj1 (C8_failed_decode_leaves_placeholder Z Z Some (fun g => Attached g)
                     showing_b raster_a "Invalid byte order value."
                     ltac:(discriminate)))
    as (st2 & E & _ & _ & He & Hr & _ & Hl & _ & _ & _ & Hs & _).
  exists st2. repeat split; assumption.
Defined.

(** ** Overlay replacement *)



Local Close Scope string_scope.

(** * Further properties of the code *)

(** ** The canvas image *)


Lemma typed_set_length (data : list Z) (j : nat) (v : Z) :
  List.length (typed_set data j v) = List.length data.
Proof.
  revert j. induction data as [| d rest IH]; intros j; [reflexivity |].
  destruct j; cbn [typed_set List.length]; [reflexivity | now rewrite IH].
Qed.

Lemma typed_set_app (prefix l : list Z) (t : nat) (v : Z) :
  typed_set (prefix ++ l) (List.length prefix + t) v = prefix ++ typed_set l t v.
Proof.
  induction prefix as [| d rest IH]; [reflexivity |].
  cbn [List.length app Nat.add typed_set]. now rewrite IH.
Qed.

Lemma typed_set_outside (data : list Z) (j : nat) (v : Z) :
  (List.length data <= j)%nat -> typed_set data j v = data.
Proof.
  revert j. induction data as [| d rest IH]; intros j H; [reflexivity |].
  destruct j; cbn [List.length] in H; [lia |].
  cbn [typed_set]. rewrite IH by lia. reflexivity.
Qed.

Lemma canvas_rgba_cases (v : pixel) :
  (canvas_color v = None /\ canvas_rgba v = [0; 0; 0; 0]) \/
  exists r g b, canvas_color v = Some (r, g, b) /\ canvas_rgba v = [r; g; b; alpha70].
Proof.
  unfold canvas_rgba, canvas_step.
  destruct (canvas_color v) as [[[r g] b] |].
  - right. exists r, g, b. split; reflexivity.
  - left. split; reflexivity.
Qed.

(** One step of the loop on a pixel that is still blank. *)
Lemma canvas_step_blank (v : pixel) (i : nat) (prefix rest : list Z) :
  List.length prefix = (i * 4)%nat ->
  canvas_step v i (prefix ++ [0; 0; 0; 0] ++ rest) = prefix ++ canvas_rgba v ++ rest.
Proof.
  intros Hp. unfold canvas_rgba, canvas_step. rewrite <- Hp.
  destruct (canvas_color v) as [[[r g] b] |].
  - replace (List.length prefix) with (List.length prefix + 0)%nat at 1 by lia.
    rewrite !typed_set_app. reflexivity.
  - rewrite typed_set_app. reflexivity.
Qed.

Lemma canvas_step_outside (v : pixel) (i : nat) (data : list Z) :
  (List.length data <= i * 4)%nat -> canvas_step v i data = data.
Proof.
  intros H. unfold canvas_step.
  destruct (canvas_color v) as [[[r g] b] |];
    rewrite ?typed_set_outside; rewrite ?typed_set_length; try lia; reflexivity.
Qed.

Lemma canvas_loop_outside (rasters : list number) (i : nat) (data : list Z) :
  (List.length data <= i * 4)%nat -> canvas_loop rasters i data = data.
Proof.
  revert i. induction rasters as [| v rest IH]; intros i H; cbn [canvas_loop]; [reflexivity |].
  rewrite canvas_step_outside by lia. apply IH. lia.
Qed.


Lemma canvas_rgba_length (v : pixel) : List.length (canvas_rgba v) = 4%nat.
Proof.
  destruct (canvas_rgba_cases v) as [[_ ->] | (r & g & b & _ & ->)]; reflexivity.
Qed.

Lemma painted_length (rasters : list number) :
  List.length (painted rasters) = (List.length rasters * 4)%nat.
Proof.
  induction rasters as [| v rest IH]; [reflexivity |].
  unfold painted in *. cbn [map List.concat List.length]. rewrite List.length_app, canvas_rgba_length, IH. lia.
Qed.

Lemma canvas_loop_blank (rasters : list number) (i k : nat) (prefix : list Z) :
  List.length prefix = (i * 4)%nat ->
  canvas_loop rasters i (prefix ++ repeat 0 (k * 4))
  = prefix ++ painted (firstn k rasters) ++ repeat 0 ((k - List.length rasters) * 4).
Proof.
  revert i k prefix. induction rasters as [| v rest IH]; intros i k prefix Hp.
  - cbn [canvas_loop]. rewrite firstn_nil. cbn [List.length painted map List.concat app].
    now rewrite Nat.sub_0_r.
  - cbn [canvas_loop]. destruct k as [| k].
    + cbn [repeat Nat.mul firstn painted map List.concat Nat.sub app]. rewrite app_nil_r.
      rewrite canvas_step_outside by lia. apply canvas_loop_outside. lia.
    + cbn [Nat.mul Nat.add repeat]. 
      change (0 :: 0 :: 0 :: 0 :: repeat 0 (k * 4)) with ([0; 0; 0; 0] ++ repeat 0 (k * 4)).
      rewrite canvas_step_blank by assumption.
      rewrite app_assoc. rewrite IH.
      * cbn [firstn List.length Nat.sub]. unfold painted. cbn [map List.concat].
        rewrite <- !app_assoc. reflexivity.
      * rewrite List.length_app, canvas_rgba_length. lia.
Qed.

Lemma render_image_eq (rasters : list number) (width height : nat) :
  renderTiffOverlay rasters width height
  = painted (firstn (width * height) rasters)
    ++ repeat 0 ((width * height - List.length rasters) * 4).
Proof.
  unfold renderTiffOverlay.
  apply (canvas_loop_blank rasters 0 (width * height) []). reflexivity.
Qed.

Lemma skipn_repeat {A : Type} (x : A) (n m : nat) :
  skipn n (repeat x m) = repeat x (m - n).
Proof.
  revert n. induction m as [| m IH]; intros n.
  - now rewrite skipn_nil.
  - destruct n; [reflexivity |]. cbn [repeat skipn Nat.sub]. apply IH.
Qed.

Lemma rgba_at_painted (l : list number) (tail : list Z) (p : nat) :
  (p < List.length l)%nat ->
  rgba_at (painted l ++ tail) p = canvas_rgba (PNum (nth p l NaN)).
Proof.
  revert p. induction l as [| v rest IH]; intros p Hp; cbn [List.length] in Hp; [lia |].
  unfold rgba_at, painted in *. cbn [map List.concat].
  assert (E : exists a b c d, canvas_rgba (PNum v) = [a; b; c; d]).
  { destruct (canvas_rgba_cases (PNum v)) as [[_ E] | (r & g & b & _ & E)]; rewrite E;
      repeat eexists. }
  destruct E as (a & b & c & d & E). cbn [nth]. 
  destruct p as [| p].
  - rewrite E. reflexivity.
  - rewrite E. rewrite <- (IH p) by lia. reflexivity.
Qed.

Lemma nth_firstn_lt {A : Type} (l : list A) (k p : nat) (d : A) :
  (p < k)%nat -> nth p (firstn k l) d = nth p l d.
Proof.
  revert k p. induction l as [| x rest IH]; intros k p H.
  - now rewrite firstn_nil.
  - destruct k; [lia |]. destruct p; [reflexivity |]. cbn [firstn nth]. apply IH. lia.
Qed.

Lemma render_pixel_sample (rasters : list number) (width height p : nat) :
  (p < width * height)%nat -> (p < List.length rasters)%nat ->
  rgba_at (renderTiffOverlay rasters width height) p
  = canvas_rgba (PNum (nth p rasters NaN)).
Proof.
  intros H1 H2. rewrite render_image_eq, rgba_at_painted.
  - now rewrite nth_firstn_lt.
  - rewrite length_firstn. lia.
Qed.

Lemma render_pixel_blank (rasters : list number) (width height p : nat) :
  (p < width * height)%nat -> (List.length rasters <= p)%nat ->
  rgba_at (renderTiffOverlay rasters width height) p = [0; 0; 0; 0].
Proof.
  intros H1 H2. rewrite render_image_eq. unfold rgba_at.
  rewrite (firstn_all2 rasters) by lia.
  rewrite skipn_app, painted_length.
  rewrite skipn_all2 by (rewrite painted_length; lia).
  rewrite skipn_repeat. cbn [app].
  replace ((width * height - List.length rasters) * 4 - (p * 4 - List.length rasters * 4))%nat
    with (S (width * height - S p) * 4)%nat by lia.
  reflexivity.
Qed.

(** ** Samples without data *)

(** C2: a sample that is [undefined], [null], NaN or a number strictly
    below -2.0 gives a fully transparent pixel, and no palette colour.
    The raster layer's colour function returns [null] for each of them.
    The canvas loop reads its samples from the typed array of
    [readRasters], which holds numbers and no [null]: for NaN and for
    every number strictly below -2.0 (and for [undefined], which it tests
    too) it selects no colour and stores alpha 0, and only alpha; and in
    the image it paints, the pixel of such a sample is four zero bytes. *)
Theorem C2_no_data_is_transparent (v : pixel) (H : no_data v) :
  (forall rest, pixelValuesToColorFn (v :: rest) = RNull) /\
  (v <> PNull ->
   canvas_color v = None /\
   canvas_rgba v = [0; 0; 0; 0] /\
   forall i data, canvas_step v i data = typed_set data (i * 4 + 3) 0) /\
  (forall x rasters width height p,
      v = PNum x -> (p < width * height)%nat -> nth_error rasters p = Some x ->
      rgba_at (renderTiffOverlay rasters width height) p = [0; 0; 0; 0]).
Proof.
  assert (K : v <> PNull ->
              canvas_color v = None /\
              canvas_rgba v = [0; 0; 0; 0] /\
              forall i data, canvas_step v i data = typed_set data (i * 4 + 3) 0).
  { intros Hn. pose proof (canvas_no_data v H Hn) as Hc. split; [exact Hc |]. split.
    - unfold canvas_rgba, canvas_step. now rewrite Hc.
    - intros i data. unfold canvas_step. now rewrite Hc. }
  split; [| split; [exact K |]].
  - intros rest. now apply layer_no_data.
  - intros x rasters width height p -> Hp Hx.
    assert (Hlen : (p < List.length rasters)%nat).
    { apply nth_error_Some. rewrite Hx. discriminate. }
    rewrite (render_pixel_sample rasters width height p Hp Hlen).
    rewrite (nth_error_nth rasters p NaN Hx).
    apply K. discriminate.
Qed.

Lemma C2_witness :
  no_data (PNum (of_Z (-3))) /\
  pixelValuesToColorFn [PNum (of_Z (-3))] = RNull /\
  canvas_color (PNum (of_Z (-3))) = None /\
  rgba_at (renderTiffOverlay [of_Z 0; of_Z (-3)] 2 1) 1 = [0; 0; 0; 0].
Proof.
  assert (H : no_data (PNum (of_Z (-3)))).
  { right; right. exists (of_Z (-3)). split; [reflexivity | right; vm_compute; reflexivity]. }
  split; [exact H |].
  destruct (C2_no_data_is_transparent _ H) as (HA & HB & HC).
  split; [apply HA |]. split; [apply HB; discriminate |].
  apply (HC (of_Z (-3)) [of_Z 0; of_Z (-3)] 2%nat 1%nat 1%nat); [reflexivity | cbn; lia | reflexivity].
Defined.

(** X1: the image the canvas overlay paints has four bytes per pixel of
    the raster; pixel [p] is painted from sample [p] of the interleaved
    samples alone; a pixel for which there is no sample keeps its four
    zero bytes (transparent black); and samples beyond the last pixel,
    as the further bands of a multi-band raster give, change nothing. *)
Theorem canvas_image_layout (rasters : list number) (width height : nat) :
  let image := renderTiffOverlay rasters width height in
  List.length image = (width * height * 4)%nat /\
  (forall p, (p < width * height)%nat -> (p < List.length rasters)%nat ->
             rgba_at image p = canvas_rgba (PNum (nth p rasters NaN))) /\
  (forall p, (p < width * height)%nat -> (List.length rasters <= p)%nat ->
             rgba_at image p = [0; 0; 0; 0]) /\
  (forall extra, (width * height <= List.length rasters)%nat ->
                 renderTiffOverlay (rasters ++ extra) width height = image).
Proof.
  cbv zeta. split; [| split; [| split]].
  - rewrite render_image_eq.
    rewrite List.length_app, painted_length, repeat_length, length_firstn. lia.
  - apply render_pixel_sample.
  - apply render_pixel_blank.
  - intros extra H. rewrite !render_image_eq.
    rewrite firstn_app. rewrite List.length_app.
    replace (width * height - List.length rasters)%nat with 0%nat by lia.
    replace (width * height - (List.length rasters + List.length extra))%nat with 0%nat by lia.
    rewrite firstn_O, !app_nil_r. reflexivity.
Qed.

Lemma array_get_In {A : Type} (arr : list A) (x : number) (a : A) :
  array_get arr x = Some a -> In a arr.
Proof.
  unfold array_get. destruct (integer_value x) as [i |]; [| discriminate].
  destruct ((0 <=? i) && (i <? Z.of_nat (List.length arr))); [| discriminate].
  apply nth_error_In.
Qed.

Lemma colorRamp_bytes :
  Forall (fun o => match o with
                   | Some (r, g, b) => byte r /\ byte g /\ byte b
                   | None => True
                   end) colorRamp.
Proof.
  unfold byte. repeat constructor; vm_compute; intros; discriminate.
Qed.

Lemma canvas_color_bytes (v : pixel) (r g b : Z) :
  canvas_color v = Some (r, g, b) -> byte r /\ byte g /\ byte b.
Proof.
  unfold canvas_color.
  destruct (_ || _ || _); [discriminate |].
  destruct (array_get colorRamp _) as [[color |] |] eqn:E; try discriminate.
  intros H. injection H as ->. apply array_get_In in E.
  pose proof colorRamp_bytes as F. rewrite Forall_forall in F. exact (F _ E).
Qed.

(** X2: every value the canvas loop stores is a byte, so no store is
    clamped, and every pixel of the image is either fully transparent or
    has alpha 178 (70% of 255): the overlay has no other opacity. *)
Theorem canvas_image_bytes (rasters : list number) (width height : nat) :
  Forall byte (renderTiffOverlay rasters width height) /\
  forall p, (p < width * height)%nat ->
            exists r g b a,
              rgba_at (renderTiffOverlay rasters width height) p = [r; g; b; a] /\
              (a = 0 \/ a = 178).
Proof.
  split.
  - rewrite render_image_eq. apply Forall_app. split.
    + unfold painted. apply Forall_concat. apply Forall_map. apply Forall_forall.
      intros v _.
      destruct (canvas_rgba_cases (PNum v)) as [[_ ->] | (r & g & b & C & ->)].
      * unfold byte. repeat constructor; lia.
      * destruct (canvas_color_bytes _ _ _ _ C) as (Hr & Hg & Hb).
        assert (A : alpha70 = 178) by (vm_compute; reflexivity). rewrite A.
        constructor; [exact Hr |]. constructor; [exact Hg |]. constructor; [exact Hb |].
        constructor; [unfold byte; lia | constructor].
    + apply Forall_forall. intros z Hz. apply repeat_spec in Hz. subst z. unfold byte. lia.
  - intros p Hp.
    destruct (Nat.lt_ge_cases p (List.length rasters)) as [Hlt | Hge].
    + rewrite (render_pixel_sample rasters width height p Hp Hlt).
      destruct (canvas_rgba_cases (PNum (nth p rasters NaN))) as [[_ ->] | (r & g & b & _ & ->)].
      * exists 0, 0, 0, 0. split; [reflexivity | now left].
      * exists r, g, b, alpha70. split; [reflexivity | right; vm_compute; reflexivity].
    + rewrite (render_pixel_blank rasters width height p Hp Hge). exists 0, 0, 0, 0. split; [reflexivity | now left].
Qed.

(** X3: every sample above 0.2, plus infinity included, is drawn in the
    last colour of the palette by both renderers: the layer's function
    returns #581C87 and the canvas loop paints (88, 28, 135) at alpha
    178. *)
Theorem above_max_is_last_colour (x : number) (H : lt Ramp.max x = true) :
  (forall rest, pixelValuesToColorFn (PNum x :: rest) = RColor "#581C87") /\
  canvas_rgba (PNum x) = [88; 28; 135; 178].
Proof.
  assert (Hc : SFcompare Ramp.max x = Some Lt).
  { unfold lt, SFltb in H. destruct (SFcompare Ramp.max x) as [[ | | ] |]; try discriminate.
    reflexivity. }
  assert (Hnan : isNaN x = false).
  { destruct x; try reflexivity. rewrite Ramp_max_eq in Hc. discriminate. }
  assert (Hlt : lt x Ramp.min = false).
  { rewrite Ramp_max_eq in Hc. rewrite Ramp_min_eq. unfold cmax in Hc. unfold lt, SFltb, cmin.
    destruct x as [s | s | | s m e]; try discriminate.
    - destruct s; [discriminate | reflexivity].
    - destruct s; [discriminate | reflexivity]. }
  assert (Hmin : Math_min Ramp.max x = Ramp.max).
  { unfold Math_min. now rewrite Hc. }
  split.
  - intros rest. unfold pixelValuesToColorFn, first_band.
    rewrite Hnan, Hlt, Hmin. vm_compute. reflexivity.
  - apply canvas_rgba_painted.
    unfold canvas_color, ToNumber. rewrite Hnan, Hlt, Hmin. vm_compute. reflexivity.
Qed.

(** X4: the layer's colour function never reads outside the palette:
    for every array of band values, empty or not, whose first entry, if a
    number, is a binary64 value, it returns null or one of the ten palette
    colours, never [undefined]. *)
Theorem layer_never_undefined (values : list pixel) (H : well_formed (first_band values)) :
  pixelValuesToColorFn values = RNull \/
  exists c, In c purpleGradientColors /\ pixelValuesToColorFn values = RColor c.
Proof.
  destruct values as [| v rest]; [left; reflexivity |].
  cbn [first_band] in H. destruct v as [| | x]; [left; reflexivity | left; reflexivity |].
  cbn [well_formed] in H.
  destruct (isNaN x) eqn:Hnan.
  { left. apply layer_no_data. right; right; exists x; auto. }
  destruct (lt x Ramp.min) eqn:Hlt.
  { left. apply layer_no_data. right; right; exists x; auto. }
  right. destruct (both_select x H Hnan Hlt) as (_ & c & rgb & P1 & _ & P3 & _).
  exists c. split; [now apply nth_error_In in P1 | apply P3].
Qed.

Lemma above_max_is_last_colour_witness :
  lt Ramp.max (S754_infinity false) = true /\
  pixelValuesToColorFn [PNum (S754_infinity false)] = RColor "#581C87" /\
  canvas_rgba (PNum (S754_infinity false)) = [88; 28; 135; 178].
Proof.
  assert (H : lt Ramp.max (S754_infinity false) = true) by (vm_compute; reflexivity).
  split; [exact H |].
  destruct (above_max_is_last_colour (S754_infinity false) H) as [A B].
  split; [apply A | exact B].
Defined.

Lemma layer_never_undefined_witness :
  pixelValuesToColorFn [PNum (decimal (-178) 2); PNull] = RNull \/
  exists c, In c purpleGradientColors /\
            pixelValuesToColorFn [PNum (decimal (-178) 2); PNull] = RColor c.
Proof.
  apply (layer_never_undefined [PNum (decimal (-178) 2); PNull]).
  vm_compute. reflexivity.
Defined.

(** *** The two renderers on a single-band raster *)

Lemma alpha70_eq : alpha70 = 178.
Proof. vm_compute. reflexivity. Qed.

(** X5: on a raster with one band whose samples are binary64 values, one
    per pixel, the canvas image and the layer's colour function agree at
    every pixel: where the layer's function returns null the pixel's four
    bytes are 0, and where it returns a palette colour the pixel holds the
    red, green and blue of that colour and alpha 178. *)
Theorem single_band_images_agree (rasters : list number) (width height p : nat)
        (Hv : Forall (fun x => valid_binary prec emax x = true) rasters)
        (Hlen : List.length rasters = (width * height)%nat)
        (Hp : (p < width * height)%nat) :
  let v := PNum (nth p rasters NaN) in
  let px := rgba_at (renderTiffOverlay rasters width height) p in
  (pixelValuesToColorFn [v] = RNull /\ px = [0; 0; 0; 0]) \/
  exists c r g b,
    In c purpleGradientColors /\
    pixelValuesToColorFn [v] = RColor c /\
    hexToRgb c = Some (r, g, b) /\
    px = [r; g; b; 178].
Proof.
  cbv zeta. rewrite render_pixel_sample by lia.
  set (x := nth p rasters NaN).
  assert (Hx : valid_binary prec emax x = true).
  { rewrite Forall_forall in Hv. apply Hv. apply nth_In. lia. }
  destruct (isNaN x) eqn:Hnan; [| destruct (lt x Ramp.min) eqn:Hlt].
  - left.
    assert (N : no_data (PNum x)) by (right; right; exists x; auto).
    split; [now apply layer_no_data |].
    unfold canvas_rgba, canvas_step. rewrite canvas_no_data by (auto; discriminate).
    reflexivity.
  - left.
    assert (N : no_data (PNum x)) by (right; right; exists x; auto).
    split; [now apply layer_no_data |].
    unfold canvas_rgba, canvas_step. rewrite canvas_no_data by (auto; discriminate).
    reflexivity.
  - right. destruct (both_select x Hx Hnan Hlt) as (_ & c & [[r g] b] & Hc & Hh & HL & HC).
    exists c, r, g, b. split; [now apply nth_error_In in Hc |].
    split; [apply HL |]. split; [exact Hh |].
    rewrite (canvas_rgba_painted _ _ _ _ HC), alpha70_eq. reflexivity.
Qed.

Lemma single_band_images_agree_witness :
  let rasters := [decimal 1 1; of_Z (-3)] in
  let v := PNum (nth 0 rasters NaN) in
  let px := rgba_at (renderTiffOverlay rasters 2 1) 0 in
  (pixelValuesToColorFn [v] = RNull /\ px = [0; 0; 0; 0]) \/
  exists c r g b,
    In c purpleGradientColors /\
    pixelValuesToColorFn [v] = RColor c /\
    hexToRgb c = Some (r, g, b) /\
    px = [r; g; b; 178].
Proof.
  apply (single_band_images_agree [decimal 1 1; of_Z (-3)] 2 1 0).
  - repeat constructor.
  - reflexivity.
  - cbn; lia.
Defined.

(** *** [hexToRgb] *)

Lemma hex_digit_range (c : ascii) (d : Z) : hex_digit c = Some d -> 0 <= d <= 15.
Proof.
  unfold hex_digit.
  set (n := Z.of_nat (nat_of_ascii c)).
  destruct (Z.leb_spec 48 n), (Z.leb_spec n 57), (Z.leb_spec 97 n), (Z.leb_spec n 102),
    (Z.leb_spec 65 n), (Z.leb_spec n 70); cbn [andb]; intros E;
    try discriminate E; injection E as <-; lia.
Qed.

Lemma hex_pair_range (a b : ascii) (v : Z) : hex_pair a b = Some v -> byte v.
Proof.
  unfold hex_pair, byte.
  destruct (hex_digit a) as [x |] eqn:Ha; [| discriminate].
  destruct (hex_digit b) as [y |] eqn:Hb; [| discriminate].
  apply hex_digit_range in Ha. apply hex_digit_range in Hb.
  intros E. assert (E' : v = 16 * x + y) by congruence. lia.
Qed.

Lemma hex_digit_lower (c : ascii) : hex_digit (lower_char c) = hex_digit c.
Proof. destruct c as [[] [] [] [] [] [] [] []]; vm_compute; reflexivity. Qed.

Lemma hex_pair_lower (a b : ascii) : hex_pair (lower_char a) (lower_char b) = hex_pair a b.
Proof. unfold hex_pair. now rewrite !hex_digit_lower. Qed.

(** Without a leading [#] the whole string is matched against the six
    digits. *)
Lemma hexToRgb_hash (c : ascii) (rest : string) :
  c <> "#"%char -> hexToRgb (String "#" (String c rest)) = hexToRgb (String c rest).
Proof.
  destruct c as [[] [] [] [] [] [] [] []]; intros H; try reflexivity.
  now contradiction H.
Qed.

Lemma hex_digit_not_hash (c : ascii) (d : Z) : hex_digit c = Some d -> c <> "#"%char.
Proof. intros H ->. vm_compute in H. discriminate H. Qed.

(** X6: when [hexToRgb] accepts a string, the three components are bytes,
    the string is six hexadecimal digits, after a [#] or bare, and the
    result does not depend on the case of the digits nor on the [#]. *)
Theorem hexToRgb_accepts (hex : string) (r g b : Z) (H : hexToRgb hex = Some (r, g, b)) :
  (byte r /\ byte g /\ byte b) /\
  (exists r1 r2 g1 g2 b1 b2,
      let body := String r1 (String r2 (String g1 (String g2 (String b1 (String b2 EmptyString))))) in
      (hex = body \/ hex = String "#" body) /\
      hex_pair r1 r2 = Some r /\ hex_pair g1 g2 = Some g /\ hex_pair b1 b2 = Some b /\
      hexToRgb body = Some (r, g, b) /\ hexToRgb (String "#" body) = Some (r, g, b)) /\
  hexToRgb (toLowerCase hex) = Some (r, g, b).
Proof.
  assert (K : forall body,
             hexToRgb (String "#" body) = Some (r, g, b) ->
             exists r1 r2 g1 g2 b1 b2,
               body = String r1 (String r2 (String g1 (String g2 (String b1 (String b2 EmptyString))))) /\
               hex_pair r1 r2 = Some r /\ hex_pair g1 g2 = Some g /\ hex_pair b1 b2 = Some b).
  { intros body Hb. change (hexToRgb (String "#" body)) with
      (match body with
       | String r1 (String r2 (String g1 (String g2 (String b1 (String b2 EmptyString))))) =>
           match hex_pair r1 r2, hex_pair g1 g2, hex_pair b1 b2 with
           | Some r, Some g, Some b => Some (r, g, b)
           | _, _, _ => None
           end
       | _ => None
       end) in Hb.
    destruct body as [| r1 [| r2 [| g1 [| g2 [| b1 [| b2 [| ? ?]]]]]]]; try discriminate Hb.
    destruct (hex_pair r1 r2) as [r' |] eqn:E1; [| discriminate Hb].
    destruct (hex_pair g1 g2) as [g' |] eqn:E2; [| discriminate Hb].
    destruct (hex_pair b1 b2) as [b' |] eqn:E3; [| discriminate Hb].
    injection Hb as -> -> ->. exists r1, r2, g1, g2, b1, b2. auto. }
  assert (L : exists r1 r2 g1 g2 b1 b2,
             let body := String r1 (String r2 (String g1 (String g2 (String b1 (String b2 EmptyString))))) in
             (hex = body \/ hex = String "#" body) /\
             hex_pair r1 r2 = Some r /\ hex_pair g1 g2 = Some g /\ hex_pair b1 b2 = Some b /\
             hexToRgb (String "#" body) = Some (r, g, b) /\ r1 <> "#"%char).
  { destruct hex as [| c rest]; [discriminate H |].
    destruct (Ascii.eqb_spec c "#") as [-> | Hc].
    - destruct (K rest H) as (r1 & r2 & g1 & g2 & b1 & b2 & -> & E1 & E2 & E3).
      exists r1, r2, g1, g2, b1, b2. cbv zeta. repeat split; auto.
      unfold hex_pair in E1. destruct (hex_digit r1) eqn:D; [| discriminate E1].
      now apply hex_digit_not_hash in D.
    - rewrite <- (hexToRgb_hash c rest Hc) in H.
      destruct (K _ H) as (r1 & r2 & g1 & g2 & b1 & b2 & E & E1 & E2 & E3).
      exists r1, r2, g1, g2, b1, b2. cbv zeta. rewrite <- E. repeat split; auto.
      injection E as -> _. exact Hc. }
  destruct L as (r1 & r2 & g1 & g2 & b1 & b2 & L). cbv zeta in L.
  destruct L as (Hhex & E1 & E2 & E3 & Hh & Hne).
  split; [| split].
  - repeat split; eapply hex_pair_range; eauto.
  - exists r1, r2, g1, g2, b1, b2. cbv zeta. rewrite <- (hexToRgb_hash r1 _ Hne).
    repeat split; auto.
  - assert (Hl : hexToRgb (String "#" (toLowerCase
               (String r1 (String r2 (String g1 (String g2 (String b1 (String b2 EmptyString))))))))
               = Some (r, g, b)).
    { cbn [toLowerCase].
      change (hexToRgb (String "#" ?s)) with (hexToRgb (String "#" s)).
      unfold hexToRgb. rewrite !hex_pair_lower, E1, E2, E3. reflexivity. }
    destruct Hhex as [-> | ->].
    + cbn [toLowerCase] in Hl |- *. rewrite hexToRgb_hash in Hl; [exact Hl |].
      unfold hex_pair in E1. rewrite <- (hex_digit_lower r1) in E1.
      destruct (hex_digit (lower_char r1)) eqn:D; [| discriminate E1].
      now apply hex_digit_not_hash in D.
    + exact Hl.
Qed.

Lemma hexToRgb_accepts_witness :
  (byte 88 /\ byte 28 /\ byte 135) /\ hexToRgb (toLowerCase "#581C87") = Some (88, 28, 135).
Proof.
  destruct (hexToRgb_accepts "#581C87" 88 28 135) as (B & _ & L).
  - vm_compute. reflexivity.
  - exact (conj B L).
Defined.

(** *** The shape of a legend number *)

Lemma string_length_append (a b : string) :
  String.length (a ++ b) = (String.length a + String.length b)%nat.
Proof. induction a as [| c a IH]; cbn; [reflexivity | now rewrite IH]. Qed.

Lemma zeros_length (n : nat) : String.length (zeros n) = n.
Proof. induction n as [| n IH]; cbn; [reflexivity | now rewrite IH]. Qed.

Lemma zeros_digits (n : nat) : all_digits (zeros n) = true.
Proof. induction n as [| n IH]; [reflexivity | exact IH]. Qed.

Lemma append_digits (a b : string) :
  all_digits a = true -> all_digits b = true -> all_digits (a ++ b) = true.
Proof.
  intros Ha Hb. induction a as [| c a IH]; [exact Hb |].
  cbn [append all_digits] in *. destruct (digit_val c); [auto | discriminate].
Qed.

Lemma substring_length (s : string) (n m : nat) :
  (n + m <= String.length s)%nat -> String.length (substring n m s) = m.
Proof.
  revert n m. induction s as [| c s IH]; intros n m H; cbn [String.length] in H.
  - assert (n = 0%nat /\ m = 0%nat) as [-> ->] by lia. reflexivity.
  - destruct n as [| n]; cbn [substring].
    + destruct m as [| m]; [reflexivity |]. cbn [String.length]. rewrite IH; lia.
    + apply IH. lia.
Qed.

Lemma substring_digits (s : string) (n m : nat) :
  all_digits s = true -> all_digits (substring n m s) = true.
Proof.
  revert n m. induction s as [| c s IH]; intros n m H.
  - destruct n, m; reflexivity.
  - cbn [all_digits] in H. destruct (digit_val c) eqn:D; [| discriminate].
    destruct n as [| n]; cbn [substring].
    + destruct m as [| m]; [reflexivity |]. cbn [all_digits]. rewrite D. now apply IH.
    + now apply IH.
Qed.

Lemma digits_of_digits (n : Z) : all_digits (digits_of n) = true.
Proof.
  unfold digits_of. generalize (N.to_uint (Z.to_N n)). intros u.
  assert (E : all_digits (NilEmpty.string_of_uint u) = true)
    by (induction u; cbn; auto).
  destruct u; exact E.
Qed.

(** X7: a number that [toFixed] writes in fixed notation (magnitude below
    10^21, zero included) is shown in the legend as an optional minus
    sign, at least one digit, a point and exactly three digits, whatever
    the host's general number printing is. *)
Theorem legend_number_three_decimals (Number_toString : number -> string) (x : number)
        (H : fixed_notation x = true) :
  exists sign whole frac,
    formatLegendNumber Number_toString (JNum x) = (sign ++ whole ++ "." ++ frac)%string /\
    (sign = EmptyString \/ sign = "-"%string) /\
    (1 <= String.length whole)%nat /\ all_digits whole = true /\
    String.length frac = 3%nat /\ all_digits frac = true.
Proof.
  destruct x as [s | s | | s m e]; try discriminate H.
  - exists EmptyString, "0"%string, "000"%string. repeat split; auto.
  - unfold fixed_notation in H.
    unfold formatLegendNumber, parseFloat, isNaN, toFixed3.
    set (big := if 0 <=? e then 10 ^ 21 <=? Zpos m * 2 ^ e
                else 10 ^ 21 * 2 ^ (- e) <=? Zpos m) in *.
    destruct big; [discriminate H |].
    set (n := if 0 <=? e then Zpos m * 2 ^ e * 1000
              else (2000 * Zpos m + 2 ^ (- e)) / 2 ^ (1 - e)).
    set (ds := (zeros (4 - String.length (digits_of n)) ++ digits_of n)%string).
    assert (Hl : (4 <= String.length ds)%nat).
    { unfold ds. rewrite string_length_append, zeros_length. lia. }
    assert (Hd : all_digits ds = true).
    { unfold ds. apply append_digits; [apply zeros_digits | apply digits_of_digits]. }
    exists (if s then "-"%string else EmptyString),
      (substring 0 (String.length ds - 3) ds), (substring (String.length ds - 3) 3 ds).
    split; [reflexivity |].
    split; [destruct s; auto |].
    split; [rewrite substring_length; lia |].
    split; [now apply substring_digits |].
    split; [rewrite substring_length; lia | now apply substring_digits].
Qed.

Lemma legend_number_three_decimals_witness :
  exists sign whole frac,
    formatLegendNumber (fun _ => EmptyString) (JNum (decimal (-178) 2))
    = (sign ++ whole ++ "." ++ frac)%string /\
    (sign = EmptyString \/ sign = "-"%string) /\
    (1 <= String.length whole)%nat /\ all_digits whole = true /\
    String.length frac = 3%nat /\ all_digits frac = true.
Proof.
  apply (legend_number_three_decimals (fun _ => EmptyString) (decimal (-178) 2)).
  vm_compute. reflexivity.
Defined.

(** *** Display bounds *)

Lemma extent_geographic (g : bounds) : isGeographic (extent (displayBounds g)) = true.
Proof.
  unfold displayBounds. destruct (isGeographic g) eqn:G; cbn [extent].
  - now rewrite bounds_eta.
  - vm_compute. reflexivity.
Qed.

(** X8: the extent stored for display is always geographic, so classifying
    it again never falls back; a geographic box is stored as it is; a box
    with a NaN coordinate is treated as projected: it is displayed at the
    fixed Gulf box and kept in [originalBounds]. *)
Theorem display_extent_is_geographic (g : bounds) :
  isGeographic (extent (displayBounds g)) = true /\
  displayBounds (extent (displayBounds g))
  = {| extent := extent (displayBounds g); isProjected := false; originalBounds := None |} /\
  (isGeographic g = true -> extent (displayBounds g) = g) /\
  (isNaN (xmin g) = true \/ isNaN (xmax g) = true \/
   isNaN (ymin g) = true \/ isNaN (ymax g) = true ->
   displayBounds g
   = {| extent := fallback_bounds; isProjected := true; originalBounds := Some g |}).
Proof.
  pose proof (extent_geographic g) as A.
  split; [exact A |]. split; [| split].
  - unfold displayBounds at 1. rewrite A. now rewrite bounds_eta.
  - intros G. unfold displayBounds. rewrite G. cbn [extent]. apply bounds_eta.
  - intros N.
    assert (G : isGeographic g = false).
    { unfold isGeographic, ge, le, SFleb.
      destruct g as [a b c d]; cbn [xmin xmax ymin ymax] in *.
      destruct N as [N | [N | [N | N]]].
      - destruct a; try discriminate N.
        replace (SFcompare (of_Z (-180)) S754_nan) with (@None comparison)
          by (vm_compute; reflexivity).
        reflexivity.
      - destruct b; try discriminate N. cbn [SFcompare]. now rewrite andb_false_r.
      - destruct c; try discriminate N.
        replace (SFcompare (of_Z (-90)) S754_nan) with (@None comparison)
          by (vm_compute; reflexivity).
        now rewrite andb_false_r.
      - destruct d; try discriminate N. cbn [SFcompare]. now rewrite andb_false_r. }
    unfold displayBounds. rewrite G, bounds_eta. reflexivity.
Qed.

(** *** The catalogue helpers *)

Lemma map_index_length {A B : Type} (f : A -> Z -> B) (l : list A) (i : Z) :
  List.length (map_index f l i) = List.length l.
Proof.
  revert i. induction l as [| x rest IH]; intros i; cbn [map_index List.length];
    [reflexivity | now rewrite IH].
Qed.

Lemma map_index_Forall {A B : Type} (f : A -> Z -> B) (P : A -> Prop) (Q : B -> Prop)
      (l : list A) (i : Z) :
  (forall x k, P x -> Q (f x k)) -> Forall P l -> Forall Q (map_index f l i).
Proof.
  intros Hf Hl. revert i. induction Hl as [| x rest Hx Hl IH]; intros i; cbn [map_index].
  - constructor.
  - constructor; [now apply Hf | apply IH].
Qed.

Lemma map_index_Forall_inv {A B : Type} (f : A -> Z -> B) (P : A -> Prop) (Q : B -> Prop)
      (l : list A) (i : Z) :
  (forall x k, Q (f x k) -> P x) -> Forall Q (map_index f l i) -> Forall P l.
Proof.
  intros Hf. revert i. induction l as [| x rest IH]; intros i H; [constructor |].
  cbn [map_index] in H. apply Forall_cons_iff in H. destruct H as [Hx H].
  constructor; [exact (Hf _ _ Hx) | exact (IH _ H)].
Qed.

Lemma map_index_map {A B C : Type} (g : B -> C) (g' : A -> C) (f : A -> Z -> B)
      (l : list A) (i : Z) :
  (forall x k, g (f x k) = g' x) -> map g (map_index f l i) = map g' l.
Proof.
  intros Hf. revert i. induction l as [| x rest IH]; intros i; cbn [map_index map].
  - reflexivity.
  - now rewrite Hf, IH.
Qed.

Lemma tiff_resources_of_message (d : maybe dataset) (m : string) :
  tiff_resources_of d = Throw m ->
  m = "No resources found in dataset"%string \/ m = "No TIFF files found in dataset"%string.
Proof.
  unfold tiff_resources_of. intros T.
  destruct d as [| | ds]; try (injection T as <-; auto).
  destruct (ds_resources ds) as [resources |]; [| injection T as <-; auto].
  destruct (filter is_tiff resources); [injection T as <-; auto | discriminate T].
Qed.

Lemma tiff_resources_of_inv (d : maybe dataset) (tiffs : list resource) :
  tiff_resources_of d = Return tiffs ->
  tiffs <> [] /\
  exists ds resources,
    d = Defined ds /\ ds_resources ds = Some resources /\ tiffs = filter is_tiff resources.
Proof.
  unfold tiff_resources_of.
  destruct d as [| | ds]; try discriminate.
  destruct (ds_resources ds) as [resources |] eqn:R; [| discriminate].
  destruct (filter is_tiff resources) as [| t rest] eqn:F; [discriminate |].
  intros E. injection E as <-. split; [discriminate |].
  exists ds, resources. auto.
Qed.

Lemma sort_head_newest (l : list resource) (first : resource) (rest : list resource) :
  sort by_ms l = first :: rest ->
  Forall (fun r => date_ms r <= date_ms first) l.
Proof.
  intros E. pose proof (sort_newest_first l) as S. rewrite E in S.
  apply StronglySorted_inv in S. destruct S as [_ S].
  apply (Permutation_Forall (sort_perm by_ms l)). rewrite E.
  constructor; [lia | exact S].
Qed.

(** X9: every entry of the list that [getAllTiffResources] returns passes
    the TIFF test and carries an id and a display name, the display name
    being the resource's name when it has one; the list is not empty and
    has one entry per TIFF resource of the dataset. *)
Theorem getAllTiffResources_entries (d : maybe dataset) (out : list resource)
        (H : getAllTiffResources d = Return out) :
  out <> [] /\
  Forall (fun r => is_tiff r = true /\
                   (exists i, id r = Some i) /\
                   (exists n, displayName r = Some n) /\
                   (name r <> None -> displayName r = name r)) out /\
  exists ds resources,
    d = Defined ds /\ ds_resources ds = Some resources /\
    List.length out = List.length (filter is_tiff resources).
Proof.
  unfold getAllTiffResources in H.
  destruct (tiff_resources_of d) as [tiffs | m] eqn:T; [| discriminate H].
  injection H as <-.
  destruct (tiff_resources_of_inv d tiffs T) as (Hne & ds & resources & -> & R & ->).
  split; [| split].
  - intros E. apply (f_equal (@List.length resource)) in E.
    rewrite map_index_length in E. cbn [List.length] in E.
    apply length_zero_iff_nil in E. now apply sort_nonempty in E.
  - apply map_index_Forall with (P := fun r => is_tiff r = true).
    + intros r k Hr. split; [exact Hr |]. cbn [id displayName name].
      split; [destruct (id r); eauto |].
      split; [destruct (name r); eauto |].
      destruct (name r); [reflexivity | congruence].
    + apply (Permutation_Forall (Permutation_sym (sort_perm (SortCompare by_date_desc) _))).
      rewrite Forall_forall. intros r Hr. apply filter_In in Hr. apply Hr.
  - exists ds, resources. split; [reflexivity |]. split; [exact R |].
    rewrite map_index_length. apply Permutation_length, sort_perm.
Qed.

Lemma getAllTiffResources_entries_witness :
  exists out, getAllTiffResources
                (Defined {| ds_name := None; ds_resources := Some [raster_a; raster_b] |})
              = Return out /\ out <> [].
Proof.
  exists [raster_b; raster_a].
  assert (E : getAllTiffResources
                (Defined {| ds_name := None; ds_resources := Some [raster_a; raster_b] |})
              = Return [raster_b; raster_a]) by (vm_compute; reflexivity).
  split; [exact E |].
  exact (proj1 (getAllTiffResources_entries _ _ E)).
Defined.

Lemma insert_by_stable (t : Z) (x : resource) (l : list resource) :
  filter (fun r => date_ms r =? t) (insert_by by_ms x l)
  = filter (fun r => date_ms r =? t) (x :: l).
Proof.
  induction l as [| y rest IH]; [reflexivity |].
  cbn [insert_by]. unfold by_ms at 1.
  destruct (Z.ltb_spec 0 (date_ms y - date_ms x)) as [Hlt | Hge]; [| reflexivity].
  cbn [filter] in IH |- *. rewrite IH.
  destruct (Z.eqb_spec (date_ms y) t) as [Ey | Ny]; [| reflexivity].
  destruct (Z.eqb_spec (date_ms x) t) as [Ex | Nx]; [lia | reflexivity].
Qed.

Lemma insert_by_sorted (x : resource) (l : list resource) :
  Forall (newest_first x) l -> insert_by by_ms x l = x :: l.
Proof.
  intros H. destruct l as [| y rest]; [reflexivity |].
  apply Forall_inv in H. unfold newest_first in H.
  cbn [insert_by]. unfold by_ms.
  destruct (Z.ltb_spec 0 (date_ms y - date_ms x)); [lia | reflexivity].
Qed.

(** X10: on resources whose dates are valid the sort by date is stable
    and leaves an ordered list alone: resources with the same date keep
    the order they have in the catalogue, a list that is already
    newest-first is returned unchanged, and sorting twice is sorting
    once. *)
Theorem sort_by_date_stable (l : list resource)
        (Hv : Forall (fun r => valid_date r = true) l) :
  let sorted := sort (SortCompare by_date_desc) l in
  (forall t, filter (fun r => date_ms r =? t) sorted
             = filter (fun r => date_ms r =? t) l) /\
  (StronglySorted newest_first l -> sorted = l) /\
  sort (SortCompare by_date_desc) sorted = sorted.
Proof.
  cbv zeta.
  assert (K : forall l', StronglySorted newest_first l' -> sort by_ms l' = l').
  { intros l' S. induction S as [| x rest S IH Hx]; [reflexivity |].
    cbn [sort fold_right]. fold (sort by_ms rest). rewrite IH.
    now apply insert_by_sorted. }
  assert (Hs : Forall (fun r => valid_date r = true) (sort by_ms l))
    by exact (Permutation_Forall (Permutation_sym (sort_perm by_ms l)) Hv).
  rewrite (sort_valid l Hv), (sort_valid _ Hs).
  split; [| split].
  - intros t. clear Hv Hs. induction l as [| x rest IH]; [reflexivity |].
    cbn [sort fold_right]. fold (sort by_ms rest).
    rewrite insert_by_stable. cbn [filter]. now rewrite IH.
  - apply K.
  - apply K, sort_newest_first.
Qed.

Lemma sort_by_date_stable_witness :
  sort (SortCompare by_date_desc)
       (sort (SortCompare by_date_desc) [res_undated; raster_a; res_2024; raster_a])
  = sort (SortCompare by_date_desc) [res_undated; raster_a; res_2024; raster_a].
Proof.
  refine (proj2 (proj2 (sort_by_date_stable [res_undated; raster_a; res_2024; raster_a] _))).
  repeat constructor.
Defined.

(** X11: the two catalogue helpers agree: they fail on the same datasets
    with the same message, one of the two of the resource test, and when
    they succeed [getLatestTiffUrl] describes the first entry of
    [getAllTiffResources]; reading the first element of the sorted list
    never fails; and when the dates of the entries are valid, no entry is
    newer than the first. *)
Theorem getLatestTiffUrl_is_first (d : maybe dataset) :
  match getAllTiffResources d, getLatestTiffUrl d with
  | Return out, Return latest =>
      exists first rest,
        out = first :: rest /\
        ti_url latest = url first /\ ti_name latest = name first /\
        ti_description latest = res_description first /\
        ti_created latest = created first /\ ti_format latest = format first /\
        (Forall (fun r => valid_date r = true) out ->
         Forall (fun r => date_ms r <= date_ms first) out)
  | Throw m, Throw m' =>
      m = m' /\
      (m = "No resources found in dataset"%string \/ m = "No TIFF files found in dataset"%string)
  | _, _ => False
  end.
Proof.
  unfold getAllTiffResources, getLatestTiffUrl.
  destruct (tiff_resources_of d) as [tiffs | m] eqn:T.
  - destruct (tiff_resources_of_inv d tiffs T) as (Hne & _).
    pose proof (sort_nonempty (SortCompare by_date_desc) tiffs Hne) as Hs.
    match goal with
    | |- context [map_index ?F (sort (SortCompare by_date_desc) tiffs) 0] =>
        assert (V : Forall (fun r => valid_date r = true)
                      (map_index F (sort (SortCompare by_date_desc) tiffs) 0) ->
                    Forall (fun r => valid_date r = true) tiffs)
    end.
    { intros Hv. apply (Permutation_Forall (sort_perm (SortCompare by_date_desc) tiffs)).
      revert Hv. apply map_index_Forall_inv. intros x k Hx. exact Hx. }
    destruct (sort (SortCompare by_date_desc) tiffs) as [| first rest] eqn:E; [congruence |].
    cbn [map_index] in V |- *. eexists _, _. split; [reflexivity |].
    cbn [url name res_description created format].
    repeat (split; [reflexivity |]).
    intros Hv. specialize (V Hv).
    rewrite (sort_valid tiffs V) in E.
    pose proof (sort_head_newest tiffs first rest E) as Hd.
    apply (Permutation_Forall (Permutation_sym (sort_perm by_ms tiffs))) in Hd.
    rewrite E in Hd.
    change (first :: rest) with ([first] ++ rest)%list in Hd.
    apply Forall_app in Hd. destruct Hd as [_ Hd].
    constructor; [unfold date_ms, date_of; cbn [created last_modified]; lia |].
    apply map_index_Forall with (P := fun r => date_ms r <= date_ms first); [| exact Hd].
    intros r k Hr. exact Hr.
  - split; [reflexivity |]. now apply (tiff_resources_of_message d).
Qed.

(** *** Start-up: the catalogue request *)

Lemma append_nonempty (a b : string) : a <> EmptyString -> (a ++ b)%string <> EmptyString.
Proof. destruct a; [congruence | discriminate]. Qed.

Lemma eqb_empty_false (m : string) : m <> EmptyString -> String.eqb m EmptyString = false.
Proof. intros H. now apply String.eqb_neq. Qed.

Lemma dataset_of_response_message (fallback : string) (o : catalog_outcome) (m : string) :
  fallback <> EmptyString ->
  o <> CatRejected EmptyString ->
  dataset_of_response fallback o = Throw m -> m <> EmptyString.
Proof.
  intros Hf Ho. unfold dataset_of_response.
  destruct o as [m' | status statusText | [|] em dr]; intros E; try discriminate E;
    injection E as <-.
  - intros ->. now apply Ho.
  - discriminate.
  - destruct em as [e |]; [| exact Hf].
    destruct (String.eqb_spec e EmptyString); [exact Hf | assumption].
Qed.

Lemma getAllTiffResources_message (d : maybe dataset) (m : string) :
  getAllTiffResources d = Throw m -> m <> EmptyString.
Proof.
  unfold getAllTiffResources.
  destruct (tiff_resources_of d) as [tiffs | m'] eqn:T; [discriminate |].
  intros E. injection E as <-.
  destruct (tiff_resources_of_message d m' T) as [-> | ->]; discriminate.
Qed.

(** X12: when the catalogue cannot be used, whether the request rejects,
    the response is not ok, the body reports no success, the dataset has no
    resources or none of them is a TIFF, [loadDatasetInfo] ends with the
    loading flag cleared and a message in the error slot, so the error box
    and its Retry button are shown (a rejection with an empty message
    apart); the list of rasters, the selection, the raster record and the
    outstanding loads are as before. *)
Theorem catalogue_failure_shows_retry (raster layer : Type) (o : catalog_outcome)
        (a : component raster layer)
        (Hfail : match fetchDatasetInfo o with
                 | Return ds => exists m, getAllTiffResources ds = Throw m
                 | Throw _ => True
                 end)
        (Hmsg : o <> CatRejected EmptyString) :
  let a' := loadDatasetInfo_resume o (loadDatasetInfo_begin a) in
  retry_shown (comp a') = true /\
  loading (comp a') = false /\
  availableRasters (comp a') = availableRasters (comp a) /\
  selectedRaster (comp a') = selectedRaster (comp a) /\
  tiffData (comp a') = tiffData (comp a) /\
  pending (comp a') = pending (comp a) /\
  (datasetInfo a' = datasetInfo a \/ fetchDatasetInfo o = Return (datasetInfo a')).
Proof.
  cbv zeta. unfold loadDatasetInfo_resume, loadDatasetInfo_begin.
  destruct (fetchDatasetInfo o) as [ds | m] eqn:F.
  - destruct Hfail as (m & G). rewrite G.
    cbn [comp datasetInfo setLoading setError retry_shown loading error availableRasters
         selectedRaster tiffData pending].
    rewrite (eqb_empty_false m (getAllTiffResources_message ds m G)).
    repeat split; auto.
  - cbn [comp datasetInfo setLoading setError retry_shown loading error availableRasters
         selectedRaster tiffData pending].
    assert (N : m <> EmptyString).
    { apply (dataset_of_response_message _ o m) in F; [exact F | discriminate | exact Hmsg]. }
    rewrite (eqb_empty_false m N). repeat split; auto.
Qed.

Lemma catalogue_failure_shows_retry_witness :
  let a := {| comp := idle; datasetInfo := Null |} in
  let a' := loadDatasetInfo_resume (CatNotOk 503 "Service Unavailable")
                                   (loadDatasetInfo_begin a) in
  retry_shown (comp a') = true /\
  loading (comp a') = false /\
  availableRasters (comp a') = availableRasters (comp a) /\
  selectedRaster (comp a') = selectedRaster (comp a) /\
  tiffData (comp a') = tiffData (comp a) /\
  pending (comp a') = pending (comp a) /\
  (datasetInfo a' = datasetInfo a
   \/ fetchDatasetInfo (CatNotOk 503 "Service Unavailable") = Return (datasetInfo a')).
Proof.
  apply (catalogue_failure_shows_retry Z Z (CatNotOk 503 "Service Unavailable")
           {| comp := idle; datasetInfo := Null |}).
  - exact I.
  - discriminate.
Defined.

Lemma newest_first_by_dates (l l' : list resource) :
  map date_ms l = map date_ms l' ->
  StronglySorted newest_first l' -> StronglySorted newest_first l.
Proof.
  revert l'. induction l as [| x rest IH]; intros l' E S; [constructor |].
  destruct l' as [| x' rest']; [discriminate E |].
  cbn [map] in E. injection E as Ex Er.
  apply StronglySorted_inv in S. destruct S as [S Hx].
  constructor; [now apply (IH rest') |].
  clear IH S. revert rest' Er Hx. induction rest as [| y rest IH]; intros rest' Er Hx;
    [constructor |].
  destruct rest' as [| y' rest']; [discriminate Er |].
  cbn [map] in Er. injection Er as Ey Er.
  apply Forall_cons_iff in Hx. destruct Hx as [Hy Hx].
  constructor; [unfold newest_first in *; lia | now apply (IH rest')].
Qed.

Lemma getAllTiffResources_sorted (d : maybe dataset) (out : list resource) :
  getAllTiffResources d = Return out ->
  out <> [] /\
  (Forall (fun r => valid_date r = true) out -> StronglySorted newest_first out).
Proof.
  unfold getAllTiffResources.
  destruct (tiff_resources_of d) as [tiffs | m] eqn:T; [| discriminate].
  intros E. injection E as <-.
  destruct (tiff_resources_of_inv d tiffs T) as (Hne & _).
  split.
  - intros E. apply (f_equal (@List.length resource)) in E.
    rewrite map_index_length in E. cbn [List.length] in E.
    apply length_zero_iff_nil in E.
    now apply (sort_nonempty (SortCompare by_date_desc)) in E.
  - intros Hv.
    assert (V : Forall (fun r => valid_date r = true) tiffs).
    { apply (Permutation_Forall (sort_perm (SortCompare by_date_desc) tiffs)).
      revert Hv. apply map_index_Forall_inv. intros x k Hx. exact Hx. }
    apply newest_first_by_dates with (l' := sort by_ms tiffs); [| apply sort_newest_first].
    rewrite (sort_valid tiffs V).
    apply map_index_map. intros r k. reflexivity.
Qed.

(** X13: when the catalogue request succeeds and the dataset has TIFF
    resources, [loadDatasetInfo] stores the dataset, offers the list that
    [getAllTiffResources] returns and selects its first entry; when the
    dates of the entries are valid, the list is newest first and no
    offered raster is newer than the selected one; the error slot stays
    clear and the raster record is not touched. *)
Theorem catalogue_success_selects_newest (raster layer : Type) (o : catalog_outcome)
        (a : component raster layer) (ds : maybe dataset) (out : list resource)
        (Hfetch : fetchDatasetInfo o = Return ds)
        (Hall : getAllTiffResources ds = Return out) :
  let a' := loadDatasetInfo_resume o (loadDatasetInfo_begin a) in
  datasetInfo a' = ds /\
  availableRasters (comp a') = out /\
  (exists first rest,
      out = first :: rest /\ selectedRaster (comp a') = Some first /\
      (Forall (fun r => valid_date r = true) out ->
       StronglySorted newest_first out /\
       Forall (fun r => date_ms r <= date_ms first) out)) /\
  error (comp a') = None /\
  tiffData (comp a') = tiffData (comp a).
Proof.
  cbv zeta. unfold loadDatasetInfo_resume, loadDatasetInfo_begin. rewrite Hfetch, Hall.
  destruct (getAllTiffResources_sorted ds out Hall) as (Hne & Hs).
  destruct out as [| first rest]; [congruence |].
  cbn [comp datasetInfo setLoading setError setSelectedRaster setAvailableRasters
       loading error availableRasters selectedRaster tiffData].
  repeat (split; [reflexivity |]).
  split; [| split; reflexivity].
  exists first, rest. split; [reflexivity |]. split; [reflexivity |].
  intros Hv. specialize (Hs Hv). split; [exact Hs |].
  apply StronglySorted_inv in Hs. destruct Hs as [_ Hs].
  constructor; [lia | exact Hs].
Qed.

Lemma catalogue_success_selects_newest_witness :
  let a := {| comp := idle; datasetInfo := Null |} in
  let ds := Defined {| ds_name := None; ds_resources := Some [raster_a; raster_b] |} in
  let a' := loadDatasetInfo_resume (CatBody true None ds) (loadDatasetInfo_begin a) in
  selectedRaster (comp a') = Some raster_b.
Proof.
  destruct (catalogue_success_selects_newest Z Z
              (CatBody true None
                 (Defined {| ds_name := None; ds_resources := Some [raster_a; raster_b] |}))
              {| comp := idle; datasetInfo := Null |}
              (Defined {| ds_name := None; ds_resources := Some [raster_a; raster_b] |})
              [raster_b; raster_a])
    as (_ & _ & (first & rest & E & Hsel & _) & _).
  - reflexivity.
  - vm_compute. reflexivity.
  - cbv zeta. injection E as <- _. exact Hsel.
Defined.

(** *** The drop-down *)

(** X14: through the drop-down alone loads never overlap: from a state
    with no load outstanding and the loading flag clear (or one load and
    the flag set), after any sequence of drop-down changes and settled
    loads there is at most one load outstanding, the loading flag is set
    exactly while there is one, and a change made in the meantime is not
    delivered. *)
Theorem one_load_at_a_time (raster layer : Type) (G : raster -> option layer)
        (evs : list (ui_event raster)) (st : state raster layer)
        (H : one_load st) :
  let st' := fold_left (ui_step G) evs st in
  one_load st' /\ (pending st' <= 1)%nat /\
  (pending st' = 1%nat -> forall rasterId, user_change rasterId st' = st').
Proof.
  cbv zeta.
  assert (K : one_load (fold_left (ui_step G) evs st)).
  { revert st H. induction evs as [| ev evs IH]; intros st H; [exact H |].
    cbn [fold_left]. apply IH. clear IH.
    destruct ev as [rasterId | r o]; cbn [ui_step].
    - destruct (user_change_cases st rasterId) as [E | [(L & r & N & E) | (L & E)]];
        rewrite E; [exact H | |].
      + destruct H as [[Hp Hl] | [Hp Hl]]; [| congruence].
        right. cbn. rewrite Hp. auto.
      + destruct H as [[Hp Hl] | [Hp Hl]]; [| congruence].
        left. cbn. auto.
    - destruct (pending st) as [| n] eqn:P; [exact H |].
      cbn [step]. destruct (settle_total G r o st) as (s & -> & Hl & Hp & _).
      left. destruct H as [[Hp' _] | [Hp' _]]; [congruence |].
      rewrite Hp, P. cbn [Nat.pred]. split; [congruence | exact Hl]. }
  split; [exact K |]. split.
  - destruct K as [[-> _] | [-> _]]; lia.
  - intros Hp rasterId. destruct K as [[Hp' _] | [_ Hl]]; [congruence |].
    unfold user_change, select_disabled. now rewrite Hl.
Qed.

Lemma one_load_at_a_time_witness :
  let st' := fold_left (ui_step Some)
               [Change "a.tif"; Change "b.tif"; Settled raster_a (Decoded 1)] idle in
  one_load st' /\ (pending st' <= 1)%nat /\
  (pending st' = 1%nat -> forall rasterId, user_change rasterId st' = st').
Proof.
  apply (one_load_at_a_time Z Z Some
           [Change "a.tif"; Change "b.tif"; Settled raster_a (Decoded 1)] idle).
  left. split; reflexivity.
Defined.

Lemma find_unique {A : Type} (f : A -> bool) (key : A -> option string)
      (l : list A) (r : A) :
  (forall x, f x = true <-> key x = key r) ->
  NoDup (map key l) -> In r l -> find f l = Some r.
Proof.
  intros Hf Hn Hin. induction l as [| x rest IH]; [contradiction |].
  cbn [map] in Hn. apply NoDup_cons_iff in Hn. destruct Hn as [Hx Hn].
  cbn [find]. destruct (f x) eqn:F.
  - destruct Hin as [-> | Hin]; [reflexivity |].
    apply Hf in F. exfalso. apply Hx. rewrite F. now apply in_map.
  - destruct Hin as [-> | Hin]; [| now apply IH].
    assert (T : f r = true) by now apply Hf. congruence.
Qed.

(** X15: the drop-down finds a raster by its id: when the offered rasters
    have distinct ids, choosing the id of one of them that is not the
    selected one selects that raster and starts its load (loading flag set,
    error cleared, one more load outstanding); choosing the id of the
    raster that is selected changes nothing and starts nothing; choosing
    an id that no offered raster has clears the selection and starts
    nothing. *)
Theorem raster_change_finds_by_id (raster layer : Type) (st : state raster layer)
        (r : resource) (rasterId : string)
        (Hid : id r = Some rasterId)
        (Hin : In r (availableRasters st))
        (Hnd : NoDup (map id (availableRasters st))) :
  (selectedRaster st <> Some r ->
   let st' := handleRasterChange rasterId st in
   selectedRaster st' = Some r /\ loading st' = true /\ error st' = None /\
   pending st' = S (pending st) /\ tiffData st' = tiffData st) /\
  (selectedRaster st = Some r -> handleRasterChange rasterId st = st) /\
  (forall other,
      ~ In (Some other) (map id (availableRasters st)) ->
      let st' := handleRasterChange other st in
      selectedRaster st' = None /\ loading st' = loading st /\ error st' = error st /\
      pending st' = pending st /\ tiffData st' = tiffData st).
Proof.
  assert (F : find (fun r0 => match id r0 with
                              | Some i => String.eqb i rasterId
                              | None => false
                              end) (availableRasters st) = Some r).
  { apply (find_unique _ id (availableRasters st) r); [| exact Hnd | exact Hin].
    intros x. rewrite Hid. destruct (id x) as [i |]; [| split; discriminate].
    split; [intros E; apply String.eqb_eq in E; now subst |].
    intros E. injection E as ->. apply String.eqb_refl. }
  split; [| split].
  - intros N. cbv zeta. unfold handleRasterChange. rewrite F.
    rewrite (select_raster_other st (Some r) N). repeat split.
  - intros E. unfold handleRasterChange. rewrite F, <- E. apply select_raster_same.
  - intros other Hno. cbv zeta. unfold handleRasterChange.
    assert (Fn : forall l, ~ In (Some other) (map id l) ->
                           find (fun r0 => match id r0 with
                                           | Some i => String.eqb i other
                                           | None => false
                                           end) l = None).
    { induction l as [| x rest IH]; intros Hl; [reflexivity |].
      cbn [find]. destruct (id x) as [i |] eqn:I.
      - destruct (String.eqb_spec i other) as [-> | Hne].
        + exfalso. apply Hl. cbn [map]. left. exact I.
        + apply IH. intros Hr. apply Hl. now right.
      - apply IH. intros Hr. apply Hl. now right. }
    rewrite (Fn _ Hno).
    destruct (selectedRaster st) as [r0 |] eqn:S.
    + rewrite (select_raster_other st None) by (rewrite S; discriminate). repeat split.
    + rewrite <- S. rewrite select_raster_same. rewrite S. repeat split.
Qed.

Lemma raster_change_finds_by_id_witness :
  selectedRaster (handleRasterChange "a.tif" idle) = Some raster_a.
Proof.
  refine (proj1 (proj1 (raster_change_finds_by_id Z Z idle raster_a "a.tif" _ _ _) _)).
  - reflexivity.
  - right. left. reflexivity.
  - repeat constructor; cbn; intuition discriminate.
  - discriminate.
Defined.

(** *** The raster hook *)

(** X16: a load of the hook always ends with the loading flag cleared.
    Either it failed, at the catalogue request, at the search for the
    latest TIFF, at the raster request or in the decoder, and then the
    error slot holds the message and the raster data are as before (no
    placeholder is stored, unlike in the map component); or the raster was
    decoded, and then the data hold the raster, the description of the
    latest TIFF and display bounds that are geographic, and the error slot
    is as the load's start left it. *)
Theorem hook_load_outcome (raster : Type) (raster_bounds : raster -> bounds)
        (authInfo : auth_info) (co : catalog_outcome) (ro : outcome raster)
        (st : hook_state raster) :
  let st' := hook_load_resume raster_bounds authInfo co ro st in
  hk_loading st' = false /\
  ((exists m, hk_error st' = Some m /\ hk_tiffData st' = hk_tiffData st) \/
   (exists g ds latest,
       ro = Decoded g /\
       fetchDatasetInfo_with_token (token authInfo) co = Return ds /\
       getLatestTiffUrl ds = Return latest /\
       hk_tiffData st' = Some {| hk_georaster := g; hk_info := latest;
                                 hk_bounds := displayBounds (raster_bounds g) |} /\
       isGeographic (extent (displayBounds (raster_bounds g))) = true /\
       hk_error st' = hk_error st /\ hk_datasetInfo st' = ds)) /\
  (forall m ds latest,
      fetchDatasetInfo_with_token (token authInfo) co = Return ds ->
      getLatestTiffUrl ds = Return latest ->
      ro = DecodeThrows m ->
      hk_error st' = Some m /\ hk_tiffData st' = hk_tiffData st /\ hk_datasetInfo st' = ds).
Proof.
  cbv zeta. unfold hook_load_resume.
  destruct (fetchDatasetInfo_with_token (token authInfo) co) as [ds | m] eqn:F.
  - destruct (getLatestTiffUrl ds) as [latest | m] eqn:L.
    + destruct (fetch_and_decode ro) as [g | m] eqn:D.
      * split; [reflexivity |]. split.
        -- right. exists g, ds, latest.
           assert (R : ro = Decoded g).
           { destruct ro; cbn [fetch_and_decode] in D; try discriminate D.
             now injection D as ->. }
           repeat split; auto. apply extent_geographic.
        -- intros m ds' latest' E1 E2 ->. discriminate D.
      * split; [reflexivity |]. split; [left; exists m; auto |].
        intros m' ds' latest' E1 E2 ->. cbn [fetch_and_decode] in D.
        injection D as ->. injection E1 as ->. auto.
    + split; [reflexivity |]. split; [left; exists m; auto |].
      intros m' ds' latest' E1 E2 _. injection E1 as ->. congruence.
  - split; [reflexivity |]. split; [left; exists m; auto |].
    intros m' ds' latest' E1. discriminate E1.
Qed.

Lemma auto_load_inv {raster : Type} (authInfo : auth_info) (st : hook_state raster) :
  auto_load authInfo st = true ->
  truthy (isAuthenticated authInfo) = true /\ truthy (token authInfo) = true /\
  hk_tiffData st = None /\ hk_loading st = false.
Proof.
  unfold auto_load. intros H.
  apply andb_prop in H. destruct H as [H H4].
  apply andb_prop in H. destruct H as [H H3].
  apply andb_prop in H. destruct H as [H1 H2].
  repeat split; auto.
  - destruct (hk_tiffData st); [discriminate H3 | reflexivity].
  - now destruct (hk_loading st).
Qed.

(** X17: a failed load re-arms the automatic load.  When the condition of
    the loading effect holds and the token is a string, the load starts
    and the condition is false while it runs; when it has ended, the
    condition holds again exactly if it failed, and then the error slot
    is set; so with the same credentials the hook loads again without a
    request by the user.  After a success the condition stays false. *)
Theorem hook_failed_load_rearms (raster : Type) (raster_bounds : raster -> bounds)
        (authInfo : auth_info) (st : hook_state raster)
        (Hauto : auto_load authInfo st = true)
        (Hstr : is_string (token authInfo) = true) :
  snd (hook_load_begin authInfo st) = true /\
  auto_load authInfo (fst (hook_load_begin authInfo st)) = false /\
  forall co ro,
    let st2 := hook_load_resume raster_bounds authInfo co ro
                                (fst (hook_load_begin authInfo st)) in
    (hk_tiffData st2 = None -> auto_load authInfo st2 = true /\ hk_error st2 <> None) /\
    (hk_tiffData st2 <> None -> auto_load authInfo st2 = false /\ hk_error st2 = None).
Proof.
  destruct (auto_load_inv authInfo st Hauto) as (H1 & H2 & H3 & H4).
  unfold hook_load_begin, valid_token. rewrite H1, H2, Hstr. cbn [negb andb fst snd].
  split; [reflexivity |]. split.
  - unfold auto_load. cbn [hk_loading negb]. now rewrite andb_false_r.
  - intros co ro. cbv zeta. unfold hook_load_resume, auto_load. rewrite H1, H2.
    assert (Fail : forall m ds,
               let s := {| hk_loading := false; hk_error := Some m;
                           hk_tiffData := @None (hook_tiff raster); hk_datasetInfo := ds |} in
               (hk_tiffData s = None ->
                true && true
                && match hk_tiffData s with None => true | Some _ => false end
                && negb (hk_loading s) = true /\ hk_error s <> None) /\
               (hk_tiffData s <> None ->
                true && true
                && match hk_tiffData s with None => true | Some _ => false end
                && negb (hk_loading s) = false /\ hk_error s = None)).
    { intros m ds. cbn. split; [intros _; split; [reflexivity | discriminate] | congruence]. }
    destruct (fetchDatasetInfo_with_token (token authInfo) co) as [ds | m].
    + destruct (getLatestTiffUrl ds) as [latest | m].
      * destruct (fetch_and_decode ro) as [g | m].
        -- cbn. split; [discriminate | intros _; split; reflexivity].
        -- cbn [hk_tiffData]. rewrite H3. apply Fail.
      * cbn [hk_tiffData]. rewrite H3. apply Fail.
    + cbn [hk_tiffData]. rewrite H3. apply Fail.
Qed.

Lemma hook_failed_load_rearms_witness :
  let authInfo := {| isAuthenticated := JsBool true; token := JsString "jwt";
                     auth_user := JsNull; expires_at := JsNull; expires_in := JsNull |} in
  let st := {| hk_loading := false; hk_error := None; hk_tiffData := @None (hook_tiff Z);
               hk_datasetInfo := Null |} in
  auto_load authInfo
    (hook_load_resume (fun _ => gulf_box) authInfo (CatNotOk 503 "Service Unavailable")
                      (Decoded 1) (fst (hook_load_begin authInfo st))) = true.
Proof.
  cbv zeta.
  refine (proj1 (proj1 (proj2 (proj2
    (hook_failed_load_rearms Z (fun _ => gulf_box)
       {| isAuthenticated := JsBool true; token := JsString "jwt";
          auth_user := JsNull; expires_at := JsNull; expires_in := JsNull |}
       {| hk_loading := false; hk_error := None; hk_tiffData := None;
          hk_datasetInfo := Null |} _ _))
    (CatNotOk 503 "Service Unavailable") (Decoded 1)) _)).
  - reflexivity.
  - reflexivity.
  - reflexivity.
Defined.

(** *** Authentication *)

Lemma js_or_null (v : json) : js_or v JsNull = JsNull \/ truthy (js_or v JsNull) = true.
Proof. unfold js_or. destruct (truthy v) eqn:T; [right; exact T | left; reflexivity]. Qed.

(** Only an object has a truthy [result], [access_token], ... *)
Lemma get_truthy_object (key : string) (v : json) :
  String.eqb key "sub" = false -> truthy (get key v) = true ->
  exists fields, v = JsObject fields.
Proof.
  intros K H. destruct v as [| | b | x | s | fields | n]; cbn [get truthy] in H;
    try discriminate H; [| eauto].
  rewrite K in H. discriminate H.
Qed.

(** X18: the token [getAccessToken] extracts is [null] or a truthy value,
    never [undefined], [false], an empty string, zero or NaN; it is the
    nested token of the Tapis v3 structure whenever that is there, before
    any top-level [access_token] or [token]; and what [handleAuthChange]
    stores as the token is that value. *)
Theorem getAccessToken_null_or_truthy (authData : json) :
  (getAccessToken authData = JsNull \/ truthy (getAccessToken authData) = true) /\
  (truthy (get "access_token" (get "access_token" (get "result" authData))) = true ->
   getAccessToken authData = get "access_token" (get "access_token" (get "result" authData))) /\
  (forall auth, handleAuthChange authData = Some auth -> token auth = getAccessToken authData).
Proof.
  split; [| split].
  - unfold getAccessToken.
    destruct (truthy authData); cbn [negb]; [| now left].
    destruct (truthy (get "result" authData)
              && truthy (get "access_token" (get "result" authData))
              && truthy (get "access_token" (get "access_token" (get "result" authData))))
      eqn:A.
    { right. apply andb_prop in A. apply A. }
    destruct (truthy (get "access_token" authData) && is_string (get "access_token" authData))
      eqn:B.
    { right. apply andb_prop in B. apply B. }
    destruct (truthy (get "access_token" authData)
              && truthy (get "access_token" (get "access_token" authData))) eqn:C.
    { right. apply andb_prop in C. apply C. }
    apply js_or_null.
  - intros H.
    destruct (get_truthy_object "access_token" _ eq_refl H) as (f2 & E2).
    assert (H2 : truthy (get "access_token" (get "result" authData)) = true)
      by now rewrite E2.
    destruct (get_truthy_object "access_token" _ eq_refl H2) as (f1 & E1).
    assert (H1 : truthy (get "result" authData) = true) by now rewrite E1.
    destruct (get_truthy_object "result" _ eq_refl H1) as (f0 & E0).
    unfold getAccessToken. rewrite H, H2, H1. now rewrite E0.
  - intros auth H. destruct authData; try discriminate H; now injection H as <-.
Qed.

(** X19: every login attempt ends with the busy flag cleared.  If nothing
    is reported to the parent, the attempt failed: a non-empty message is
    shown (the fallback text when the error has none), and the
    authentication flag, the user and the typed credentials, password
    included, are as before.  If something is reported, the login
    succeeded: the report says authenticated and carries a truthy token
    found in a response that was ok and parsed, the flag is set, the form
    is closed, the password is cleared and no message is shown. *)
Theorem login_attempt_outcome (TypeError_message : string) (closed : credentials)
        (o : login_outcome) (st : header_state) :
  let st' := fst (handleLogin_resume TypeError_message closed o (handleLogin_begin st)) in
  isLoading st' = false /\
  match snd (handleLogin_resume TypeError_message closed o (handleLogin_begin st)) with
  | None =>
      (exists m, hd_error st' = Some m /\ m <> EmptyString) /\
      hd_isAuthenticated st' = hd_isAuthenticated st /\
      hd_user st' = hd_user st /\
      hd_credentials st' = hd_credentials st /\
      showLoginForm st' = showLoginForm st
  | Some report =>
      (exists status responseText authResult,
          o = LoginResponse true status responseText (Some authResult) /\
          get "token" report = extract_token authResult /\
          get "tokenInfo" (get "user" report) = authResult) /\
      truthy (get "token" report) = true /\
      get "isAuthenticated" report = JsBool true /\
      hd_isAuthenticated st' = true /\ hd_error st' = None /\
      showLoginForm st' = false /\
      hd_credentials st' = clear_password closed /\
      hd_user st' = get "user" report
  end.
Proof.
  cbv zeta. unfold handleLogin_resume.
  destruct (login_attempt TypeError_message o) as [[authResult accessToken] | m] eqn:A;
    cbn [fst snd isLoading hd_error hd_isAuthenticated hd_user hd_credentials showLoginForm
         handleLogin_begin].
  - split; [reflexivity |].
    assert (K : exists status responseText,
               o = LoginResponse true status responseText (Some authResult) /\
               accessToken = extract_token authResult /\ truthy accessToken = true).
    { unfold login_attempt in A.
      destruct o as [m | [|] status responseText [j |]]; try discriminate A.
      destruct (truthy (extract_token j)) eqn:T;
        destruct j; try discriminate A; injection A as <- <-; eauto. }
    destruct K as (status & responseText & -> & -> & T).
    split; [exists status, responseText, authResult; repeat split |].
    repeat split; auto.
  - split; [reflexivity |]. split; [| repeat split].
    exists (login_error_text m). split; [reflexivity |].
    unfold login_error_text. destruct (String.eqb_spec m EmptyString); [discriminate | assumption].
Qed.

(** X20: a login against a Tapis v3 server is accepted by the form and
    refused by the raster hook.  When the response has no top-level
    [access_token] and its [result.access_token] is an object (which holds
    the token string and its expiry), the form reports success with that
    object as the token, [handleAuthChange] stores the object, and with the
    stored state the hook's load stops at once with the message
    Invalid authentication token and starts nothing; applied to the
    response itself, [getAccessToken] does find the token string. *)
Theorem tapis_v3_login_is_refused (TypeError_message : string) (closed : credentials)
        (status : Z) (responseText : string) (authResult : json)
        (fields : list (string * json)) (st : header_state)
        (Htop : truthy (get "access_token" authResult) = false)
        (Hres : get "access_token" (get "result" authResult) = JsObject fields) :
  exists st' report auth,
    handleLogin_resume TypeError_message closed
      (LoginResponse true status responseText (Some authResult)) st = (st', Some report) /\
    hd_isAuthenticated st' = true /\
    handleAuthChange report = Some auth /\
    truthy (isAuthenticated auth) = true /\
    token auth = JsObject fields /\
    (forall (raster : Type) (hs : hook_state raster),
        hook_load_begin auth hs
        = ({| hk_loading := hk_loading hs;
              hk_error := Some "Invalid authentication token"%string;
              hk_tiffData := hk_tiffData hs; hk_datasetInfo := hk_datasetInfo hs |}, false)) /\
    (truthy (lookup "access_token" fields) = true ->
     getAccessToken authResult = lookup "access_token" fields).
Proof.
  assert (H1 : truthy (get "access_token" (get "result" authResult)) = true)
    by now rewrite Hres.
  destruct (get_truthy_object "access_token" _ eq_refl H1) as (f1 & E1).
  assert (H0 : truthy (get "result" authResult) = true) by now rewrite E1.
  destruct (get_truthy_object "result" _ eq_refl H0) as (f0 & E0).
  assert (X : extract_token authResult = JsObject fields).
  { unfold extract_token. rewrite Htop, H0, H1. exact Hres. }
  assert (A : login_attempt TypeError_message
                (LoginResponse true status responseText (Some authResult))
              = Return (authResult, JsObject fields)).
  { unfold login_attempt. rewrite X, E0. reflexivity. }
  unfold handleLogin_resume. rewrite A.
  eexists _, _, _. split; [reflexivity |].
  split; [reflexivity |]. split; [reflexivity |].
  split; [reflexivity |]. split; [reflexivity |]. split.
  - intros raster hs. reflexivity.
  - intros T. unfold getAccessToken. rewrite H0, H1, Hres. cbn [get]. rewrite T.
    rewrite E0. reflexivity.
Qed.

Lemma tapis_v3_login_is_refused_witness :
  let authResult :=
    JsObject [("result"%string,
               JsObject [("access_token"%string,
                          JsObject [("access_token"%string, JsString "jwt");
                                    ("expires_in"%string, JsNumber (of_Z 14400))])]);
              ("status"%string, JsString "success")] in
  exists st' report auth,
    handleLogin_resume EmptyString
      {| username := "user"; password := "secret"; baseUrl := "https://portals.tapis.io" |}
      (LoginResponse true 200 EmptyString (Some authResult))
      {| hd_isAuthenticated := false; isLoading := true; hd_user := JsNull;
         showLoginForm := true;
         hd_credentials := {| username := "user"; password := "secret";
                              baseUrl := "https://portals.tapis.io" |};
         hd_error := None |} = (st', Some report) /\
    handleAuthChange report = Some auth /\
    is_string (token auth) = false /\
    getAccessToken authResult = JsString "jwt".
Proof.
  cbv zeta.
  destruct (tapis_v3_login_is_refused EmptyString
              {| username := "user"; password := "secret";
                 baseUrl := "https://portals.tapis.io" |}
              200 EmptyString
              (JsObject [("result"%string,
                          JsObject [("access_token"%string,
                                     JsObject [("access_token"%string, JsString "jwt");
                                               ("expires_in"%string, JsNumber (of_Z 14400))])]);
                         ("status"%string, JsString "success")])
              [("access_token"%string, JsString "jwt");
               ("expires_in"%string, JsNumber (of_Z 14400))]
              {| hd_isAuthenticated := false; isLoading := true; hd_user := JsNull;
                 showLoginForm := true;
                 hd_credentials := {| username := "user"; password := "secret";
                                      baseUrl := "https://portals.tapis.io" |};
                 hd_error := None |} eq_refl eq_refl)
    as (st' & report & auth & H1 & _ & H3 & _ & H5 & _ & H7).
  exists st', report, auth. split; [exact H1 |]. split; [exact H3 |].
  split; [now rewrite H5 |]. now apply H7.
Defined.

(** X21: logging out gives the start state back.  The report of
    [handleLogout], passed through [handleAuthChange], is the initial
    authentication state of [useAuth]; with it the loading effect of the
    hook does not fire and a load asked for stops with the invitation to
    log in; in the form the password is cleared, the user name and the
    server are kept. *)
Theorem logout_restores_initial_auth (st : header_state) :
  handleAuthChange (snd (handleLogout st)) = Some initial_auth /\
  hd_isAuthenticated (fst (handleLogout st)) = false /\
  hd_credentials (fst (handleLogout st)) = clear_password (hd_credentials st) /\
  username (hd_credentials (fst (handleLogout st))) = username (hd_credentials st) /\
  (forall (raster : Type) (hs : hook_state raster),
      auto_load initial_auth hs = false /\
      snd (hook_load_begin initial_auth hs) = false /\
      hk_error (fst (hook_load_begin initial_auth hs))
      = Some "Please log in to access the Gulf Coast InSAR TIFF data"%string /\
      hk_tiffData (fst (hook_load_begin initial_auth hs)) = hk_tiffData hs).
Proof.
  repeat split.
Qed.
